(** * dagology: causal-set matrices

    A shallow embedding of [dagology/matrix/matrix_utils.py] and
    [algorithms/dagsep.py].

    numpy arrays are lists of rows.  Adjacency and longest-path matrices
    hold integer-valued floats and are modelled over [Z], as are the
    numeric arguments [dmax], [k] and [LP] of the callers; coordinates,
    raw separations and the two-link estimate (an average) are modelled
    over [Q].  Rounding and overflow of floats are not modelled.  Python
    exceptions are values of [result]; a [while] loop whose termination
    depends on the data takes a fuel argument and answers [None] when the
    fuel runs out.  Shape errors raised inside numpy's own operations
    ([np.dot] or [+] on arrays that do not fit) are not modelled: the
    statements about those operations take square matrices. *)

From Stdlib Require Import List ZArith QArith Lia Bool Arith.
Import ListNotations.

Set Implicit Arguments.

(** ** Exceptions *)

Inductive exn : Set := IndexError | ValueError | AssertionError.

Inductive result (A : Type) : Type :=
| Ok (a : A)
| Raise (e : exn).

Arguments Ok {A} a.
Arguments Raise {A} e.

Definition bind {A B : Type} (r : result A) (k : A -> result B) : result B :=
  match r with
  | Ok a => k a
  | Raise e => Raise e
  end.

Notation "x <- r ;; k" := (bind r (fun x => k))
  (at level 61, r at next level, right associativity).

(** [for x in l: s = body(s, x)] where the body may raise. *)
Fixpoint for_each {S X : Type} (l : list X) (body : S -> X -> result S) (s : S)
  : result S :=
  match l with
  | [] => Ok s
  | x :: l' => s' <- body s x ;; for_each l' body s'
  end.

(** [range(n)] for a Python integer [n]: empty when [n <= 0]. *)
Definition range (n : Z) : list nat := seq 0 (Z.to_nat n).

(** ** numpy primitives *)

Module Np.

Definition matrix (T : Type) : Type := list (list T).

Section Generic.
Variable T : Type.
Variable d : T.

Definition nrows (M : matrix T) : nat := length M.

Definition ncols (M : matrix T) : nat :=
  match M with
  | [] => 0
  | r :: _ => length r
  end.

(** [M[i,j]] for indices known to be in range. *)
Definition get (M : matrix T) (i j : nat) : T := nth j (nth i M []) d.

(** [M[i,j]] with numpy's bounds check. *)
Definition get_checked (M : matrix T) (i j : nat) : result T :=
  match nth_error M i with
  | None => Raise IndexError
  | Some r =>
      match nth_error r j with
      | None => Raise IndexError
      | Some v => Ok v
      end
  end.

Definition tabulate (n m : nat) (f : nat -> nat -> T) : matrix T :=
  map (fun i => map (f i) (seq 0 m)) (seq 0 n).

Fixpoint update (X : Type) (l : list X) (i : nat) (f : X -> X) : list X :=
  match l, i with
  | [], _ => []
  | x :: r, O => f x :: r
  | x :: r, S i' => x :: update r i' f
  end.

(** [M[i,j] = v]; every assignment in the sources has [i] and [j] below
    the matrix size, so the out-of-range case (an [IndexError] in
    numpy) is never reached. *)
Definition set (M : matrix T) (i j : nat) (v : T) : matrix T :=
  update M i (fun r => update r j (fun _ => v)).

Definition shape (n m : nat) (M : matrix T) : Prop :=
  length M = n /\ Forall (fun r => length r = m) M.

(** [M[:,j]] *)
Definition col (M : matrix T) (j : nat) : list T :=
  map (fun r => nth j r d) M.

(** [M[i,:]] *)
Definition row (M : matrix T) (i : nat) : list T := nth i M [].

Definition transpose (M : matrix T) : matrix T :=
  tabulate (ncols M) (nrows M) (fun i j => get M j i).
End Generic.

Definition map_matrix {X Y : Type} (f : X -> Y) (M : matrix X) : matrix Y :=
  map (map f) M.

Fixpoint zip_with {X Y W : Type} (f : X -> Y -> W) (a : list X) (b : list Y)
  : list W :=
  match a, b with
  | x :: a', y :: b' => f x y :: zip_with f a' b'
  | _, _ => []
  end.

(** Elementwise binary operation on two arrays of one shape. *)
Definition map2_matrix {X Y W : Type} (f : X -> Y -> W)
  (A : matrix X) (B : matrix Y) : matrix W :=
  zip_with (zip_with f) A B.

Local Open Scope Z_scope.

Definition zeros (n m : nat) : matrix Z := tabulate n m (fun _ _ => 0).

Fixpoint sum_upto (n : nat) (f : nat -> Z) : Z :=
  match n with
  | O => 0
  | S n' => sum_upto n' f + f n'
  end.

(** [np.dot(A, B)] for two-dimensional arrays whose inner sizes agree. *)
Definition dot (A B : matrix Z) : matrix Z :=
  tabulate (nrows A) (ncols B)
    (fun i j => sum_upto (nrows B) (fun k => get 0 A i k * get 0 B k j)).

Definition add : matrix Z -> matrix Z -> matrix Z := map2_matrix Z.add.
Definition sub : matrix Z -> matrix Z -> matrix Z := map2_matrix Z.sub.
Definition mul : matrix Z -> matrix Z -> matrix Z := map2_matrix Z.mul.
Definition maximum : matrix Z -> matrix Z -> matrix Z := map2_matrix Z.max.
Definition scale (c : Z) : matrix Z -> matrix Z := map_matrix (Z.mul c).
Definition sign : matrix Z -> matrix Z := map_matrix Z.sgn.

(** [M[cond(M)] = v] *)
Definition assign_where (cond : Z -> bool) (v : Z) : matrix Z -> matrix Z :=
  map_matrix (fun x => if cond x then v else x).

(** [np.sum(M)] *)
Definition sum (M : matrix Z) : Z :=
  fold_right (fun r acc => fold_right Z.add 0 r + acc) 0 M.

(** [np.max(M)]; numpy raises [ValueError] on an array without elements. *)
Definition max (M : matrix Z) : result Z :=
  match concat M with
  | [] => Raise ValueError
  | x :: l => Ok (fold_left Z.max l x)
  end.

Definition list_eqb {X : Type} (eqb : X -> X -> bool) : list X -> list X -> bool :=
  fix go a b :=
    match a, b with
    | [], [] => true
    | x :: a', y :: b' => eqb x y && go a' b'
    | _, _ => false
    end.

(** [np.array_equal(A, B)]: same shape and same elements. *)
Definition array_equal (A B : matrix Z) : bool := list_eqb (list_eqb Z.eqb) A B.

(** [np.flatnonzero(v)] for a vector: the ascending indices of the nonzero
    entries. *)
Definition flatnonzero (v : list Z) : list nat :=
  filter (fun x => negb (nth x v 0 =? 0)) (seq 0 (length v)).

(** [np.where(v == c)[0]] *)
Definition where_eq (v : list Z) (c : Z) : list nat :=
  filter (fun x => nth x v 0 =? c) (seq 0 (length v)).

(** [np.intersect1d(a, b)] on ascending duplicate-free index vectors (what
    [flatnonzero] and [where] return): the common values, ascending. *)
Definition intersect1d (a b : list nat) : list nat :=
  filter (fun x => existsb (Nat.eqb x) b) a.

End Np.

Import Np.

Local Open Scope Z_scope.

(** Python truthiness of an optional number: [None] and [0] are false. *)
Definition truthy (o : option Z) : bool :=
  match o with
  | None => false
  | Some v => negb (v =? 0)
  end.

(** ** dagology/matrix/matrix_utils.py *)

Module MatrixUtils.

Definition Qltb (x y : Q) : bool := negb (Qle_bool y x).

(** [causet_adj_matrix(S, R)] *)
Definition causet_adj_matrix (S R : matrix Q) : result (matrix Z) :=
  let N := nrows S in
  let A := zeros N N in
  for_each (seq 0 N) (fun A i =>
    for_each (seq 0 N) (fun A j =>
      ri <- get_checked R i 0 ;;
      rj <- get_checked R j 0 ;;
      if Qltb rj ri then
        s <- get_checked S i j ;;
        if Qltb s 0%Q then Ok (set A i j 1) else Ok A
      else Ok A) A) A.

(** One pass of the loop body of [transitive_completion], up to the
    comparison with [A_old]. *)
Definition completion_step (A_0 A : matrix Z) : matrix Z :=
  let A := dot A A_0 in
  let A := add A A_0 in
  assign_where (fun x => 1 <? x) 1 A.

Fixpoint completion_loop (fuel : nat) (N : nat) (A_0 A : matrix Z) (i : nat)
  : option (result (matrix Z)) :=
  match fuel with
  | O => None
  | S fuel' =>
      let A_old := A in
      let A := completion_step A_0 A in
      let A_diff := negb (array_equal A_old A) in
      if (i <? N)%nat then
        if A_diff then completion_loop fuel' N A_0 A (S i) else Some (Ok A)
      else Some (Raise AssertionError)
  end.

(** [transitive_completion(A_)]; [fuel] bounds the number of passes of the
    [while] loop. *)
Definition transitive_completion (fuel : nat) (A_ : matrix Z)
  : option (result (matrix Z)) :=
  let A := A_ in
  let A_0 := A in
  let N := nrows A in
  completion_loop fuel N A_0 A 0.

Definition reduction_step (A_0 A : matrix Z) : matrix Z :=
  let A := dot A A_0 in
  let A := sub A_0 A in
  let A := assign_where (fun x => x <? 1) 0 A in
  assign_where (fun x => 1 <? x) 1 A.

(** [transitive_reduction(A_, LP)]: the loop [while i < max_path] runs its
    body [max_path] times. *)
Definition transitive_reduction (A_ : matrix Z) (LP : option Z) : matrix Z :=
  let A := A_ in
  let A_0 := A in
  let N := nrows A in
  let max_path :=
    if truthy LP then match LP with Some v => v | None => Z.of_nat N end
    else Z.of_nat N in
  Nat.iter (Z.to_nat max_path) (reduction_step A_0) A.

Fixpoint longest_path_loop (fuel : nat) (A : matrix Z) (dmax : Z)
  (LP B : matrix Z) (i : Z) : option (matrix Z) :=
  match fuel with
  | O => None
  | S fuel' =>
      if 0 <? Np.sum B then
        let path_exist := sign B in
        let path_length := scale i path_exist in
        let LP := maximum LP path_length in
        let B := dot B A in
        let i := i + 1 in
        if i =? dmax then Some LP
        else longest_path_loop fuel' A dmax LP B i
      else Some LP
  end.

(** [longest_path_matrix(A, dmax)] *)
Definition longest_path_matrix (fuel : nat) (A : matrix Z) (dmax : option Z)
  : option (matrix Z) :=
  let N := nrows A in
  let dmax := match dmax with None => Z.of_nat N | Some v => v end in
  let LP := zeros N N in
  longest_path_loop fuel A dmax LP A 1.

(** The distance of a spacelike pair in the naive estimator. *)
Definition naive_sp_dist (LP : matrix Z) (dmax : Z) (i j : nat) : Z :=
  let i_past := flatnonzero (col 0 LP i) in
  let j_past := flatnonzero (col 0 LP j) in
  let w_list := intersect1d i_past j_past in
  let i_future := flatnonzero (row LP i) in
  let j_future := flatnonzero (row LP j) in
  let z_list := intersect1d i_future j_future in
  if (0 <? length z_list)%nat && (0 <? length w_list)%nat then
    fold_left (fun sp_dist w =>
      fold_left (fun sp_dist z =>
        let w_z := get 0 LP w z in
        if 0 <? w_z then Z.min sp_dist w_z else sp_dist) z_list sp_dist)
      w_list dmax
  else dmax.

(** The body of the pair loop: [if ds2[i,j] == 0: ...]. *)
Definition naive_pair (LP : matrix Z) (dmax : Z) (ds2 : matrix Z) (i j : nat)
  : matrix Z :=
  if get 0 ds2 i j =? 0 then
    let sp_dist := naive_sp_dist LP dmax i j in
    let ds2 := set ds2 i j (sp_dist * sp_dist) in
    set ds2 j i (sp_dist * sp_dist)
  else ds2.

(** [naive_spacelike_matrix(LP, dmax, k)] *)
Definition naive_spacelike_matrix (LP : matrix Z) (dmax k : option Z)
  : result (matrix Z) :=
  dmax <- match dmax with None => Np.max LP | Some v => Ok v end ;;
  let ds := add LP (transpose 0 LP) in
  let ds2 := scale (-1) (mul ds ds) in
  let N := nrows LP in
  Ok (fold_left (fun ds2 i =>
        let max_j := Z.of_nat i in
        let max_j :=
          if truthy k
          then match k with Some kv => Z.min (Z.of_nat i) kv | None => max_j end
          else max_j in
        fold_left (fun ds2 j => naive_pair LP dmax ds2 i j) (range max_j) ds2)
      (seq 0 N) ds2).

End MatrixUtils.

(** ** algorithms/dagsep.py *)

Module Dagsep.

Fixpoint longest_path_loop (fuel : nat) (A : matrix Z) (dmax : option Z)
  (LP B : matrix Z) (i : Z) : option (matrix Z) :=
  match fuel with
  | O => None
  | S fuel' =>
      if 0 <? Np.sum B then
        let path_exist := sign B in
        let path_length := scale i path_exist in
        let LP := maximum LP path_length in
        let B := dot B A in
        let i := i + 1 in
        if truthy dmax && (match dmax with Some v => i =? v | None => false end)
        then Some LP
        else longest_path_loop fuel' A dmax LP B i
      else Some LP
  end.

(** [longest_path_matrix(A, dmax)] *)
Definition longest_path_matrix (fuel : nat) (A : matrix Z) (dmax : option Z)
  : option (matrix Z) :=
  let N := nrows A in
  let LP := zeros N N in
  longest_path_loop fuel A dmax LP A 1.

(** [naive_spacelike_matrix(LP, dmax)] *)
Definition naive_spacelike_matrix (LP : matrix Z) (dmax : option Z)
  : result (matrix Z) :=
  dmax <- match dmax with None => Np.max LP | Some v => Ok v end ;;
  let ds := add LP (transpose 0 LP) in
  let ds2 := scale (-1) (mul ds ds) in
  let N := nrows LP in
  Ok (fold_left (fun ds2 i =>
        fold_left (fun ds2 j =>
          if (j <? i)%nat then MatrixUtils.naive_pair LP dmax ds2 i j else ds2)
          (seq 0 N) ds2)
      (seq 0 N) ds2).

(** The averaged distance of a spacelike pair in the two-link estimator. *)
Definition twolink_av_sp_dist (LP : matrix Z) (dmax : Z) (i j : nat) : Q :=
  let i2_future := where_eq (col 0 LP i) 1 in
  let j2_future := where_eq (col 0 LP j) 1 in
  let two_link_future := intersect1d i2_future j2_future in
  let i_past := flatnonzero (col 0 LP i) in
  let j_past := flatnonzero (col 0 LP j) in
  let link_past := intersect1d i_past j_past in
  if (0 <? length two_link_future)%nat then
    let c :=
      fold_left (fun c w =>
        let sp_dist :=
          fold_left (fun sp_dist z =>
            let w_z := get 0 LP w z in
            if 0 <? w_z then Z.min sp_dist w_z else sp_dist) link_past dmax in
        c + sp_dist) two_link_future 0 in
    (inject_Z c / inject_Z (Z.of_nat (length two_link_future)))%Q
  else inject_Z dmax.

Definition twolink_pair (LP : matrix Z) (dmax : Z) (ds2 : matrix Q) (i j : nat)
  : matrix Q :=
  if Qeq_bool (get 0%Q ds2 i j) 0%Q then
    let av_sp_dist := twolink_av_sp_dist LP dmax i j in
    let ds2 := set ds2 i j (av_sp_dist ^ 2)%Q in
    set ds2 j i (av_sp_dist ^ 2)%Q
  else ds2.

(** [twolink_spacelike_matrix(LP, dmax)] *)
Definition twolink_spacelike_matrix (LP : matrix Z) (dmax : option Z)
  : result (matrix Q) :=
  dmax <- match dmax with None => Np.max LP | Some v => Ok v end ;;
  let ds := add LP (transpose 0 LP) in
  let ds2 := map_matrix inject_Z (scale (-1) (mul ds ds)) in
  let N := nrows LP in
  Ok (fold_left (fun ds2 i =>
        fold_left (fun ds2 j =>
          if (j <? i)%nat then twolink_pair LP dmax ds2 i j else ds2)
          (seq 0 N) ds2)
      (seq 0 N) ds2).

End Dagsep.

(** * Vocabulary of the statements *)

(** ** causet_adj_matrix *)

(** What the loops maintain: the shape, and that a cell is 0 unless it
    is 1 with the row's time strictly after the column's. *)
Definition causet_inv (N : nat) (R : matrix Q) (A : matrix Z) : Prop :=
  shape N N A /\
  forall a b, (a < N)%nat -> (b < N)%nat ->
    get 0 A a b = 0 \/
    (get 0 A a b = 1 /\ MatrixUtils.Qltb (get 0%Q R b 0) (get 0%Q R a 0) = true).

(** The matrix [causet_adj_matrix] computes when every read is in range. *)
Definition causet_closed_form (S R : matrix Q) : matrix Z :=
  tabulate (nrows S) (nrows S) (fun i j =>
    if MatrixUtils.Qltb (get 0%Q R j 0) (get 0%Q R i 0) && MatrixUtils.Qltb (get 0%Q S i j) 0%Q
    then 1 else 0).

(** ** The pair loop of the separation estimators *)

Section PairLoopDefinitions.
Variable T : Type.
Variable d : T.
Variable test : T -> bool.
Variable v : nat -> nat -> T.

(** [if test(ds2[i,j]): ds2[i,j] = v(i,j); ds2[j,i] = v(i,j)] *)
Definition pair_step (ds2 : matrix T) (i j : nat) : matrix T :=
  if test (get d ds2 i j) then set (set ds2 i j (v i j)) j i (v i j) else ds2.

(** Row [i] visits the columns below [bound i]. *)
Definition pair_loop (bound : nat -> nat) (n : nat) (ds2 : matrix T) : matrix T :=
  fold_left (fun ds2 i =>
    fold_left (fun ds2 j => pair_step ds2 i j) (seq 0 (bound i)) ds2)
    (seq 0 n) ds2.

Definition lower_cell (s : matrix T) (a b : nat) : T :=
  if test (get d s a b) then v a b else get d s a b.

Definition upper_cell (s : matrix T) (a b : nat) : T :=
  if test (get d s b a) then v b a else get d s a b.

End PairLoopDefinitions.

(** The estimators' first two lines: [if dmax == None: dmax = np.max(LP)]. *)
Definition effective_dmax (LP : matrix Z) (dmax : option Z) : result Z :=
  match dmax with None => Np.max LP | Some v => Ok v end.

(** The number of columns row [i] visits under the landmark count [k]. *)
Definition landmark_bound (k : option Z) (i : nat) : nat :=
  Z.to_nat
    (if truthy k
     then match k with Some kv => Z.min (Z.of_nat i) kv | None => Z.of_nat i end
     else Z.of_nat i).

(** [ds2 = ds * ds * -1] with [ds = LP + LP.transpose()]. *)
Definition initial_ds2 (LP : matrix Z) : matrix Z :=
  scale (-1) (mul (add LP (transpose 0 LP)) (add LP (transpose 0 LP))).

Definition naive_value (LP : matrix Z) (dmax : Z) (i j : nat) : Z :=
  MatrixUtils.naive_sp_dist LP dmax i j * MatrixUtils.naive_sp_dist LP dmax i j.

Definition twolink_value (LP : matrix Z) (dmax : Z) (i j : nat) : Q :=
  (Dagsep.twolink_av_sp_dist LP dmax i j ^ 2)%Q.

Definition is_zero (x : Z) : bool := x =? 0.
Definition is_zeroQ (x : Q) : bool := Qeq_bool x 0%Q.

(** A separation matrix as the specification describes it. *)
Definition symmetric_zero_diagonal (T : Type) (d zero : T) (N : nat)
  (DS2 : matrix T) : Prop :=
  shape N N DS2 /\
  (forall i, (i < N)%nat -> get d DS2 i i = zero) /\
  (forall i j, (i < N)%nat -> (j < N)%nat -> get d DS2 i j = get d DS2 j i).

(** The pair [(i,j)] is visited under the landmark count [k]. *)
Definition visited (k : option Z) (i j : nat) : Prop :=
  (Nat.min i j < landmark_bound k (Nat.max i j))%nat.

(** ** Relations as 0/1 matrices *)

(** An [N]x[N] matrix over {0,1}. *)
Definition is_bits (N : nat) (A : matrix Z) : Prop :=
  shape N N A /\
  forall i j, (i < N)%nat -> (j < N)%nat -> get 0 A i j = 0 \/ get 0 A i j = 1.

(** [reach A N i j]: a walk of one or more edges of [A] relates [i] to [j]. *)
Inductive reach (A : matrix Z) (N : nat) : nat -> nat -> Prop :=
| reach_edge i j :
    (i < N)%nat -> (j < N)%nat -> get 0 A i j = 1 -> reach A N i j
| reach_step i k j :
    reach A N i k -> (j < N)%nat -> get 0 A k j = 1 -> reach A N i j.

Definition acyclic (N : nat) (A : matrix Z) : Prop :=
  forall i, ~ reach A N i i.

Definition transitively_closed (N : nat) (A : matrix Z) : Prop :=
  forall i k j, (i < N)%nat -> (k < N)%nat -> (j < N)%nat ->
    get 0 A i k = 1 -> get 0 A k j = 1 -> get 0 A i j = 1.

(** [through A N i j]: some [k] lies between [i] and [j]. *)
Definition through (X A : matrix Z) (N : nat) (i j : nat) : Prop :=
  exists k, (k < N)%nat /\ get 0 X i k = 1 /\ get 0 A k j = 1.

(** An edge of [A] that no two-step walk implies. *)
Definition cover (A : matrix Z) (N : nat) (i j : nat) : Prop :=
  get 0 A i j = 1 /\ ~ through A A N i j.

(** ** Counting *)

Fixpoint count_upto (n : nat) (f : nat -> bool) : nat :=
  match n with
  | O => 0
  | S n' => count_upto n' f + (if f n' then 1 else 0)
  end.

(** The matrix [A] holds after [t] passes of the loop. *)
Definition completion_iter (A_0 : matrix Z) (t : nat) : matrix Z :=
  Nat.iter t (MatrixUtils.completion_step A_0) A_0.

(** The 1s of row [i]. *)
Definition row_ones (Y : matrix Z) (i : nat) : nat -> bool :=
  fun k => get 0 Y i k =? 1.

(** How many nodes lie between [i] and [j]. *)
Definition between_count (A : matrix Z) (N : nat) (i j : nat) : nat :=
  count_upto N (fun x => (get 0 A i x =? 1) && (get 0 A x j =? 1)).

(** ** Path graphs *)

(** [pos] places the [n] nodes along the path and [inv] finds the node at
    a position. *)
Definition is_labelling (n : nat) (pos inv : nat -> nat) : Prop :=
  (forall i, (i < n)%nat -> (pos i < n)%nat /\ inv (pos i) = i) /\
  (forall p, (p < n)%nat -> (inv p < n)%nat /\ pos (inv p) = p).

(** The matrix with a 1 exactly where the row's node stands [m] positions
    after the column's node. *)
Definition shift (n : nat) (pos : nat -> nat) (m : nat) : matrix Z :=
  tabulate n n (fun i j => if (pos i =? pos j + m)%nat then 1 else 0).

(** The path graph in the convention of the sources: [A[i,j] = 1] for the
    edge from [j] to the node [i] that stands right after it. *)
Definition path_adj (n : nat) (pos : nat -> nat) : matrix Z := shift n pos 1.

(** The only path from [j] to [i] in the path graph has [pos i - pos j]
    edges. *)
Definition path_length (pos : nat -> nat) (i j : nat) : Z :=
  if (pos j <? pos i)%nat then Z.of_nat (pos i - pos j) else 0.

(** The path lengths below [m]. *)
Definition lengths_below (n : nat) (pos : nat -> nat) (m : nat) : matrix Z :=
  tabulate n n (fun i j =>
    if path_length pos i j <? Z.of_nat m then path_length pos i j else 0).

(** ** Example matrices *)

(** Longest paths of the diamond [0 -> 1 -> 3], [0 -> 2 -> 3]. *)
Definition diamond_LP : matrix Z :=
  [[0; 0; 0; 0]; [1; 0; 0; 0]; [1; 0; 0; 0]; [2; 1; 1; 0]].

(** Longest paths of the fork [0 -> 1], [0 -> 2]. *)
Definition fork_LP : matrix Z := [[0; 0; 0]; [1; 0; 0]; [1; 0; 0]].

(** ** Reads of causet_adj_matrix *)

(** The entries [causet_adj_matrix] reads exist: every [R[i,0]], and
    [S[i,j]] wherever [R[i,0] > R[j,0]]. *)
Definition reads_in_range (S R : matrix Q) : Prop :=
  (forall i, (i < nrows S)%nat -> exists v, get_checked R i 0 = Ok v) /\
  (forall i j, (i < nrows S)%nat -> (j < nrows S)%nat ->
     MatrixUtils.Qltb (get 0%Q R j 0) (get 0%Q R i 0) = true ->
     exists s, get_checked S i j = Ok s).

(** ** Walks *)

(** [walk A N m i j]: a walk of exactly [m >= 1] edges of [A] relates [i]
    to [j]. *)
Inductive walk (A : matrix Z) (N : nat) : nat -> nat -> nat -> Prop :=
| walk_edge i j :
    (i < N)%nat -> (j < N)%nat -> get 0 A i j = 1 -> walk A N 1 i j
| walk_step m i k j :
    walk A N m i k -> (j < N)%nat -> get 0 A k j = 1 -> walk A N (S m) i j.

(** The matrix [B] of [longest_path_matrix] in pass [m >= 1]: the [m]-th
    power of [A]. *)
Definition matrix_power (A : matrix Z) (m : nat) : matrix Z :=
  Nat.iter (m - 1) (fun B => dot B A) A.

(** What [LP] holds when pass [m] starts: for each pair the longest walk
    of fewer than [m] edges, or 0 without one. *)
Definition longest_below (A : matrix Z) (N m : nat) (LP : matrix Z) : Prop :=
  shape N N LP /\
  forall i j, (i < N)%nat -> (j < N)%nat ->
    (get 0 LP i j = 0 \/
     exists t, (1 <= t < m)%nat /\ get 0 LP i j = Z.of_nat t /\ walk A N t i j) /\
    (forall t, (t < m)%nat -> walk A N t i j -> Z.of_nat t <= get 0 LP i j).



(** ** Bridges of a pair *)

(** [w] is in the list [w_list] and [z] in the list [z_list] that the
    naive estimator builds for the pair [(i,j)]. *)
Definition bridge (LP : matrix Z) (N : nat) (i j w z : nat) : Prop :=
  (w < N)%nat /\ (z < N)%nat /\
  get 0 LP w i <> 0 /\ get 0 LP w j <> 0 /\
  get 0 LP i z <> 0 /\ get 0 LP j z <> 0.

(** [s] is [dmax] cut down to the least positive [LP[w,z]] over the
    bridges of the pair. *)
Definition least_bridge (LP : matrix Z) (N : nat) (dmax : Z) (i j : nat)
  (s : Z) : Prop :=
  s <= dmax /\
  (forall w z, bridge LP N i j w z -> 0 < get 0 LP w z -> s <= get 0 LP w z) /\
  (s = dmax \/
   exists w z, bridge LP N i j w z /\ 0 < get 0 LP w z /\ s = get 0 LP w z).

(** ** Proof automation *)

Ltac split_ltb :=
  repeat match goal with
    | |- context [Z.ltb ?x ?y] => destruct (Z.ltb_spec x y)
    end.

Ltac split_tests :=
  repeat match goal with
    | |- context [Nat.ltb ?x ?y] => destruct (Nat.ltb_spec x y)
    | |- context [Nat.eqb ?x ?y] => destruct (Nat.eqb_spec x y)
    end; simpl; try lia; auto.

(** * Facts about the numpy primitives *)

Section ListFacts.
Variables X Y W : Type.

Lemma nth_map_seq (g : nat -> X) (d : X) (n s i : nat) :
  (i < n)%nat -> nth i (map g (seq s n)) d = g (s + i)%nat.
Proof.
  revert s i. induction n as [|n IH]; intros s i Hi; [lia|].
  destruct i as [|i]; simpl.
  - f_equal. lia.
  - rewrite IH by lia. f_equal. lia.
Qed.

Lemma length_zip_with (f : X -> Y -> W) (a : list X) (b : list Y) :
  length a = length b -> length (zip_with f a b) = length a.
Proof.
  revert b. induction a as [|x a IH]; intros [|y b] H; simpl in *;
    try discriminate; auto.
Qed.

Lemma nth_zip_with (f : X -> Y -> W) (a : list X) (b : list Y) dx dy dw i :
  length a = length b -> (i < length a)%nat ->
  nth i (zip_with f a b) dw = f (nth i a dx) (nth i b dy).
Proof.
  revert b i. induction a as [|x a IH]; intros [|y b] i H Hi; simpl in *;
    try discriminate; try lia.
  destruct i as [|i]; auto. apply IH; lia.
Qed.

Lemma length_update (l : list X) (i : nat) (f : X -> X) :
  length (update l i f) = length l.
Proof.
  revert i. induction l as [|x l IH]; intros [|i]; simpl; auto.
Qed.

Lemma nth_update (l : list X) (i k : nat) (f : X -> X) (d : X) :
  nth k (update l i f) d =
  if (k =? i)%nat && (k <? length l)%nat then f (nth k l d) else nth k l d.
Proof.
  revert i k. induction l as [|x l IH]; intros i k; simpl.
  - destruct k; rewrite andb_false_r; reflexivity.
  - destruct i as [|i], k as [|k]; simpl; auto.
Qed.
End ListFacts.

Section MatrixFacts.
Variable T : Type.
Variable d : T.

Lemma shape_nth (n m : nat) (M : matrix T) (i : nat) :
  shape n m M -> (i < n)%nat -> length (nth i M []) = m.
Proof.
  intros [Hl Hr] Hi. rewrite Forall_forall in Hr.
  apply Hr, nth_In. lia.
Qed.

Lemma shape_tabulate (n m : nat) (f : nat -> nat -> T) :
  shape n m (tabulate n m f).
Proof.
  split.
  - unfold tabulate. now rewrite length_map, length_seq.
  - apply Forall_forall. intros r Hr. unfold tabulate in Hr.
    apply in_map_iff in Hr. destruct Hr as [i [<- _]].
    now rewrite length_map, length_seq.
Qed.

Lemma get_tabulate (n m : nat) (f : nat -> nat -> T) (i j : nat) :
  (i < n)%nat -> (j < m)%nat -> get d (tabulate n m f) i j = f i j.
Proof.
  intros Hi Hj. unfold get, tabulate.
  rewrite nth_map_seq by assumption. simpl.
  now rewrite nth_map_seq by assumption.
Qed.

Lemma shape_ext (n m : nat) (A B : matrix T) :
  shape n m A -> shape n m B ->
  (forall i j, (i < n)%nat -> (j < m)%nat -> get d A i j = get d B i j) ->
  A = B.
Proof.
  intros HA HB H.
  apply nth_ext with (d := []) (d' := []).
  - destruct HA, HB. congruence.
  - intros i Hi. destruct HA as [HlA HrA] eqn:EA. rewrite HlA in Hi.
    apply nth_ext with (d := d) (d' := d).
    + rewrite (shape_nth HA Hi), (shape_nth HB Hi). reflexivity.
    + intros j Hj. rewrite (shape_nth HA Hi) in Hj. apply (H i j Hi Hj).
Qed.

Lemma tabulate_get (n m : nat) (M : matrix T) :
  shape n m M -> tabulate n m (get d M) = M.
Proof.
  intros HM. apply shape_ext with (n := n) (m := m); auto using shape_tabulate.
  intros i j Hi Hj. now apply get_tabulate.
Qed.

Lemma shape_set (n m : nat) (M : matrix T) (i j : nat) (v : T) :
  shape n m M -> shape n m (set M i j v).
Proof.
  intros [Hl Hr]. split.
  - unfold set. now rewrite length_update.
  - apply Forall_forall. intros r Hin.
    destruct (In_nth _ _ [] Hin) as [k [Hk Hnth]].
    unfold set in Hk, Hnth. rewrite length_update in Hk.
    rewrite nth_update in Hnth.
    assert (Hlen : length (nth k M []) = m) by (apply shape_nth with (n := n); [split; auto | lia]).
    destruct ((k =? i)%nat && (k <? length M)%nat); subst r; auto.
    now rewrite length_update.
Qed.

Lemma get_set (n m : nat) (M : matrix T) (i j a b : nat) (v : T) :
  shape n m M -> (i < n)%nat -> (j < m)%nat ->
  get d (set M i j v) a b =
  if (a =? i)%nat && (b =? j)%nat then v else get d M a b.
Proof.
  intros HM Hi Hj. unfold get, set. rewrite nth_update.
  destruct (Nat.eqb_spec a i) as [->|Hai]; simpl; auto.
  destruct HM as [Hl Hr] eqn:E.
  destruct (Nat.ltb_spec i (length M)); [|lia].
  rewrite nth_update. rewrite (shape_nth HM Hi).
  destruct (Nat.eqb_spec b j) as [->|Hbj]; simpl; auto.
  destruct (Nat.ltb_spec j m); [auto|lia].
Qed.

Lemma nrows_shape (n m : nat) (M : matrix T) : shape n m M -> nrows M = n.
Proof. now intros [H _]. Qed.

Lemma ncols_shape (n m : nat) (M : matrix T) :
  shape n m M -> (0 < n)%nat -> ncols M = m.
Proof.
  intros [Hl Hr] Hn. destruct M as [|r M]; simpl in *; [lia|].
  now inversion Hr.
Qed.
End MatrixFacts.

Section MapFacts.
Variables X Y W : Type.

Lemma shape_map_matrix (f : X -> Y) (n m : nat) (M : matrix X) :
  shape n m M -> shape n m (map_matrix f M).
Proof.
  intros [Hl Hr]. split.
  - unfold map_matrix. now rewrite length_map.
  - unfold map_matrix. apply Forall_forall. intros r Hin.
    apply in_map_iff in Hin. destruct Hin as [r' [<- Hin']].
    rewrite length_map. rewrite Forall_forall in Hr. auto.
Qed.

Lemma get_map_matrix (f : X -> Y) (dx : X) (dy : Y) (n m : nat)
  (M : matrix X) (i j : nat) :
  shape n m M -> (i < n)%nat -> (j < m)%nat ->
  get dy (map_matrix f M) i j = f (get dx M i j).
Proof.
  intros HM Hi Hj. unfold get, map_matrix.
  assert (Hlen := shape_nth HM Hi). destruct HM as [Hl Hr].
  rewrite nth_indep with (d' := map f []) by (rewrite length_map; lia).
  rewrite map_nth.
  rewrite nth_indep with (d' := f dx) by (rewrite length_map; lia).
  now rewrite map_nth.
Qed.

Lemma shape_map2_matrix (f : X -> Y -> W) (n m : nat)
  (A : matrix X) (B : matrix Y) :
  shape n m A -> shape n m B -> shape n m (map2_matrix f A B).
Proof.
  intros HA HB. assert (Hlen : length A = length B)
    by (destruct HA, HB; congruence).
  split.
  - unfold map2_matrix. rewrite length_zip_with; [apply HA | exact Hlen].
  - apply Forall_forall. intros r Hin.
    destruct (In_nth _ _ [] Hin) as [k [Hk Hnth]].
    unfold map2_matrix in Hk, Hnth. rewrite length_zip_with in Hk by exact Hlen.
    rewrite nth_zip_with with (dx := []) (dy := []) in Hnth by auto.
    assert (Hkn : (k < n)%nat) by (destruct HA; lia).
    subst r. rewrite length_zip_with;
      rewrite (shape_nth HA Hkn); [reflexivity|].
    now rewrite (shape_nth HB Hkn).
Qed.

Lemma get_map2_matrix (f : X -> Y -> W) (dx : X) (dy : Y) (dw : W)
  (n m : nat) (A : matrix X) (B : matrix Y) (i j : nat) :
  shape n m A -> shape n m B -> (i < n)%nat -> (j < m)%nat ->
  get dw (map2_matrix f A B) i j = f (get dx A i j) (get dy B i j).
Proof.
  intros HA HB Hi Hj. unfold get, map2_matrix.
  assert (HlA := shape_nth HA Hi). assert (HlB := shape_nth HB Hi).
  rewrite nth_zip_with with (dx := []) (dy := [])
    by (destruct HA, HB; try congruence; lia).
  apply nth_zip_with; congruence || lia.
Qed.
End MapFacts.

(** * Loops *)

Section LoopFacts.
Variables S X : Type.

Lemma fold_left_invariant (P : S -> Prop) (f : S -> X -> S) (l : list X) (s : S) :
  (forall s x, In x l -> P s -> P (f s x)) -> P s -> P (fold_left f l s).
Proof.
  revert s. induction l as [|x l IH]; intros s Hf Hs; simpl; auto.
  apply IH.
  - intros s' y Hy. apply Hf. now right.
  - apply Hf; [now left | exact Hs].
Qed.

Lemma fold_left_ext_in (f g : S -> X -> S) (l : list X) (s : S) :
  (forall s x, In x l -> f s x = g s x) -> fold_left f l s = fold_left g l s.
Proof.
  revert s. induction l as [|x l IH]; intros s H; simpl; auto.
  rewrite H by now left. apply IH. intros s' y Hy. apply H. now right.
Qed.

Lemma fold_left_id (f : S -> X -> S) (l : list X) (s : S) :
  (forall s x, In x l -> f s x = s) -> fold_left f l s = s.
Proof.
  revert s. induction l as [|x l IH]; intros s H; simpl; auto.
  rewrite H by now left. apply IH. intros s' y Hy. apply H. now right.
Qed.

Lemma for_each_invariant (P : S -> Prop) (body : S -> X -> result S)
  (l : list X) (s s1 : S) :
  (forall s x s', In x l -> P s -> body s x = Ok s' -> P s') ->
  P s -> for_each l body s = Ok s1 -> P s1.
Proof.
  revert s. induction l as [|x l IH]; intros s Hb Hs Hrun; simpl in Hrun.
  - inversion Hrun; subst; exact Hs.
  - destruct (body s x) as [s'|e] eqn:E; simpl in Hrun; [|discriminate].
    apply (IH s'); auto.
    + intros s2 y s3 Hy. apply Hb. now right.
    + apply (Hb s x s'); auto. now left.
Qed.

Lemma for_each_total (g : S -> X -> S) (body : S -> X -> result S)
  (l : list X) (s : S) :
  (forall s x, In x l -> body s x = Ok (g s x)) ->
  for_each l body s = Ok (fold_left g l s).
Proof.
  revert s. induction l as [|x l IH]; intros s H; simpl; auto.
  rewrite H by now left. simpl. apply IH. intros s' y Hy. apply H. now right.
Qed.
End LoopFacts.

(** * causet_adj_matrix *)

Section CausetAdjMatrix.
Import MatrixUtils.

Lemma Qltb_lt (x y : Q) : Qltb x y = true <-> (x < y)%Q.
Proof.
  unfold Qltb. rewrite negb_true_iff. split.
  - intros H. apply Qnot_le_lt. intros Hle.
    apply Qle_bool_iff in Hle. congruence.
  - intros H. destruct (Qle_bool y x) eqn:E; auto.
    apply Qle_bool_iff in E. exfalso. exact (Qlt_not_le _ _ H E).
Qed.

Lemma Qltb_asym (x y : Q) : Qltb x y = true -> Qltb y x = true -> False.
Proof.
  rewrite !Qltb_lt. intros H1 H2.
  exact (Qlt_irrefl x (Qlt_trans _ _ _ H1 H2)).
Qed.

Lemma get_checked_get (T : Type) (d : T) (M : matrix T) (i j : nat) (v : T) :
  get_checked M i j = Ok v -> get d M i j = v.
Proof.
  unfold get_checked, get. intros H.
  destruct (nth_error M i) as [r|] eqn:Er; [|discriminate].
  destruct (nth_error r j) as [w|] eqn:Ew; [|discriminate].
  inversion H; subst w.
  rewrite (nth_error_nth _ _ _ Er). now apply nth_error_nth.
Qed.

Lemma get_checked_in_range (T : Type) (d : T) (M : matrix T) (i j : nat) :
  (i < length M)%nat -> (j < length (nth i M []))%nat ->
  get_checked M i j = Ok (get d M i j).
Proof.
  intros Hi Hj. unfold get_checked, get.
  rewrite (nth_error_nth' M [] Hi). now rewrite (nth_error_nth' _ d Hj).
Qed.

Lemma causet_inv_zeros (N : nat) (R : matrix Q) : causet_inv N R (zeros N N).
Proof.
  split; [apply shape_tabulate|].
  intros a b Ha Hb. left. unfold zeros. now rewrite get_tabulate.
Qed.

Lemma causet_inv_run (S R : matrix Q) (A : matrix Z) :
  causet_adj_matrix S R = Ok A -> causet_inv (nrows S) R A.
Proof.
  unfold causet_adj_matrix. set (N := nrows S). intros Hrun.
  eapply for_each_invariant with (P := causet_inv N R);
    [| apply causet_inv_zeros | exact Hrun].
  intros A0 i A3 Hi HA0 Hrow.
  eapply for_each_invariant with (P := causet_inv N R);
    [| exact HA0 | exact Hrow].
  intros A1 j A2 Hj HA1 Hbody. apply in_seq in Hi, Hj.
  destruct (get_checked R i 0) as [ri|] eqn:Eri; simpl in Hbody; [|discriminate].
  destruct (get_checked R j 0) as [rj|] eqn:Erj; simpl in Hbody; [|discriminate].
  apply get_checked_get with (d := 0%Q) in Eri, Erj.
  destruct (Qltb rj ri) eqn:Elt; [|now inversion Hbody; subst].
  destruct (get_checked S i j) as [s|]; simpl in Hbody; [|discriminate].
  destruct (Qltb s 0%Q); inversion Hbody; subst A2; auto.
  destruct HA1 as [Hsh Hcells]. split; [now apply shape_set|].
  intros a b Ha Hb. rewrite (get_set 0 (n := N) (m := N)) by (auto; lia).
  destruct ((a =? i)%nat && (b =? j)%nat) eqn:E; auto.
  apply andb_true_iff in E. destruct E as [Ea Eb].
  apply Nat.eqb_eq in Ea, Eb. subst a b. right. split; auto.
  now rewrite Eri, Erj.
Qed.
End CausetAdjMatrix.

Section CausetAdjMatrixClosedForm.
Import MatrixUtils.

Lemma existsb_eqb_seq (b s n : nat) :
  existsb (Nat.eqb b) (seq s n) = (s <=? b)%nat && (b <? s + n)%nat.
Proof.
  revert s. induction n as [|n IH]; intros s; simpl.
  - destruct (Nat.leb_spec s b), (Nat.ltb_spec b (s + 0)); auto; lia.
  - rewrite IH.
    destruct (Nat.eqb_spec b s), (Nat.leb_spec s b), (Nat.leb_spec (S s) b),
      (Nat.ltb_spec b (S s + n)), (Nat.ltb_spec b (s + S n)); simpl; auto; lia.
Qed.

(** A row of conditional writes of the constant 1. *)
Lemma row_of_writes (N i : nat) (c : nat -> bool) (l : list nat) (A : matrix Z) :
  (i < N)%nat -> (forall j, In j l -> (j < N)%nat) -> shape N N A ->
  let A' := fold_left (fun A j => if c j then set A i j 1 else A) l A in
  shape N N A' /\
  forall a b, (a < N)%nat -> (b < N)%nat ->
    get 0 A' a b =
    if (a =? i)%nat && existsb (Nat.eqb b) l && c b then 1 else get 0 A a b.
Proof.
  intros Hi. revert A. induction l as [|j l IH]; intros A Hl HA; simpl.
  - split; auto. intros a b _ _. now rewrite andb_false_r.
  - assert (Hj : (j < N)%nat) by (apply Hl; now left).
    assert (HA1 : shape N N (if c j then set A i j 1 else A))
      by (destruct (c j); auto using shape_set).
    destruct (IH _ (fun x Hx => Hl x (or_intror Hx)) HA1) as [Hsh Hget].
    split; auto. intros a b Ha Hb. rewrite (Hget a b Ha Hb).
    assert (Hstep : get 0 (if c j then set A i j 1 else A) a b =
              if (a =? i)%nat && (b =? j)%nat && c j then 1 else get 0 A a b).
    { destruct (c j); [|now rewrite andb_false_r].
      rewrite (get_set 0 (n := N) (m := N)) by auto. now rewrite andb_true_r. }
    rewrite Hstep.
    destruct (Nat.eqb_spec a i) as [->|Hai]; simpl; auto.
    destruct (Nat.eqb_spec b j) as [->|Hbj]; simpl; auto.
    destruct (c j), (existsb (Nat.eqb j) l); reflexivity.
Qed.

Lemma rows_of_writes (N : nat) (c : nat -> nat -> bool) (l : list nat)
  (A : matrix Z) :
  (forall i, In i l -> (i < N)%nat) -> shape N N A ->
  let A' :=
    fold_left (fun A i =>
      fold_left (fun A j => if c i j then set A i j 1 else A) (seq 0 N) A) l A in
  shape N N A' /\
  forall a b, (a < N)%nat -> (b < N)%nat ->
    get 0 A' a b = if existsb (Nat.eqb a) l && c a b then 1 else get 0 A a b.
Proof.
  revert A. induction l as [|i l IH]; intros A Hl HA; simpl.
  - split; auto.
  - assert (Hi : (i < N)%nat) by (apply Hl; now left).
    destruct (@row_of_writes N i (c i) (seq 0 N) A Hi) as [Hsh1 Hget1]; auto.
    { intros j Hj. apply in_seq in Hj. lia. }
    destruct (IH _ (fun x Hx => Hl x (or_intror Hx)) Hsh1) as [Hsh Hget].
    split; auto. intros a b Ha Hb.
    rewrite (Hget a b Ha Hb), (Hget1 a b Ha Hb).
    rewrite existsb_eqb_seq. simpl.
    destruct (Nat.ltb_spec b N); [|lia]. rewrite andb_true_r.
    destruct (Nat.eqb_spec a i) as [->|Hai]; simpl.
    + destruct (c i b); [|now rewrite andb_false_r].
      now destruct (existsb (Nat.eqb i) l).
    + reflexivity.
Qed.
End CausetAdjMatrixClosedForm.

Section CausetAdjMatrixTheorems.
Import MatrixUtils.

Lemma causet_adj_matrix_total (S R : matrix Q) :
  (forall i, (i < nrows S)%nat -> (nrows S <= length (nth i S []))%nat) ->
  (nrows S <= nrows R)%nat ->
  (forall i, (i < nrows S)%nat -> (1 <= length (nth i R []))%nat) ->
  causet_adj_matrix S R = Ok (causet_closed_form S R).
Proof.
  intros HS HR HR0. unfold causet_adj_matrix. set (N := nrows S) in *.
  set (c := fun i j =>
    Qltb (get 0%Q R j 0) (get 0%Q R i 0) && Qltb (get 0%Q S i j) 0%Q).
  rewrite for_each_total with
    (g := fun A i => fold_left (fun A j => if c i j then set A i j 1 else A)
                       (seq 0 N) A).
  - f_equal.
    destruct (@rows_of_writes N c (seq 0 N) (zeros N N)) as [Hsh Hget].
    + intros i Hi. apply in_seq in Hi. lia.
    + apply shape_tabulate.
    + apply shape_ext with (d := 0) (n := N) (m := N); auto.
      { apply shape_tabulate. }
      intros i j Hi Hj. rewrite (Hget i j Hi Hj).
      unfold causet_closed_form. fold N. rewrite get_tabulate by auto.
      rewrite existsb_eqb_seq. simpl.
      destruct (Nat.ltb_spec i N); [|lia]. simpl. fold (c i j).
      destruct (c i j); auto. unfold zeros. now rewrite get_tabulate.
  - intros A i Hi. apply in_seq in Hi. apply for_each_total.
    intros A' j Hj. apply in_seq in Hj.
    rewrite (get_checked_in_range 0%Q R) by (unfold nrows in *; try apply HR0; lia).
    rewrite (get_checked_in_range 0%Q R) by (unfold nrows in *; try apply HR0; lia).
    simpl. unfold c.
    destruct (Qltb (get 0%Q R j 0) (get 0%Q R i 0)); simpl; auto.
    rewrite (get_checked_in_range 0%Q S).
    + simpl. now destruct (Qltb (get 0%Q S i j) 0%Q).
    + unfold nrows in *. lia.
    + specialize (HS i). unfold nrows in *. lia.
Qed.
End CausetAdjMatrixTheorems.

(** C10: whatever [S] and [R] are, the matrix [causet_adj_matrix] returns
    is [N]x[N] with a zero diagonal and never has 1 at both [A[i,j]] and
    [A[j,i]]: a 1 is only written under [R[i,0] > R[j,0]]. *)
Theorem causet_adj_matrix_strict_antisymmetric (S R : matrix Q) (A : matrix Z) :
  MatrixUtils.causet_adj_matrix S R = Ok A ->
  shape (nrows S) (nrows S) A /\
  (forall i, (i < nrows S)%nat -> get 0 A i i = 0) /\
  (forall i j, (i < nrows S)%nat -> (j < nrows S)%nat ->
     ~ (get 0 A i j = 1 /\ get 0 A j i = 1)).
Proof.
  intros Hrun. destruct (causet_inv_run _ _ Hrun) as [Hsh Hcells].
  split; [exact Hsh|]. split.
  - intros i Hi. destruct (Hcells i i Hi Hi) as [H0|[_ Hlt]]; auto.
    exfalso. exact (Qltb_asym _ _ Hlt Hlt).
  - intros i j Hi Hj [Hij Hji].
    destruct (Hcells i j Hi Hj) as [H0|[_ H1]]; [lia|].
    destruct (Hcells j i Hj Hi) as [H0|[_ H2]]; [lia|].
    exact (Qltb_asym _ _ H1 H2).
Qed.

(** A run on separations that are negative in both directions (an
    inconsistent [S]): only the later node gets the edge. *)
Lemma causet_adj_matrix_strict_antisymmetric_witness :
  let S := [[0; -1]; [-1; 0]]%Q in
  let R := [[0]; [1]]%Q in
  let A := [[0; 0]; [1; 0]] in
  MatrixUtils.causet_adj_matrix S R = Ok A /\
  shape 2 2 A /\
  (forall i, (i < 2)%nat -> get 0 A i i = 0) /\
  (forall i j, (i < 2)%nat -> (j < 2)%nat ->
     ~ (get 0 A i j = 1 /\ get 0 A j i = 1)).
Proof.
  intros S R A. split; [reflexivity|].
  apply (@causet_adj_matrix_strict_antisymmetric S R A). reflexivity.
Defined.

(** C9, refuted: [causet_adj_matrix] accepts a 2x3 separation matrix
    together with three rows of coordinates, and [longest_path_matrix]
    accepts a 2x3 zero matrix; both return a 2x2 result. *)
Lemma shape_mismatch_accepted :
  let S := [[0; -1; 5]; [-1; 0; 7]]%Q in
  let R := [[0]; [1]; [2]]%Q in
  nrows S <> ncols S /\ nrows R <> nrows S /\
  MatrixUtils.causet_adj_matrix S R = Ok [[0; 0]; [1; 0]] /\
  MatrixUtils.longest_path_matrix 1 [[0; 0; 0]; [0; 0; 0]] None
    = Some [[0; 0]; [0; 0]].
Proof.
  cbn zeta. repeat split; try (simpl; lia); reflexivity.
Qed.

(** C9, amended: [causet_adj_matrix] takes [N] from the rows of [S] and
    reads [S[i,j]] and [R[i,0]] for [i, j < N] only.  When those entries
    exist (rows of [S] of length at least [N], at least [N] rows in [R],
    each with a first entry) it returns the [N]x[N] matrix of the two
    comparisons, whether or not [S] is square and [R] has [N] rows. *)
Theorem causet_adj_matrix_unvalidated (S R : matrix Q) :
  (forall i, (i < nrows S)%nat -> (nrows S <= length (nth i S []))%nat) ->
  (nrows S <= nrows R)%nat ->
  (forall i, (i < nrows S)%nat -> (1 <= length (nth i R []))%nat) ->
  exists A,
    MatrixUtils.causet_adj_matrix S R = Ok A /\
    shape (nrows S) (nrows S) A /\
    forall i j, (i < nrows S)%nat -> (j < nrows S)%nat ->
      get 0 A i j =
      if MatrixUtils.Qltb (get 0%Q R j 0) (get 0%Q R i 0)
         && MatrixUtils.Qltb (get 0%Q S i j) 0%Q
      then 1 else 0.
Proof.
  intros HS HR HR0. exists (causet_closed_form S R).
  split; [now apply causet_adj_matrix_total|].
  split; [apply shape_tabulate|].
  intros i j Hi Hj. unfold causet_closed_form. now rewrite get_tabulate.
Qed.

Lemma causet_adj_matrix_unvalidated_witness :
  let S := [[0; -1; 5]; [-1; 0; 7]]%Q in
  let R := [[0]; [1]; [2]]%Q in
  exists A,
    MatrixUtils.causet_adj_matrix S R = Ok A /\
    shape 2 2 A /\
    forall i j, (i < 2)%nat -> (j < 2)%nat ->
      get 0 A i j =
      if MatrixUtils.Qltb (get 0%Q R j 0) (get 0%Q R i 0)
         && MatrixUtils.Qltb (get 0%Q S i j) 0%Q
      then 1 else 0.
Proof.
  intros S R. apply (@causet_adj_matrix_unvalidated S R).
  - intros i Hi. simpl in Hi. destruct i as [|[|i]]; simpl; lia.
  - simpl. lia.
  - intros i Hi. simpl in Hi. destruct i as [|[|i]]; simpl; lia.
Defined.

(** C1, refuted: on [[0,0],[1,0]] neither [longest_path_matrix] returns a
    matrix with [LP[0,1] = 1]. *)
Lemma longest_path_two_nodes_not_transposed :
  ~ (exists fuel LP,
       (MatrixUtils.longest_path_matrix fuel [[0; 0]; [1; 0]] None = Some LP \/
        Dagsep.longest_path_matrix fuel [[0; 0]; [1; 0]] None = Some LP) /\
       get 0 LP 0%nat 1%nat = 1).
Proof.
  intros [fuel [LP [[H|H] Hget]]].
  - destruct fuel as [|fuel]; [discriminate|].
    vm_compute in H. inversion H; subst LP. discriminate.
  - destruct fuel as [|[|fuel]]; try discriminate.
    vm_compute in H. inversion H; subst LP. discriminate.
Qed.

(** C1, amended: on [[0,0],[1,0]] both [longest_path_matrix] return the
    input itself: [LP[1,0] = 1] and the other three entries are 0. *)
Theorem longest_path_two_nodes (fuel : nat) :
  MatrixUtils.longest_path_matrix (2 + fuel) [[0; 0]; [1; 0]] None
    = Some [[0; 0]; [1; 0]] /\
  Dagsep.longest_path_matrix (2 + fuel) [[0; 0]; [1; 0]] None
    = Some [[0; 0]; [1; 0]].
Proof.
  split; reflexivity.
Qed.

(** * The pair loop of the separation estimators *)

Section PairLoop.
Variable T : Type.
Variable d : T.
Variable test : T -> bool.
Variable v : nat -> nat -> T.
Variable N : nat.

Lemma shape_pair_step (s : matrix T) (i j : nat) :
  shape N N s -> shape N N (pair_step d test v s i j).
Proof.
  intros Hs. unfold pair_step. destruct (test _); auto using shape_set.
Qed.

Lemma get_pair_step (s : matrix T) (i j a b : nat) :
  shape N N s -> (i < N)%nat -> (j < N)%nat -> i <> j ->
  get d (pair_step d test v s i j) a b =
  if (a =? i)%nat && (b =? j)%nat then lower_cell d test v s a b
  else if (a =? j)%nat && (b =? i)%nat then upper_cell d test v s a b
  else get d s a b.
Proof.
  intros Hs Hi Hj Hij. unfold pair_step, lower_cell, upper_cell.
  destruct (Nat.eqb_spec a i) as [->|Hai]; simpl.
  - destruct (Nat.eqb_spec b j) as [->|Hbj]; simpl.
    + destruct (test (get d s i j)); auto.
      rewrite (get_set d (n := N) (m := N)) by auto using shape_set.
      rewrite (get_set d (n := N) (m := N)) by auto.
      split_tests.
    + destruct (Nat.eqb_spec i j); [contradiction|]. simpl.
      destruct (test (get d s i j)); auto.
      rewrite (get_set d (n := N) (m := N)) by auto using shape_set.
      rewrite (get_set d (n := N) (m := N)) by auto.
      split_tests.
  - destruct (Nat.eqb_spec a j) as [->|Haj]; simpl.
    + destruct (Nat.eqb_spec b i) as [->|Hbi]; simpl.
      * destruct (test (get d s i j)); auto.
        rewrite (get_set d (n := N) (m := N)) by auto using shape_set.
        split_tests.
      * destruct (test (get d s i j)); auto.
        rewrite (get_set d (n := N) (m := N)) by auto using shape_set.
        rewrite (get_set d (n := N) (m := N)) by auto.
        split_tests.
    + destruct (test (get d s i j)); auto.
      rewrite (get_set d (n := N) (m := N)) by auto using shape_set.
      rewrite (get_set d (n := N) (m := N)) by auto.
      split_tests.
Qed.

Lemma pair_row (s : matrix T) (i m : nat) :
  shape N N s -> (i < N)%nat -> (m <= i)%nat ->
  let s' := fold_left (fun ds2 j => pair_step d test v ds2 i j) (seq 0 m) s in
  shape N N s' /\
  forall a b, (a < N)%nat -> (b < N)%nat ->
    get d s' a b =
    if (a =? i)%nat && (b <? m)%nat then lower_cell d test v s a b
    else if (b =? i)%nat && (a <? m)%nat then upper_cell d test v s a b
    else get d s a b.
Proof.
  intros Hs Hi. induction m as [|m IH]; intros Hm; cbv zeta.
  - split; auto. intros a b _ _. simpl. now rewrite !andb_false_r.
  - destruct (IH ltac:(lia)) as [Hsh Hget]. rewrite seq_S, fold_left_app. simpl.
    split; [now apply shape_pair_step|].
    intros a b Ha Hb. rewrite get_pair_step by (auto; lia).
    unfold lower_cell, upper_cell. rewrite !Hget by (auto; lia).
    split_tests.
Qed.

Lemma pair_rows (bound : nat -> nat) (s : matrix T) (n : nat) :
  (forall i, (bound i <= i)%nat) -> shape N N s -> (n <= N)%nat ->
  shape N N (pair_loop d test v bound n s) /\
  forall a b, (a < N)%nat -> (b < N)%nat ->
    get d (pair_loop d test v bound n s) a b =
    if (b <? bound a)%nat && (a <? n)%nat then lower_cell d test v s a b
    else if (a <? bound b)%nat && (b <? n)%nat then upper_cell d test v s a b
    else get d s a b.
Proof.
  intros Hbound Hs. unfold pair_loop. induction n as [|n IH]; intros Hn.
  - split; auto. intros a b _ _. simpl. now rewrite !andb_false_r.
  - destruct (IH ltac:(lia)) as [Hsh Hget]. rewrite seq_S, fold_left_app. simpl.
    destruct (@pair_row _ n (bound n) Hsh ltac:(lia) (Hbound n)) as [Hsh' Hget'].
    split; [exact Hsh'|].
    intros a b Ha Hb. rewrite Hget' by auto.
    unfold lower_cell, upper_cell. rewrite !Hget by (auto; lia).
    pose proof (Hbound a). pose proof (Hbound b). pose proof (Hbound n).
    split_tests.
    all: repeat match goal with H : _ = _ |- _ => subst end; try lia.
Qed.

(** [for j in range(N): if i > j: ...] visits the columns below [i]. *)
Lemma guarded_row (f : matrix T -> nat -> matrix T) (s : matrix T) (i : nat) :
  (i <= N)%nat ->
  fold_left (fun ds2 j => if (j <? i)%nat then f ds2 j else ds2) (seq 0 N) s =
  fold_left f (seq 0 i) s.
Proof.
  intros Hi. replace N with (i + (N - i))%nat at 1 by lia.
  rewrite seq_app, fold_left_app. simpl.
  rewrite fold_left_id.
  - apply fold_left_ext_in. intros s' j Hj. apply in_seq in Hj.
    destruct (Nat.ltb_spec j i); auto; lia.
  - intros s' j Hj. apply in_seq in Hj.
    destruct (Nat.ltb_spec j i); auto; lia.
Qed.

Lemma guarded_rows (f : matrix T -> nat -> nat -> matrix T) (s : matrix T) :
  fold_left (fun ds2 i =>
    fold_left (fun ds2 j => if (j <? i)%nat then f ds2 i j else ds2)
      (seq 0 N) ds2) (seq 0 N) s =
  fold_left (fun ds2 i => fold_left (fun ds2 j => f ds2 i j) (seq 0 i) ds2)
    (seq 0 N) s.
Proof.
  apply fold_left_ext_in. intros s' i Hi. apply in_seq in Hi.
  apply (@guarded_row (fun ds2 j => f ds2 i j)). lia.
Qed.
End PairLoop.

(** * The separation estimators *)

Section Estimators.
Variable LP : matrix Z.
Variable N : nat.
Hypothesis LP_square : shape N N LP.

Lemma shape_transpose : shape N N (transpose 0 LP).
Proof.
  unfold transpose. rewrite (nrows_shape LP_square).
  destruct N as [|n] eqn:E.
  - destruct LP_square as [Hl _]. destruct LP; [|discriminate].
    simpl. split; auto.
  - rewrite (ncols_shape LP_square) by lia. apply shape_tabulate.
Qed.

Lemma get_transpose (a b : nat) :
  (a < N)%nat -> (b < N)%nat -> get 0 (transpose 0 LP) a b = get 0 LP b a.
Proof.
  intros Ha Hb. unfold transpose.
  rewrite (nrows_shape LP_square), (ncols_shape LP_square) by lia.
  now rewrite get_tabulate.
Qed.

Lemma shape_initial_ds2 : shape N N (initial_ds2 LP).
Proof.
  unfold initial_ds2, scale, mul, add.
  apply shape_map_matrix.
  apply shape_map2_matrix; apply shape_map2_matrix;
    auto using shape_transpose.
Qed.

Lemma get_initial_ds2 (a b : nat) :
  (a < N)%nat -> (b < N)%nat ->
  get 0 (initial_ds2 LP) a b =
  -1 * ((get 0 LP a b + get 0 LP b a) * (get 0 LP a b + get 0 LP b a)).
Proof.
  intros Ha Hb. unfold initial_ds2, scale, mul, add.
  assert (Hds : shape N N (map2_matrix Z.add LP (transpose 0 LP)))
    by (apply shape_map2_matrix; auto using shape_transpose).
  rewrite (get_map_matrix (Z.mul (-1)) 0 0 (n := N) (m := N))
    by (auto using shape_map2_matrix).
  rewrite (get_map2_matrix Z.mul 0 0 0 (n := N) (m := N)) by auto.
  rewrite (get_map2_matrix Z.add 0 0 0 (n := N) (m := N))
    by auto using shape_transpose.
  now rewrite get_transpose.
Qed.

Lemma landmark_bound_le (k : option Z) (i : nat) : (landmark_bound k i <= i)%nat.
Proof.
  unfold landmark_bound. destruct (truthy k); [destruct k|]; lia.
Qed.

Lemma landmark_bound_none (i : nat) : landmark_bound None i = i.
Proof. unfold landmark_bound. simpl. lia. Qed.

Lemma landmark_bound_large (kv : Z) (i : nat) :
  (i < N)%nat -> Z.of_nat N <= kv -> landmark_bound (Some kv) i = i.
Proof.
  intros Hi Hk. unfold landmark_bound, truthy.
  destruct (Z.eqb_spec kv 0); simpl; lia.
Qed.

(** The three estimators as instances of the generic pair loop. *)
Lemma matrix_utils_naive_unfold (dmax k : option Z) :
  MatrixUtils.naive_spacelike_matrix LP dmax k =
  (dv <- effective_dmax LP dmax ;;
   Ok (pair_loop 0 is_zero (naive_value LP dv) (landmark_bound k) N
         (initial_ds2 LP))).
Proof.
  unfold MatrixUtils.naive_spacelike_matrix. rewrite (nrows_shape LP_square).
  reflexivity.
Qed.

Lemma dagsep_naive_unfold (dmax : option Z) :
  Dagsep.naive_spacelike_matrix LP dmax =
  (dv <- effective_dmax LP dmax ;;
   Ok (pair_loop 0 is_zero (naive_value LP dv) (fun i => i) N
         (initial_ds2 LP))).
Proof.
  unfold Dagsep.naive_spacelike_matrix. rewrite (nrows_shape LP_square).
  unfold effective_dmax.
  destruct (match dmax with None => Np.max LP | Some v => Ok v end) as [dv|e];
    simpl; auto.
  f_equal. apply guarded_rows.
Qed.

Lemma dagsep_twolink_unfold (dmax : option Z) :
  Dagsep.twolink_spacelike_matrix LP dmax =
  (dv <- effective_dmax LP dmax ;;
   Ok (pair_loop 0%Q is_zeroQ (twolink_value LP dv) (fun i => i) N
         (map_matrix inject_Z (initial_ds2 LP)))).
Proof.
  unfold Dagsep.twolink_spacelike_matrix. rewrite (nrows_shape LP_square).
  unfold effective_dmax.
  destruct (match dmax with None => Np.max LP | Some v => Ok v end) as [dv|e];
    simpl; auto.
  f_equal. apply guarded_rows.
Qed.

Lemma max_nonempty : (0 < N)%nat -> exists m, Np.max LP = Ok m.
Proof.
  intros HN. unfold Np.max. destruct LP_square as [Hl Hr].
  destruct LP as [|r M]; simpl in *; [lia|].
  inversion Hr; subst. destruct r as [|x r]; simpl in *; [lia|].
  eauto.
Qed.

Lemma effective_dmax_total (dmax : option Z) :
  (0 < N)%nat \/ dmax <> None -> exists dv, effective_dmax LP dmax = Ok dv.
Proof.
  intros [HN|Hd]; destruct dmax as [v|]; simpl; eauto.
  - now apply max_nonempty.
  - contradiction.
Qed.
End Estimators.

Section PairLoopSymmetry.
Variable T : Type.
Variables d zero : T.
Variable test : T -> bool.
Variable v : nat -> nat -> T.
Variable N : nat.
Variable bound : nat -> nat.
Hypothesis bound_le : forall i, (bound i <= i)%nat.

Lemma pair_loop_symmetric (s : matrix T) :
  symmetric_zero_diagonal d zero N s ->
  symmetric_zero_diagonal d zero N (pair_loop d test v bound N s).
Proof.
  intros [Hsh [Hdiag Hsym]].
  destruct (@pair_rows T d test v N bound s N bound_le Hsh (le_n N))
    as [Hsh' Hget].
  split; [exact Hsh'|]. split.
  - intros i Hi. rewrite Hget by auto. pose proof (bound_le i).
    split_tests.
  - intros i j Hi Hj. rewrite !Hget by auto.
    pose proof (bound_le i). pose proof (bound_le j).
    unfold lower_cell, upper_cell. rewrite (Hsym j i Hj Hi).
    split_tests.
Qed.
End PairLoopSymmetry.

Section EstimatorSymmetry.
Variable LP : matrix Z.
Variable N : nat.
Hypothesis LP_square : shape N N LP.
Hypothesis LP_diagonal : forall i, (i < N)%nat -> get 0 LP i i = 0.

Lemma initial_ds2_symmetric : symmetric_zero_diagonal 0 0 N (initial_ds2 LP).
Proof.
  split; [now apply shape_initial_ds2|]. split.
  - intros i Hi. rewrite (get_initial_ds2 LP_square) by auto.
    rewrite LP_diagonal by auto. reflexivity.
  - intros i j Hi Hj. rewrite !(get_initial_ds2 LP_square) by auto. ring.
Qed.

Lemma initial_ds2_symmetricQ :
  symmetric_zero_diagonal 0%Q 0%Q N (map_matrix inject_Z (initial_ds2 LP)).
Proof.
  destruct initial_ds2_symmetric as [Hsh [Hdiag Hsym]].
  split; [now apply shape_map_matrix|]. split.
  - intros i Hi.
    rewrite (get_map_matrix inject_Z 0 0%Q (n := N) (m := N)) by auto.
    now rewrite Hdiag.
  - intros i j Hi Hj.
    rewrite !(get_map_matrix inject_Z 0 0%Q (n := N) (m := N)) by auto.
    now rewrite Hsym.
Qed.
End EstimatorSymmetry.

(** C3: for a square [LP] with a zero diagonal, whatever matrix
    [naive_spacelike_matrix] (of either file, with any landmark count) or
    [twolink_spacelike_matrix] returns has a zero diagonal and is
    symmetric; and each of them does return a matrix as soon as [dmax] is
    given or [LP] has an entry to take the maximum of. *)
Theorem separation_symmetric_zero_diagonal
  (LP : matrix Z) (N : nat) (dmax k : option Z) :
  shape N N LP ->
  (forall i, (i < N)%nat -> get 0 LP i i = 0) ->
  (forall DS2, Dagsep.naive_spacelike_matrix LP dmax = Ok DS2 ->
     symmetric_zero_diagonal 0 0 N DS2) /\
  (forall DS2, MatrixUtils.naive_spacelike_matrix LP dmax k = Ok DS2 ->
     symmetric_zero_diagonal 0 0 N DS2) /\
  (forall DS2, Dagsep.twolink_spacelike_matrix LP dmax = Ok DS2 ->
     symmetric_zero_diagonal 0%Q 0%Q N DS2) /\
  ((0 < N)%nat \/ dmax <> None ->
   (exists DS2, Dagsep.naive_spacelike_matrix LP dmax = Ok DS2) /\
   (exists DS2, MatrixUtils.naive_spacelike_matrix LP dmax k = Ok DS2) /\
   (exists DS2, Dagsep.twolink_spacelike_matrix LP dmax = Ok DS2)).
Proof.
  intros Hsh Hdiag.
  rewrite (dagsep_naive_unfold Hsh), (matrix_utils_naive_unfold Hsh),
    (dagsep_twolink_unfold Hsh).
  split; [|split; [|split; [|intros H; split; [|split]]]].
  - intros DS2 H. destruct (effective_dmax LP dmax); [|discriminate].
    inversion H; subst DS2.
    apply pair_loop_symmetric; [lia | now apply initial_ds2_symmetric].
  - intros DS2 H. destruct (effective_dmax LP dmax); [|discriminate].
    inversion H; subst DS2.
    apply pair_loop_symmetric;
      [apply landmark_bound_le | now apply initial_ds2_symmetric].
  - intros DS2 H. destruct (effective_dmax LP dmax); [|discriminate].
    inversion H; subst DS2.
    apply pair_loop_symmetric; [lia | now apply initial_ds2_symmetricQ].
  - destruct (effective_dmax_total Hsh H) as [dv ->]. simpl. eauto.
  - destruct (effective_dmax_total Hsh H) as [dv ->]. simpl. eauto.
  - destruct (effective_dmax_total Hsh H) as [dv ->]. simpl. eauto.
Qed.

(** The diamond, with the landmark count 2. *)
Lemma separation_symmetric_zero_diagonal_witness :
  (forall DS2, Dagsep.naive_spacelike_matrix diamond_LP None = Ok DS2 ->
     symmetric_zero_diagonal 0 0 4 DS2) /\
  (forall DS2, MatrixUtils.naive_spacelike_matrix diamond_LP None (Some 2) = Ok DS2 ->
     symmetric_zero_diagonal 0 0 4 DS2) /\
  (forall DS2, Dagsep.twolink_spacelike_matrix diamond_LP None = Ok DS2 ->
     symmetric_zero_diagonal 0%Q 0%Q 4 DS2) /\
  ((0 < 4)%nat \/ @None Z <> None ->
   (exists DS2, Dagsep.naive_spacelike_matrix diamond_LP None = Ok DS2) /\
   (exists DS2, MatrixUtils.naive_spacelike_matrix diamond_LP None (Some 2) = Ok DS2) /\
   (exists DS2, Dagsep.twolink_spacelike_matrix diamond_LP None = Ok DS2)).
Proof.
  apply (@separation_symmetric_zero_diagonal diamond_LP 4 None (Some 2)).
  - split; [reflexivity | repeat constructor].
  - intros i Hi. destruct i as [|[|[|[|i]]]]; try reflexivity. lia.
Defined.

(** C8: a landmark count [k >= N] changes nothing: the call returns what
    the call without [k] returns, and what dagsep's estimator returns. *)
Theorem landmark_count_at_least_size
  (LP : matrix Z) (N : nat) (dmax : option Z) (k : Z) :
  shape N N LP -> Z.of_nat N <= k ->
  MatrixUtils.naive_spacelike_matrix LP dmax (Some k)
    = MatrixUtils.naive_spacelike_matrix LP dmax None /\
  MatrixUtils.naive_spacelike_matrix LP dmax (Some k)
    = Dagsep.naive_spacelike_matrix LP dmax.
Proof.
  intros Hsh Hk.
  rewrite (dagsep_naive_unfold Hsh), !(matrix_utils_naive_unfold Hsh).
  assert (E : forall dv bound,
    (forall i, (i < N)%nat -> bound i = i) ->
    pair_loop 0 is_zero (naive_value LP dv) bound N (initial_ds2 LP) =
    pair_loop 0 is_zero (naive_value LP dv) (fun i => i) N (initial_ds2 LP)).
  { intros dv bound Hb. unfold pair_loop. apply fold_left_ext_in.
    intros s i Hi. apply in_seq in Hi. rewrite Hb by lia. reflexivity. }
  destruct (effective_dmax LP dmax) as [dv|e]; simpl; auto.
  rewrite (E dv (landmark_bound (Some k)))
    by (intros i Hi; now apply landmark_bound_large with (N := N)).
  rewrite (E dv (landmark_bound None)) by (intros; apply landmark_bound_none).
  auto.
Qed.

Lemma landmark_count_at_least_size_witness :
  MatrixUtils.naive_spacelike_matrix diamond_LP None (Some 4)
    = MatrixUtils.naive_spacelike_matrix diamond_LP None None /\
  MatrixUtils.naive_spacelike_matrix diamond_LP None (Some 4)
    = Dagsep.naive_spacelike_matrix diamond_LP None.
Proof.
  apply (@landmark_count_at_least_size diamond_LP 4 None 4).
  - split; [reflexivity | repeat constructor].
  - simpl. lia.
Defined.

Section Saturation.
Lemma intersect1d_nil_sym (a b : list nat) :
  intersect1d a b = [] -> intersect1d b a = [].
Proof.
  unfold intersect1d. intros H.
  destruct (filter (fun x => existsb (Nat.eqb x) a) b) as [|x l] eqn:E; auto.
  exfalso.
  assert (Hx : In x (filter (fun x => existsb (Nat.eqb x) a) b))
    by (rewrite E; now left).
  apply filter_In in Hx. destruct Hx as [Hxb Hxa].
  apply existsb_exists in Hxa. destruct Hxa as [y [Hya Hxy]].
  apply Nat.eqb_eq in Hxy. subst y.
  assert (Hin : In x (filter (fun x => existsb (Nat.eqb x) b) a)).
  { apply filter_In. split; auto. apply existsb_exists.
    exists x. split; auto. apply Nat.eqb_refl. }
  rewrite H in Hin. exact Hin.
Qed.

Lemma naive_sp_dist_saturated (LP : matrix Z) (dmax : Z) (i j : nat) :
  intersect1d (flatnonzero (col 0 LP i)) (flatnonzero (col 0 LP j)) = [] \/
  intersect1d (flatnonzero (row LP i)) (flatnonzero (row LP j)) = [] ->
  MatrixUtils.naive_sp_dist LP dmax i j = dmax.
Proof.
  unfold MatrixUtils.naive_sp_dist. intros [H|H]; rewrite H; simpl; auto.
  now rewrite andb_false_r.
Qed.

Lemma twolink_av_sp_dist_saturated (LP : matrix Z) (dmax : Z) (i j : nat) :
  intersect1d (where_eq (col 0 LP i) 1) (where_eq (col 0 LP j) 1) = [] ->
  Dagsep.twolink_av_sp_dist LP dmax i j = inject_Z dmax.
Proof.
  unfold Dagsep.twolink_av_sp_dist. intros H. rewrite H. reflexivity.
Qed.

Variable T : Type.
Variable d : T.
Variable test : T -> bool.
Variable v : nat -> nat -> T.
Variable N : nat.
Variable bound : nat -> nat.
Hypothesis bound_le : forall i, (bound i <= i)%nat.

Lemma pair_loop_written (s : matrix T) (a b : nat) :
  shape N N s -> (a < N)%nat -> (b < bound a)%nat ->
  test (get d s a b) = true ->
  get d (pair_loop d test v bound N s) a b = v a b /\
  get d (pair_loop d test v bound N s) b a = v a b.
Proof.
  intros Hsh Ha Hb Htest. pose proof (bound_le a). pose proof (bound_le b).
  destruct (@pair_rows T d test v N bound s N bound_le Hsh (le_n N))
    as [_ Hget].
  rewrite !Hget by lia. unfold lower_cell, upper_cell. rewrite Htest.
  split; split_tests.
Qed.
End Saturation.

(** Without a landmark count every pair is visited; with one, the pairs
    whose smaller index is below it. *)
Lemma visited_without_landmarks (i j : nat) : i <> j -> visited None i j.
Proof. unfold visited, landmark_bound. simpl. lia. Qed.

Lemma visited_below_landmarks (k : Z) (i j : nat) :
  i <> j -> Z.of_nat (Nat.min i j) < k -> visited (Some k) i j.
Proof.
  intros Hij Hk. unfold visited, landmark_bound, truthy.
  destruct (Z.eqb_spec k 0); simpl; lia.
Qed.

(** C6: for a pair with no path either way, an empty mutual past or mutual
    future (naive estimator, in each visited pair) or an empty two-link
    set (two-link estimator) makes the estimator return a matrix holding
    [dmax] squared at [DS2[i,j]] and at [DS2[j,i]], [dmax] being the
    argument or, without one, the largest entry of [LP]. *)
Theorem empty_boundary_saturates
  (LP : matrix Z) (N : nat) (dmax : option Z) (dv : Z) (i j : nat) :
  shape N N LP -> (i < N)%nat -> (j < N)%nat -> i <> j ->
  get 0 LP i j = 0 -> get 0 LP j i = 0 ->
  effective_dmax LP dmax = Ok dv ->
  (intersect1d (flatnonzero (col 0 LP i)) (flatnonzero (col 0 LP j)) = [] \/
   intersect1d (flatnonzero (row LP i)) (flatnonzero (row LP j)) = [] ->
   (exists DS2, Dagsep.naive_spacelike_matrix LP dmax = Ok DS2 /\
      get 0 DS2 i j = dv * dv /\ get 0 DS2 j i = dv * dv) /\
   (forall k, visited k i j ->
      exists DS2, MatrixUtils.naive_spacelike_matrix LP dmax k = Ok DS2 /\
        get 0 DS2 i j = dv * dv /\ get 0 DS2 j i = dv * dv)) /\
  (intersect1d (where_eq (col 0 LP i) 1) (where_eq (col 0 LP j) 1) = [] ->
   exists DS2, Dagsep.twolink_spacelike_matrix LP dmax = Ok DS2 /\
     get 0%Q DS2 i j = (inject_Z dv ^ 2)%Q /\
     get 0%Q DS2 j i = (inject_Z dv ^ 2)%Q).
Proof.
  intros Hsh Hi Hj Hij Hlp Hlp' Hd.
  rewrite (dagsep_naive_unfold Hsh), (dagsep_twolink_unfold Hsh), Hd. simpl.
  assert (Hzero : forall a b, (a = i /\ b = j) \/ (a = j /\ b = i) ->
            get 0 (initial_ds2 LP) a b = 0).
  { intros a b [[-> ->]|[-> ->]]; rewrite (get_initial_ds2 Hsh) by auto;
      rewrite Hlp, Hlp'; reflexivity. }
  assert (HzeroQ : forall a b, (a = i /\ b = j) \/ (a = j /\ b = i) ->
            is_zeroQ (get 0%Q (map_matrix inject_Z (initial_ds2 LP)) a b) = true).
  { intros a b Hab.
    assert (Hab' : (a < N)%nat /\ (b < N)%nat)
      by (destruct Hab as [[-> ->]|[-> ->]]; auto).
    rewrite (get_map_matrix inject_Z 0 0%Q (n := N) (m := N))
      by (try apply shape_initial_ds2; tauto).
    rewrite Hzero by auto. reflexivity. }
  split.
  - intros Hempty.
    assert (Hval : naive_value LP dv i j = dv * dv /\ naive_value LP dv j i = dv * dv).
    { unfold naive_value. split.
      - now rewrite naive_sp_dist_saturated.
      - rewrite naive_sp_dist_saturated; auto.
        destruct Hempty as [H|H]; [left|right]; now apply intersect1d_nil_sym. }
    destruct Hval as [Hv1 Hv2].
    assert (Hnaive : forall bound, (forall x, (bound x <= x)%nat) ->
      (Nat.min i j < bound (Nat.max i j))%nat ->
      get 0 (pair_loop 0 is_zero (naive_value LP dv) bound N (initial_ds2 LP)) i j
        = dv * dv /\
      get 0 (pair_loop 0 is_zero (naive_value LP dv) bound N (initial_ds2 LP)) j i
        = dv * dv).
    { intros bound Hb Hvis.
      destruct (Nat.lt_ge_cases j i) as [Hlt|Hge].
      - rewrite Nat.min_r, Nat.max_l in Hvis by lia.
        destruct (@pair_loop_written Z 0 is_zero (naive_value LP dv) N bound Hb
                    (initial_ds2 LP) i j) as [H1 H2];
          auto using shape_initial_ds2.
        { unfold is_zero. rewrite Hzero by auto. reflexivity. }
        rewrite H1, H2. auto.
      - rewrite Nat.min_l, Nat.max_r in Hvis by lia.
        destruct (@pair_loop_written Z 0 is_zero (naive_value LP dv) N bound Hb
                    (initial_ds2 LP) j i) as [H1 H2];
          auto using shape_initial_ds2.
        { unfold is_zero. rewrite Hzero by auto. reflexivity. }
        rewrite H1, H2. auto. }
    split.
    + eexists. split; [reflexivity|]. apply Hnaive; [lia|].
      destruct (Nat.lt_ge_cases j i); [rewrite Nat.min_r, Nat.max_l|
        rewrite Nat.min_l, Nat.max_r]; lia.
    + intros k Hvis. rewrite (matrix_utils_naive_unfold Hsh), Hd. simpl.
      eexists. split; [reflexivity|].
      apply Hnaive; [apply landmark_bound_le | exact Hvis].
  - intros Hempty.
    assert (Hv1 : twolink_value LP dv i j = (inject_Z dv ^ 2)%Q)
      by (unfold twolink_value; now rewrite twolink_av_sp_dist_saturated).
    assert (Hv2 : twolink_value LP dv j i = (inject_Z dv ^ 2)%Q)
      by (unfold twolink_value; rewrite twolink_av_sp_dist_saturated; auto;
          now apply intersect1d_nil_sym).
    eexists. split; [reflexivity|].
    destruct (Nat.lt_ge_cases j i) as [Hlt|Hge].
    + destruct (@pair_loop_written Q 0%Q is_zeroQ (twolink_value LP dv) N
                  (fun x => x) (fun x => le_n x)
                  (map_matrix inject_Z (initial_ds2 LP)) i j) as [H1 H2];
        auto using shape_map_matrix, shape_initial_ds2.
      rewrite H1, H2. auto.
    + destruct (@pair_loop_written Q 0%Q is_zeroQ (twolink_value LP dv) N
                  (fun x => x) (fun x => le_n x)
                  (map_matrix inject_Z (initial_ds2 LP)) j i) as [H1 H2];
        auto using shape_map_matrix, shape_initial_ds2; try lia.
      rewrite H1, H2. auto.
Qed.

(** The two successors of the fork have no common successor: with the
    default [dmax = 1] their separation is 1. *)
Lemma empty_boundary_saturates_witness :
  (intersect1d (flatnonzero (col 0 fork_LP 1)) (flatnonzero (col 0 fork_LP 2)) = [] \/
   intersect1d (flatnonzero (row fork_LP 1)) (flatnonzero (row fork_LP 2)) = [] ->
   (exists DS2, Dagsep.naive_spacelike_matrix fork_LP None = Ok DS2 /\
      get 0 DS2 1%nat 2%nat = 1 * 1 /\ get 0 DS2 2%nat 1%nat = 1 * 1) /\
   (forall k, visited k 1 2 ->
      exists DS2, MatrixUtils.naive_spacelike_matrix fork_LP None k = Ok DS2 /\
        get 0 DS2 1%nat 2%nat = 1 * 1 /\ get 0 DS2 2%nat 1%nat = 1 * 1)) /\
  (intersect1d (where_eq (col 0 fork_LP 1) 1) (where_eq (col 0 fork_LP 2) 1) = [] ->
   exists DS2, Dagsep.twolink_spacelike_matrix fork_LP None = Ok DS2 /\
     get 0%Q DS2 1%nat 2%nat = (inject_Z 1 ^ 2)%Q /\
     get 0%Q DS2 2%nat 1%nat = (inject_Z 1 ^ 2)%Q).
Proof.
  apply (@empty_boundary_saturates fork_LP 3 None 1 1 2).
  - split; [reflexivity | repeat constructor].
  - lia.
  - lia.
  - discriminate.
  - reflexivity.
  - reflexivity.
  - reflexivity.
Defined.

(** * Sums and products *)

Section SumFacts.
Lemma sum_upto_ext (n : nat) (f g : nat -> Z) :
  (forall k, (k < n)%nat -> f k = g k) -> sum_upto n f = sum_upto n g.
Proof.
  induction n as [|n IH]; intros H; simpl; auto.
  rewrite IH, H by (auto; intros; apply H; lia). reflexivity.
Qed.

Lemma sum_upto_zero (n : nat) (f : nat -> Z) :
  (forall k, (k < n)%nat -> f k = 0) -> sum_upto n f = 0.
Proof.
  induction n as [|n IH]; intros H; simpl; auto.
  rewrite IH, H by (auto; intros; apply H; lia). reflexivity.
Qed.

Lemma sum_upto_nonneg (n : nat) (f : nat -> Z) :
  (forall k, (k < n)%nat -> 0 <= f k) -> 0 <= sum_upto n f.
Proof.
  induction n as [|n IH]; intros H; simpl; [lia|].
  assert (0 <= sum_upto n f) by (apply IH; intros; apply H; lia).
  assert (0 <= f n) by (apply H; lia). lia.
Qed.

Lemma sum_upto_single (n c : nat) (f : nat -> Z) :
  (c < n)%nat -> (forall k, (k < n)%nat -> k <> c -> f k = 0) ->
  sum_upto n f = f c.
Proof.
  induction n as [|n IH]; intros Hc H; [lia|]. simpl.
  destruct (Nat.eq_dec c n) as [->|Hne].
  - rewrite sum_upto_zero; [lia|]. intros k Hk. apply H; lia.
  - rewrite IH, (H n) by (try lia; intros; apply H; lia). lia.
Qed.

(** A sum of non-negative terms is positive exactly when a term is. *)
Lemma sum_upto_pos (n : nat) (f : nat -> Z) :
  (forall k, (k < n)%nat -> 0 <= f k) ->
  (0 < sum_upto n f <-> exists k, (k < n)%nat /\ 0 < f k).
Proof.
  induction n as [|n IH]; intros H; simpl.
  - split; [lia | intros [k [Hk _]]; lia].
  - assert (Hn : 0 <= f n) by (apply H; lia).
    assert (Hs : 0 <= sum_upto n f) by (apply sum_upto_nonneg; intros; apply H; lia).
    destruct (IH ltac:(intros; apply H; lia)) as [IH1 IH2].
    split.
    + intros Hpos. destruct (Z.eq_dec (f n) 0) as [E|E].
      * destruct (IH1 ltac:(lia)) as [k [Hk Hfk]]. exists k. split; auto.
      * exists n. split; [lia|lia].
    + intros [k [Hk Hfk]]. destruct (Nat.eq_dec k n) as [->|Hne]; [lia|].
      assert (0 < sum_upto n f) by (apply IH2; exists k; split; [lia|auto]).
      lia.
Qed.

Lemma sum_row_tabulate (m s : nat) (g : nat -> Z) :
  (forall j, (s <= j < s + m)%nat -> 0 <= g j) ->
  0 <= fold_right Z.add 0 (map g (seq s m)) /\
  (0 < fold_right Z.add 0 (map g (seq s m)) <->
   exists j, (s <= j < s + m)%nat /\ 0 < g j).
Proof.
  revert s. induction m as [|m IH]; intros s H; simpl.
  - split; [lia|]. split; [lia | intros [j [Hj _]]; lia].
  - assert (Hs : 0 <= g s) by (apply H; lia).
    destruct (IH (S s) ltac:(intros; apply H; lia)) as [Hnn [IH1 IH2]].
    split; [lia|]. split.
    + intros Hpos. destruct (Z.eq_dec (g s) 0) as [E|E].
      * destruct (IH1 ltac:(lia)) as [j [Hj Hgj]]. exists j. split; [lia|auto].
      * exists s. split; lia.
    + intros [j [Hj Hgj]]. destruct (Nat.eq_dec j s) as [->|Hne]; [lia|].
      assert (0 < fold_right Z.add 0 (map g (seq (S s) m)))
        by (apply IH2; exists j; split; [lia|auto]).
      lia.
Qed.

Lemma sum_rows_tabulate (n m s : nat) (f : nat -> nat -> Z) :
  (forall i j, (s <= i < s + n)%nat -> (j < m)%nat -> 0 <= f i j) ->
  0 <= Np.sum (map (fun i => map (f i) (seq 0 m)) (seq s n)) /\
  (0 < Np.sum (map (fun i => map (f i) (seq 0 m)) (seq s n)) <->
   exists i j, (s <= i < s + n)%nat /\ (j < m)%nat /\ 0 < f i j).
Proof.
  revert s. induction n as [|n IH]; intros s H; simpl.
  - split; [lia|]. split; [lia | intros [i [j [Hi _]]]; lia].
  - destruct (@sum_row_tabulate m 0 (f s)) as [Hr [Hr1 Hr2]].
    { intros j Hj. apply H; lia. }
    destruct (IH (S s) ltac:(intros; apply H; lia)) as [Hnn [IH1 IH2]].
    split; [lia|]. split.
    + intros Hpos.
      destruct (Z.eq_dec (fold_right Z.add 0 (map (f s) (seq 0 m))) 0) as [E|E].
      * destruct (IH1 ltac:(lia)) as [i [j [Hi [Hj Hf]]]].
        exists i, j. repeat split; auto; lia.
      * destruct (Hr1 ltac:(lia)) as [j [Hj Hf]].
        exists s, j. repeat split; auto; lia.
    + intros [i [j [Hi [Hj Hf]]]]. destruct (Nat.eq_dec i s) as [->|Hne].
      * assert (0 < fold_right Z.add 0 (map (f s) (seq 0 m)))
          by (apply Hr2; exists j; split; [lia|auto]).
        lia.
      * assert (0 < Np.sum (map (fun i => map (f i) (seq 0 m)) (seq (S s) n)))
          by (apply IH2; exists i, j; repeat split; auto; lia).
        lia.
Qed.

(** [np.sum(B) > 0] on a matrix without negative entries. *)
Lemma sum_positive (n m : nat) (M : matrix Z) :
  shape n m M ->
  (forall i j, (i < n)%nat -> (j < m)%nat -> 0 <= get 0 M i j) ->
  ((0 <? Np.sum M) = true <->
   exists i j, (i < n)%nat /\ (j < m)%nat /\ 0 < get 0 M i j).
Proof.
  intros Hsh Hnn. rewrite <- (tabulate_get 0 Hsh) at 1. unfold tabulate.
  destruct (@sum_rows_tabulate n m 0 (get 0 M)) as [_ [H1 H2]].
  { intros i j Hi Hj. apply Hnn; lia. }
  rewrite Z.ltb_lt. split.
  - intros H. destruct (H1 H) as [i [j [Hi [Hj Hf]]]].
    exists i, j. repeat split; auto; lia.
  - intros [i [j [Hi [Hj Hf]]]]. apply H2. exists i, j.
    repeat split; auto; lia.
Qed.

Lemma dot_square (N : nat) (A B : matrix Z) :
  shape N N A -> shape N N B ->
  dot A B =
  tabulate N N (fun i j => sum_upto N (fun k => get 0 A i k * get 0 B k j)).
Proof.
  intros HA HB. unfold dot.
  rewrite (nrows_shape HA), (nrows_shape HB).
  destruct N as [|n]; [reflexivity|].
  now rewrite (ncols_shape HB) by lia.
Qed.

Lemma shape_dot (N : nat) (A B : matrix Z) :
  shape N N A -> shape N N B -> shape N N (dot A B).
Proof.
  intros HA HB. rewrite (dot_square HA HB). apply shape_tabulate.
Qed.

Lemma get_dot (N : nat) (A B : matrix Z) (i j : nat) :
  shape N N A -> shape N N B -> (i < N)%nat -> (j < N)%nat ->
  get 0 (dot A B) i j = sum_upto N (fun k => get 0 A i k * get 0 B k j).
Proof.
  intros HA HB Hi Hj. rewrite (dot_square HA HB). now rewrite get_tabulate.
Qed.
End SumFacts.


(** * Relations as 0/1 matrices *)

Section Bits.
Variable N : nat.

Lemma bits_ext (A B : matrix Z) :
  is_bits N A -> is_bits N B ->
  (forall i j, (i < N)%nat -> (j < N)%nat ->
     (get 0 A i j = 1 <-> get 0 B i j = 1)) ->
  A = B.
Proof.
  intros [HsA HbA] [HsB HbB] H.
  apply shape_ext with (d := 0) (n := N) (m := N); auto.
  intros i j Hi Hj. specialize (H i j Hi Hj).
  destruct (HbA i j Hi Hj) as [Ea|Ea], (HbB i j Hi Hj) as [Eb|Eb]; lia.
Qed.

Lemma list_eqb_eq (X : Type) (eqb : X -> X -> bool) (a b : list X) :
  (forall x y, eqb x y = true <-> x = y) ->
  (list_eqb eqb a b = true <-> a = b).
Proof.
  intros Heq. revert b. induction a as [|x a IH]; intros [|y b]; simpl;
    try (split; [discriminate | discriminate]); try tauto.
  rewrite andb_true_iff, Heq, IH. split.
  - intros [-> ->]. reflexivity.
  - intros H. inversion H. auto.
Qed.

Lemma array_equal_eq (A B : matrix Z) : array_equal A B = true <-> A = B.
Proof.
  unfold array_equal. apply list_eqb_eq. intros x y.
  apply list_eqb_eq. intros a b. apply Z.eqb_eq.
Qed.

(** The product of two 0/1 matrices has a positive entry exactly where a
    two-step walk exists. *)
Lemma dot_bits_pos (X A : matrix Z) (i j : nat) :
  is_bits N X -> is_bits N A -> (i < N)%nat -> (j < N)%nat ->
  0 <= get 0 (dot X A) i j /\
  (0 < get 0 (dot X A) i j <-> through X A N i j).
Proof.
  intros [HsX HbX] [HsA HbA] Hi Hj. rewrite (get_dot HsX HsA Hi Hj).
  assert (Hnn : forall k, (k < N)%nat -> 0 <= get 0 X i k * get 0 A k j).
  { intros k Hk. destruct (HbX i k Hi Hk) as [->| ->],
      (HbA k j Hk Hj) as [->| ->]; lia. }
  split; [now apply sum_upto_nonneg|].
  rewrite (sum_upto_pos _ Hnn). unfold through. split.
  - intros [k [Hk Hpos]]. exists k. split; auto.
    destruct (HbX i k Hi Hk) as [E1|E1], (HbA k j Hk Hj) as [E2|E2];
      rewrite E1, E2 in Hpos; try lia.
  - intros [k [Hk [E1 E2]]]. exists k. split; auto. rewrite E1, E2. lia.
Qed.

Lemma through_dec (X A : matrix Z) (i j : nat) :
  is_bits N X -> is_bits N A -> (i < N)%nat -> (j < N)%nat ->
  through X A N i j \/ ~ through X A N i j.
Proof.
  intros HX HA Hi Hj. destruct (dot_bits_pos HX HA Hi Hj) as [Hnn Hiff].
  destruct (Z.eq_dec (get 0 (dot X A) i j) 0) as [E|E].
  - right. intros H. apply Hiff in H. lia.
  - left. apply Hiff. lia.
Qed.

Lemma completion_step_bits (A_0 X : matrix Z) :
  is_bits N A_0 -> is_bits N X ->
  is_bits N (MatrixUtils.completion_step A_0 X) /\
  forall i j, (i < N)%nat -> (j < N)%nat ->
    (get 0 (MatrixUtils.completion_step A_0 X) i j = 1 <->
     get 0 A_0 i j = 1 \/ through X A_0 N i j).
Proof.
  intros HA HX. unfold MatrixUtils.completion_step, assign_where, add.
  assert (Hsh : shape N N (map2_matrix Z.add (dot X A_0) A_0)).
  { apply shape_map2_matrix; [apply shape_dot|]; apply HX || apply HA. }
  assert (Hget : forall i j, (i < N)%nat -> (j < N)%nat ->
    get 0 (map_matrix (fun x => if 1 <? x then 1 else x)
             (map2_matrix Z.add (dot X A_0) A_0)) i j =
    if 1 <? get 0 (dot X A_0) i j + get 0 A_0 i j then 1
    else get 0 (dot X A_0) i j + get 0 A_0 i j).
  { intros i j Hi Hj.
    rewrite (get_map_matrix _ 0 0 (n := N) (m := N)) by auto.
    rewrite (get_map2_matrix Z.add 0 0 0 (n := N) (m := N));
      auto; [apply shape_dot|]; apply HX || apply HA. }
  split; [split|].
  - now apply shape_map_matrix.
  - intros i j Hi Hj. rewrite Hget by auto.
    destruct (dot_bits_pos HX HA Hi Hj) as [Hnn _].
    destruct HA as [_ HbA]. specialize (HbA i j Hi Hj).
    destruct (Z.ltb_spec 1 (get 0 (dot X A_0) i j + get 0 A_0 i j)); lia.
  - intros i j Hi Hj. rewrite Hget by auto.
    destruct (dot_bits_pos HX HA Hi Hj) as [Hnn Hiff].
    destruct HA as [_ HbA]. specialize (HbA i j Hi Hj).
    rewrite <- Hiff.
    destruct (Z.ltb_spec 1 (get 0 (dot X A_0) i j + get 0 A_0 i j)); lia.
Qed.

Lemma reduction_step_bits (A_0 X : matrix Z) :
  is_bits N A_0 -> is_bits N X ->
  is_bits N (MatrixUtils.reduction_step A_0 X) /\
  forall i j, (i < N)%nat -> (j < N)%nat ->
    (get 0 (MatrixUtils.reduction_step A_0 X) i j = 1 <->
     get 0 A_0 i j = 1 /\ ~ through X A_0 N i j).
Proof.
  intros HA HX. unfold MatrixUtils.reduction_step, assign_where, sub.
  assert (Hsh : shape N N (map2_matrix Z.sub A_0 (dot X A_0))).
  { apply shape_map2_matrix; [|apply shape_dot]; apply HX || apply HA. }
  assert (Hget : forall i j, (i < N)%nat -> (j < N)%nat ->
    get 0 (map_matrix (fun x => if 1 <? x then 1 else x)
             (map_matrix (fun x => if x <? 1 then 0 else x)
                (map2_matrix Z.sub A_0 (dot X A_0)))) i j =
    let x := get 0 A_0 i j - get 0 (dot X A_0) i j in
    let y := if x <? 1 then 0 else x in
    if 1 <? y then 1 else y).
  { intros i j Hi Hj.
    rewrite (get_map_matrix _ 0 0 (n := N) (m := N))
      by auto using shape_map_matrix.
    rewrite (get_map_matrix _ 0 0 (n := N) (m := N)) by auto.
    rewrite (get_map2_matrix Z.sub 0 0 0 (n := N) (m := N));
      auto; [|apply shape_dot]; apply HX || apply HA. }
  split; [split|].
  - now apply shape_map_matrix, shape_map_matrix.
  - intros i j Hi Hj. rewrite Hget by auto. cbv zeta.
    destruct (dot_bits_pos HX HA Hi Hj) as [Hnn _].
    destruct HA as [_ HbA]. specialize (HbA i j Hi Hj).
    destruct (Z.ltb_spec (get 0 A_0 i j - get 0 (dot X A_0) i j) 1);
      [left; reflexivity|].
    destruct (Z.ltb_spec 1 (get 0 A_0 i j - get 0 (dot X A_0) i j)); lia.
  - intros i j Hi Hj. rewrite Hget by auto. cbv zeta.
    destruct (dot_bits_pos HX HA Hi Hj) as [Hnn Hiff].
    destruct HA as [_ HbA]. specialize (HbA i j Hi Hj).
    rewrite <- Hiff.
    destruct (Z.ltb_spec (get 0 A_0 i j - get 0 (dot X A_0) i j) 1).
    + simpl. lia.
    + destruct (Z.ltb_spec 1 (get 0 A_0 i j - get 0 (dot X A_0) i j)); lia.
Qed.
End Bits.

(** * Counting *)

Section Counting.
Lemma count_upto_le (n : nat) (f : nat -> bool) : (count_upto n f <= n)%nat.
Proof. induction n as [|n IH]; simpl; [lia|]. destruct (f n); lia. Qed.

Lemma count_upto_mono (n : nat) (f g : nat -> bool) :
  (forall k, (k < n)%nat -> f k = true -> g k = true) ->
  (count_upto n f <= count_upto n g)%nat.
Proof.
  induction n as [|n IH]; intros H; simpl; [lia|].
  assert (count_upto n f <= count_upto n g)%nat by (apply IH; intros; apply H; auto; lia).
  specialize (H n). destruct (f n), (g n); try lia.
  all: discriminate H; auto.
Qed.

Lemma count_upto_same (n : nat) (f g : nat -> bool) :
  (forall k, (k < n)%nat -> f k = true -> g k = true) ->
  count_upto n f = count_upto n g ->
  forall k, (k < n)%nat -> f k = g k.
Proof.
  induction n as [|n IH]; intros H Hc k Hk; [lia|]. simpl in Hc.
  assert (Hle : (count_upto n f <= count_upto n g)%nat)
    by (apply count_upto_mono; intros; apply H; auto; lia).
  assert (Hn := H n ltac:(lia)).
  destruct (Nat.eq_dec k n) as [->|Hne].
  - destruct (f n), (g n); auto; try lia. all: discriminate Hn; auto.
  - apply IH; try lia.
    + intros; apply H; auto; lia.
    + destruct (f n), (g n); try lia. all: discriminate Hn; auto.
Qed.

Lemma count_upto_strict (n : nat) (f g : nat -> bool) :
  (forall k, (k < n)%nat -> f k = true -> g k = true) ->
  (exists k, (k < n)%nat /\ f k = false /\ g k = true) ->
  (count_upto n f < count_upto n g)%nat.
Proof.
  intros H [k [Hk [Hf Hg]]].
  assert (Hle := @count_upto_mono n f g H).
  destruct (Nat.eq_dec (count_upto n f) (count_upto n g)) as [E|E]; [|lia].
  rewrite (@count_upto_same n f g H E k Hk) in Hf. congruence.
Qed.

Lemma count_upto_none (n : nat) (f : nat -> bool) :
  count_upto n f = 0%nat -> forall k, (k < n)%nat -> f k = false.
Proof.
  induction n as [|n IH]; intros Hc k Hk; [lia|]. simpl in Hc.
  destruct (Nat.eq_dec k n) as [->|Hne].
  - destruct (f n); auto; lia.
  - apply IH; lia.
Qed.
End Counting.

(** * transitive_completion *)

Section Completion.
Import MatrixUtils.
Variable N : nat.
Variable A_0 : matrix Z.
Hypothesis A_0_bits : is_bits N A_0.

Lemma completion_iter_bits (t : nat) : is_bits N (completion_iter A_0 t).
Proof.
  induction t as [|t IH]; [exact A_0_bits|].
  apply (completion_step_bits A_0_bits IH).
Qed.

Lemma completion_iter_S (t i j : nat) :
  (i < N)%nat -> (j < N)%nat ->
  (get 0 (completion_iter A_0 (S t)) i j = 1 <->
   get 0 A_0 i j = 1 \/ through (completion_iter A_0 t) A_0 N i j).
Proof.
  intros Hi Hj.
  apply (completion_step_bits A_0_bits (completion_iter_bits t)); auto.
Qed.

Lemma completion_iter_mono (t i j : nat) :
  (i < N)%nat -> (j < N)%nat ->
  get 0 (completion_iter A_0 t) i j = 1 ->
  get 0 (completion_iter A_0 (S t)) i j = 1.
Proof.
  revert i j. induction t as [|t IH]; intros i j Hi Hj H;
    apply completion_iter_S; auto.
  apply completion_iter_S in H; auto.
  destruct H as [H|[k [Hk [H1 H2]]]]; [now left|].
  right. exists k. split; auto.
Qed.

Lemma completion_iter_reach (t i j : nat) :
  (i < N)%nat -> (j < N)%nat ->
  get 0 (completion_iter A_0 t) i j = 1 -> reach A_0 N i j.
Proof.
  revert i j. induction t as [|t IH]; intros i j Hi Hj H.
  - now apply reach_edge.
  - apply completion_iter_S in H; auto.
    destruct H as [H|[k [Hk [H1 H2]]]]; [now apply reach_edge|].
    apply reach_step with (k := k); auto.
Qed.

Lemma bit_values_eq (x y : Z) :
  x = 0 \/ x = 1 -> y = 0 \/ y = 1 -> (x = 1 <-> y = 1) -> x = y.
Proof. lia. Qed.

Lemma get_iter_eq (s t i j : nat) :
  (i < N)%nat -> (j < N)%nat ->
  (get 0 (completion_iter A_0 s) i j = 1 <->
   get 0 (completion_iter A_0 t) i j = 1) ->
  get 0 (completion_iter A_0 s) i j = get 0 (completion_iter A_0 t) i j.
Proof.
  intros Hi Hj H. apply bit_values_eq; auto;
    apply completion_iter_bits; auto.
Qed.

(** A row that a pass leaves unchanged stays unchanged. *)
Lemma row_stable (t i : nat) :
  (i < N)%nat ->
  (forall j, (j < N)%nat ->
     get 0 (completion_iter A_0 (S t)) i j = get 0 (completion_iter A_0 t) i j) ->
  forall j, (j < N)%nat ->
    get 0 (completion_iter A_0 (S (S t))) i j
    = get 0 (completion_iter A_0 (S t)) i j.
Proof.
  intros Hi Hrow j Hj. apply get_iter_eq; auto.
  rewrite (@completion_iter_S (S t)), (@completion_iter_S t) by auto.
  unfold through. split; intros [H|[k [Hk [H1 H2]]]]; auto; right;
    exists k; (split; [auto|]); split; auto.
  - now rewrite <- Hrow.
  - now rewrite Hrow.
Qed.

(** A row that still changes in pass [t+1] has more than [t+1] ones. *)
Lemma row_grows (t i : nat) :
  (i < N)%nat ->
  (forall j, (j < N)%nat ->
     get 0 (completion_iter A_0 (S t)) i j = get 0 (completion_iter A_0 t) i j)
  \/ (t + 2 <= count_upto N (row_ones (completion_iter A_0 (S t)) i))%nat.
Proof.
  intros Hi.
  assert (Hmono : forall s k, (k < N)%nat ->
    row_ones (completion_iter A_0 s) i k = true ->
    row_ones (completion_iter A_0 (S s)) i k = true).
  { intros s k Hk. unfold row_ones. rewrite !Z.eqb_eq.
    now apply completion_iter_mono. }
  assert (Hsame : forall s,
    count_upto N (row_ones (completion_iter A_0 s) i)
    = count_upto N (row_ones (completion_iter A_0 (S s)) i) ->
    forall j, (j < N)%nat ->
      get 0 (completion_iter A_0 (S s)) i j = get 0 (completion_iter A_0 s) i j).
  { intros s Hc j Hj. apply get_iter_eq; auto.
    assert (E := @count_upto_same N _ _ (Hmono s) Hc j Hj). unfold row_ones in E.
    rewrite <- !Z.eqb_eq. rewrite E. tauto. }
  induction t as [|t IH].
  - destruct (Nat.eq_dec (count_upto N (row_ones (completion_iter A_0 0) i))
                (count_upto N (row_ones (completion_iter A_0 1) i))) as [E|E];
      [left; now apply Hsame|].
    assert (Hle := @count_upto_mono N _ _ (Hmono 0%nat)).
    destruct (Nat.eq_dec (count_upto N (row_ones (completion_iter A_0 0) i)) 0)
      as [Z0|Z0]; [|right; lia].
    left. intros j Hj. apply get_iter_eq; auto.
    assert (Hnone := @count_upto_none N _ Z0). unfold row_ones in Hnone.
    rewrite (@completion_iter_S 0) by auto. simpl. split.
    + intros [H|[k [Hk [H1 H2]]]]; auto.
      specialize (Hnone k Hk). simpl in Hnone. apply Z.eqb_neq in Hnone.
      contradiction.
    + auto.
  - destruct IH as [IH|IH]; [left; now apply row_stable|].
    destruct (Nat.eq_dec
                (count_upto N (row_ones (completion_iter A_0 (S t)) i))
                (count_upto N (row_ones (completion_iter A_0 (S (S t))) i)))
      as [E|E]; [left; now apply Hsame|].
    assert (Hle := @count_upto_mono N _ _ (Hmono (S t))).
    right. lia.
Qed.

(** Pass [N] changes nothing. *)
Lemma completion_iter_stable :
  (1 <= N)%nat ->
  completion_step A_0 (completion_iter A_0 (N - 1)) = completion_iter A_0 (N - 1).
Proof.
  intros HN. change (completion_iter A_0 (S (N - 1)) = completion_iter A_0 (N - 1)).
  apply shape_ext with (d := 0) (n := N) (m := N);
    try apply completion_iter_bits.
  intros i j Hi Hj. destruct (@row_grows (N - 1) i Hi) as [H|H]; auto.
  pose proof (count_upto_le N (row_ones (completion_iter A_0 (S (N - 1))) i)).
  lia.
Qed.
End Completion.

Section Reach.
Variable A : matrix Z.
Variable N : nat.

Lemma reach_bounds (i j : nat) : reach A N i j -> (i < N)%nat /\ (j < N)%nat.
Proof. induction 1; tauto. Qed.

Lemma reach_trans (i k j : nat) :
  reach A N i k -> reach A N k j -> reach A N i j.
Proof.
  intros Hik Hkj. induction Hkj as [k j Hk Hj E | k m j Hkm IH Hj E].
  - now apply reach_step with (k := k).
  - apply reach_step with (k := m); auto.
Qed.
End Reach.

Section CompletionLoop.
Import MatrixUtils.
Variable N : nat.
Variable A_0 : matrix Z.

Lemma completion_loop_sound (fuel i : nat) (Y T : matrix Z) :
  completion_loop fuel N A_0 Y i = Some (Ok T) ->
  (i < N)%nat /\ completion_step A_0 T = T /\
  exists e, T = Nat.iter e (completion_step A_0) Y.
Proof.
  revert i Y. induction fuel as [|fuel IH]; intros i Y H; [discriminate|].
  simpl in H. destruct (Nat.ltb_spec i N) as [Hi|Hi]; [|discriminate].
  destruct (array_equal Y (completion_step A_0 Y)) eqn:E; simpl in H.
  - apply array_equal_eq in E. inversion H; subst T.
    split; auto. split; [now rewrite <- E|]. exists 0%nat. now rewrite <- E.
  - destruct (IH _ _ H) as [Hi' [Hfix [e He]]].
    split; [lia|]. split; auto. exists (S e).
    now rewrite Nat.iter_succ_r.
Qed.

Lemma completion_loop_converges (d fuel i : nat) (Y : matrix Z) :
  completion_step A_0 (Nat.iter d (completion_step A_0) Y)
    = Nat.iter d (completion_step A_0) Y ->
  (i + d < N)%nat -> (d < fuel)%nat ->
  exists T, completion_loop fuel N A_0 Y i = Some (Ok T).
Proof.
  revert fuel i Y. induction d as [|d IH]; intros fuel i Y Hfix Hi Hfuel;
    (destruct fuel as [|fuel]; [lia|]); simpl;
    (destruct (Nat.ltb_spec i N); [|lia]).
  - simpl in Hfix. rewrite Hfix.
    assert (E : array_equal Y Y = true) by now apply array_equal_eq.
    rewrite E. simpl. eauto.
  - destruct (array_equal Y (completion_step A_0 Y)); simpl; eauto.
    apply IH; try lia. now rewrite <- Nat.iter_succ_r.
Qed.

Lemma completion_loop_terminates (fuel i : nat) (Y : matrix Z) :
  (N - i < fuel)%nat -> exists r, completion_loop fuel N A_0 Y i = Some r.
Proof.
  revert i Y. induction fuel as [|fuel IH]; intros i Y Hfuel; [lia|].
  simpl. destruct (Nat.ltb_spec i N); [|eauto].
  destruct (array_equal Y (completion_step A_0 Y)); simpl; eauto.
  apply IH. lia.
Qed.
End CompletionLoop.

Section Closure.
Import MatrixUtils.
Variable N : nat.
Variable A : matrix Z.
Hypothesis A_bits : is_bits N A.

(** What a returned matrix is: the reachability relation of the input. *)
Lemma transitive_completion_sound (fuel : nat) (T : matrix Z) :
  transitive_completion fuel A = Some (Ok T) ->
  (0 < N)%nat /\ is_bits N T /\ completion_step A T = T /\
  forall i j, (i < N)%nat -> (j < N)%nat ->
    (get 0 T i j = 1 <-> reach A N i j).
Proof.
  unfold transitive_completion. rewrite (nrows_shape (proj1 A_bits)).
  intros H. destruct (@completion_loop_sound N A fuel 0%nat A T H) as [HN [Hfix [e He]]].
  fold (completion_iter A e) in He.
  assert (HT : is_bits N T) by (subst T; now apply completion_iter_bits).
  split; [exact HN|]. split; [exact HT|]. split; [exact Hfix|].
  intros i j Hi Hj. split.
  - subst T. now apply completion_iter_reach.
  - intros Hr. clear Hi Hj. induction Hr as [i j Hi Hj E | i k j Hik IH Hj E].
    + rewrite <- Hfix. apply (completion_step_bits A_bits HT); auto.
    + destruct (reach_bounds Hik) as [Hi Hk].
      rewrite <- Hfix. apply (completion_step_bits A_bits HT); auto.
      right. exists k. auto.
Qed.

Lemma transitive_completion_total (fuel : nat) :
  (1 <= N)%nat -> (N <= fuel)%nat ->
  exists T, transitive_completion fuel A = Some (Ok T).
Proof.
  intros HN Hfuel. unfold transitive_completion.
  rewrite (nrows_shape (proj1 A_bits)).
  apply completion_loop_converges with (d := (N - 1)%nat); try lia.
  apply (completion_iter_stable A_bits HN).
Qed.
End Closure.

(** C5: whenever [transitive_completion A] returns a matrix [T],
    [transitive_completion T] returns [T] again; and on a 0/1 matrix with
    at least one node (acyclic or not) it does return, within [N] passes. *)
Theorem transitive_completion_idempotent (A : matrix Z) (N fuel : nat) :
  is_bits N A ->
  (forall T, MatrixUtils.transitive_completion fuel A = Some (Ok T) ->
     MatrixUtils.transitive_completion fuel T = Some (Ok T)) /\
  ((1 <= N)%nat -> (N <= fuel)%nat ->
   exists T, MatrixUtils.transitive_completion fuel A = Some (Ok T)).
Proof.
  intros HA. split; [|now apply transitive_completion_total].
  intros T H. destruct (@transitive_completion_sound N A HA fuel T H) as [HN [HT [Hfix Hreach]]].
  destruct fuel as [|fuel]; [discriminate|].
  unfold MatrixUtils.transitive_completion. rewrite (nrows_shape (proj1 HT)).
  simpl. destruct (Nat.ltb_spec 0 N); [|lia].
  assert (E : MatrixUtils.completion_step T T = T).
  { destruct (completion_step_bits HT HT) as [Hb Hget].
    apply (bits_ext Hb HT). intros i j Hi Hj. rewrite (Hget i j Hi Hj).
    split; [|tauto]. intros [H1|[k [Hk [H1 H2]]]]; auto.
    apply Hreach; auto. apply reach_trans with (k := k); apply Hreach; auto. }
  rewrite E. assert (E' : array_equal T T = true) by now apply array_equal_eq.
  now rewrite E'.
Qed.

Lemma transitive_completion_idempotent_witness :
  let A := [[0; 0; 0]; [1; 0; 0]; [0; 1; 0]] in
  (forall T, MatrixUtils.transitive_completion 3 A = Some (Ok T) ->
     MatrixUtils.transitive_completion 3 T = Some (Ok T)) /\
  ((1 <= 3)%nat -> (3 <= 3)%nat ->
   exists T, MatrixUtils.transitive_completion 3 A = Some (Ok T)).
Proof.
  intros A. apply (@transitive_completion_idempotent A 3 3).
  split.
  - split; [reflexivity | repeat constructor].
  - intros i j Hi Hj.
    destruct i as [|[|[|i]]]; try lia; destruct j as [|[|[|j]]]; try lia;
      simpl; auto.
Defined.

(** C7, refuted: the two-node cycle is not acyclic, yet
    [transitive_completion] returns its closure, the all-ones matrix, and
    never an error. *)
Lemma cyclic_input_completes :
  ~ acyclic 2 [[0; 1]; [1; 0]] /\
  MatrixUtils.transitive_completion 2 [[0; 1]; [1; 0]]
    = Some (Ok [[1; 1]; [1; 1]]) /\
  forall fuel e,
    MatrixUtils.transitive_completion fuel [[0; 1]; [1; 0]] <> Some (Raise e).
Proof.
  split; [|split].
  - intros H. apply (H 0%nat).
    apply reach_step with (k := 1%nat); [apply reach_edge| |]; simpl; auto; lia.
  - reflexivity.
  - intros fuel e. destruct fuel as [|[|fuel]]; discriminate.
Qed.

(** C7, amended: [transitive_completion] terminates on every square
    input, within [N+1] passes; on every 0/1 input with at least one
    node, cyclic or not, it returns within [N] passes, and what it returns
    is the transitive closure of the input. *)
Theorem transitive_completion_terminates (A : matrix Z) (N : nat) :
  shape N N A ->
  (exists r, MatrixUtils.transitive_completion (S N) A = Some r) /\
  (is_bits N A -> (1 <= N)%nat ->
   exists T, MatrixUtils.transitive_completion N A = Some (Ok T) /\
     is_bits N T /\
     forall i j, (i < N)%nat -> (j < N)%nat ->
       (get 0 T i j = 1 <-> reach A N i j)).
Proof.
  intros Hsh. split.
  - unfold MatrixUtils.transitive_completion. rewrite (nrows_shape Hsh).
    apply completion_loop_terminates. lia.
  - intros HA HN.
    destruct (transitive_completion_total HA HN (le_n N)) as [T HT].
    exists T. split; [exact HT|].
    destruct (@transitive_completion_sound N A HA N T HT) as [_ [Hb [_ Hr]]]. auto.
Qed.

Lemma transitive_completion_terminates_witness :
  let A := [[0; 1]; [1; 0]] in
  (exists r, MatrixUtils.transitive_completion 3 A = Some r) /\
  (is_bits 2 A -> (1 <= 2)%nat ->
   exists T, MatrixUtils.transitive_completion 2 A = Some (Ok T) /\
     is_bits 2 T /\
     forall i j, (i < 2)%nat -> (j < 2)%nat ->
       (get 0 T i j = 1 <-> reach A 2 i j)).
Proof.
  intros A. apply (@transitive_completion_terminates A 2).
  split; [reflexivity | repeat constructor].
Defined.

(** * transitive_reduction *)

Section Reduction.
Import MatrixUtils.
Variable N : nat.
Variable A : matrix Z.
Hypothesis A_bits : is_bits N A.
Hypothesis A_closed : transitively_closed N A.
Hypothesis A_acyclic : acyclic N A.

Lemma closed_irreflexive (i : nat) : (i < N)%nat -> get 0 A i i <> 1.
Proof. intros Hi E. apply (A_acyclic (i := i)). now apply reach_edge. Qed.

Lemma between_left (i x j : nat) :
  (i < N)%nat -> (x < N)%nat -> (j < N)%nat ->
  get 0 A i x = 1 -> get 0 A x j = 1 ->
  (between_count A N i x < between_count A N i j)%nat.
Proof.
  intros Hi Hx Hj E1 E2. unfold between_count. apply count_upto_strict.
  - intros y Hy H. apply andb_true_iff in H. destruct H as [H1 H2].
    apply Z.eqb_eq in H1, H2. apply andb_true_iff.
    rewrite !Z.eqb_eq. split; auto. now apply (A_closed (k := x)).
  - exists x. split; auto. split.
    + apply andb_false_iff. right. apply Z.eqb_neq.
      now apply closed_irreflexive.
    + apply andb_true_iff. now rewrite !Z.eqb_eq.
Qed.

Lemma between_right (i x j : nat) :
  (i < N)%nat -> (x < N)%nat -> (j < N)%nat ->
  get 0 A i x = 1 -> get 0 A x j = 1 ->
  (between_count A N x j < between_count A N i j)%nat.
Proof.
  intros Hi Hx Hj E1 E2. unfold between_count. apply count_upto_strict.
  - intros y Hy H. apply andb_true_iff in H. destruct H as [H1 H2].
    apply Z.eqb_eq in H1, H2. apply andb_true_iff.
    rewrite !Z.eqb_eq. split; auto. now apply (A_closed (k := x)).
  - exists x. split; auto. split.
    + apply andb_false_iff. left. apply Z.eqb_neq.
      now apply closed_irreflexive.
    + apply andb_true_iff. now rewrite !Z.eqb_eq.
Qed.

(** A two-step walk can start with a covering edge. *)
Lemma through_cover (i k j : nat) :
  (i < N)%nat -> (k < N)%nat -> (j < N)%nat ->
  get 0 A i k = 1 -> get 0 A k j = 1 ->
  exists k', (k' < N)%nat /\ cover A N i k' /\ get 0 A k' j = 1.
Proof.
  intros Hi Hk Hj. remember (between_count A N i k) as n eqn:En.
  revert k Hk En. induction n as [n IH] using lt_wf_ind.
  intros k Hk En E1 E2.
  destruct (through_dec A_bits A_bits Hi Hk) as [[x [Hx [H1 H2]]]|Hno].
  - apply (IH (between_count A N i x)) with (k := x); auto.
    + subst n. now apply between_left.
    + now apply (A_closed (k := k)).
  - exists k. split; auto. split; auto. split; auto.
Qed.

Lemma reduction_iter_cover (t : nat) :
  (1 <= t)%nat ->
  is_bits N (Nat.iter t (reduction_step A) A) /\
  forall i j, (i < N)%nat -> (j < N)%nat ->
    (get 0 (Nat.iter t (reduction_step A) A) i j = 1 <-> cover A N i j).
Proof.
  induction t as [|t IH]; intros Ht; [lia|].
  destruct t as [|t].
  - simpl. destruct (reduction_step_bits A_bits A_bits) as [Hb Hget].
    split; auto.
  - destruct (IH ltac:(lia)) as [Hb Hcov].
    change (Nat.iter (S (S t)) (reduction_step A) A)
      with (reduction_step A (Nat.iter (S t) (reduction_step A) A)).
    destruct (reduction_step_bits A_bits Hb) as [Hb' Hget].
    split; auto. intros i j Hi Hj. rewrite (Hget i j Hi Hj).
    unfold cover. split; intros [E Hno]; split; auto.
    + intros [k [Hk [H1 H2]]].
      destruct (through_cover Hi Hk Hj H1 H2) as [k' [Hk' [Hc H3]]].
      apply Hno. exists k'. split; auto. split; auto. now apply Hcov.
    + intros [k [Hk [H1 H2]]]. apply Hno. exists k. split; auto.
      split; auto. apply Hcov in H1; auto. apply H1.
Qed.

Lemma transitive_reduction_cover :
  (1 <= N)%nat ->
  is_bits N (transitive_reduction A None) /\
  forall i j, (i < N)%nat -> (j < N)%nat ->
    (get 0 (transitive_reduction A None) i j = 1 <-> cover A N i j).
Proof.
  intros HN. unfold transitive_reduction. simpl.
  rewrite (nrows_shape (proj1 A_bits)), Nat2Z.id.
  now apply reduction_iter_cover.
Qed.

(** The covering edges generate the whole relation. *)
Lemma cover_generates (R : matrix Z) :
  (forall i j, (i < N)%nat -> (j < N)%nat ->
     (get 0 R i j = 1 <-> cover A N i j)) ->
  forall i j, (i < N)%nat -> (j < N)%nat ->
    (reach R N i j <-> get 0 A i j = 1).
Proof.
  intros HR i j Hi Hj. split.
  - intros Hr. clear Hi Hj. induction Hr as [i j Hi Hj E | i k j Hik IH Hj E].
    + apply HR in E; auto. apply E.
    + destruct (reach_bounds Hik) as [Hi Hk]. apply HR in E; auto.
      apply (A_closed (k := k)); auto. apply E.
  - remember (between_count A N i j) as n eqn:En.
    revert i j Hi Hj En. induction n as [n IH] using lt_wf_ind.
    intros i j Hi Hj En E.
    destruct (through_dec A_bits A_bits Hi Hj) as [[x [Hx [H1 H2]]]|Hno].
    + apply reach_trans with (k := x).
      * apply (IH (between_count A N i x)); auto.
        subst n. now apply between_left.
      * apply (IH (between_count A N x j)); auto.
        subst n. now apply between_right.
    + apply reach_edge; auto. apply HR; auto. split; auto.
Qed.
End Reduction.

(** C4, refuted on the empty graph: the 0x0 matrix is a transitively
    closed acyclic 0/1 matrix, its reduction is itself, and
    [transitive_completion] fails its assertion on it. *)
Lemma empty_graph_not_reconstructed :
  is_bits 0 [] /\ transitively_closed 0 [] /\ acyclic 0 [] /\
  MatrixUtils.transitive_completion 1 (MatrixUtils.transitive_reduction [] None)
    = Some (Raise AssertionError) /\
  forall fuel,
    MatrixUtils.transitive_completion fuel (MatrixUtils.transitive_reduction [] None)
    <> Some (Ok []).
Proof.
  split; [|split; [|split; [|split]]].
  - split; [split; [reflexivity|constructor]|]. intros i j Hi. lia.
  - intros i k j Hi. lia.
  - intros i H. destruct (reach_bounds H). lia.
  - reflexivity.
  - intros [|fuel]; discriminate.
Qed.

(** C4, amended: for a transitively closed acyclic 0/1 matrix with at
    least one node, completing the reduction returns the matrix itself. *)
Theorem completion_of_reduction (A : matrix Z) (N fuel : nat) :
  is_bits N A -> transitively_closed N A -> acyclic N A ->
  (1 <= N)%nat -> (N <= fuel)%nat ->
  MatrixUtils.transitive_completion fuel (MatrixUtils.transitive_reduction A None)
  = Some (Ok A).
Proof.
  intros HA Hclosed Hacyc HN Hfuel.
  destruct (transitive_reduction_cover HA Hclosed Hacyc HN) as [HR Hcov].
  destruct (transitive_completion_total HR HN Hfuel) as [T HT].
  rewrite HT. f_equal. f_equal.
  destruct (@transitive_completion_sound N _ HR fuel T HT) as [_ [Hb [_ Hreach]]].
  apply (bits_ext Hb HA). intros i j Hi Hj.
  rewrite (Hreach i j Hi Hj).
  now apply (cover_generates HA Hclosed Hacyc _ Hcov).
Qed.

Lemma completion_of_reduction_witness :
  let A := [[0; 0; 0]; [1; 0; 0]; [1; 1; 0]] in
  MatrixUtils.transitive_completion 3 (MatrixUtils.transitive_reduction A None)
  = Some (Ok A).
Proof.
  intros A.
  assert (Hbits : is_bits 3 A).
  { split; [split; [reflexivity | repeat constructor]|].
    intros i j Hi Hj.
    destruct i as [|[|[|i]]]; try lia; destruct j as [|[|[|j]]]; try lia;
      simpl; auto. }
  assert (Hedge : forall i j, (i < 3)%nat -> (j < 3)%nat ->
            get 0 A i j = 1 -> (j < i)%nat).
  { intros i j Hi Hj.
    destruct i as [|[|[|i]]]; try lia; destruct j as [|[|[|j]]]; try lia;
      simpl; intros E; try discriminate E; lia. }
  apply (@completion_of_reduction A 3 3); auto.
  - intros i k j Hi Hk Hj.
    destruct i as [|[|[|i]]]; try lia; destruct k as [|[|[|k]]]; try lia;
      destruct j as [|[|[|j]]]; try lia; simpl; auto.
  - assert (Hdown : forall i j, reach A 3 i j -> (j < i)%nat).
    { induction 1 as [i j Hi Hj E | i k j Hik IH Hj E].
      - now apply Hedge.
      - destruct (reach_bounds Hik) as [_ Hk].
        specialize (Hedge k j Hk Hj E). lia. }
    intros i H. specialize (Hdown i i H). lia.
Defined.

(** * Path graphs *)

Section PathGraph.
Variable n : nat.
Variables pos inv : nat -> nat.
Hypothesis labelling : is_labelling n pos inv.

Lemma pos_lt (i : nat) : (i < n)%nat -> (pos i < n)%nat.
Proof. intros Hi. now apply labelling. Qed.

Lemma pos_injective (i j : nat) :
  (i < n)%nat -> (j < n)%nat -> pos i = pos j -> i = j.
Proof.
  intros Hi Hj E. destruct labelling as [Hpos _].
  destruct (Hpos i Hi) as [_ <-], (Hpos j Hj) as [_ <-]. now rewrite E.
Qed.

Lemma shape_shift (m : nat) : shape n n (shift n pos m).
Proof. apply shape_tabulate. Qed.

Lemma shape_lengths_below (m : nat) : shape n n (lengths_below n pos m).
Proof. apply shape_tabulate. Qed.

Lemma dot_shift (m : nat) :
  dot (shift n pos m) (path_adj n pos) = shift n pos (S m).
Proof.
  unfold path_adj.
  rewrite (dot_square (shape_shift m) (shape_shift 1)).
  apply shape_ext with (d := 0) (n := n) (m := n); try apply shape_tabulate.
  intros i j Hi Hj. unfold shift. rewrite !get_tabulate by auto.
  pose proof (pos_lt Hi) as Hpi. pose proof (pos_lt Hj) as Hpj.
  destruct (Nat.eqb_spec (pos i) (pos j + S m)) as [E|E].
  - destruct labelling as [_ Hinv].
    destruct (Hinv (S (pos j)) ltac:(lia)) as [Hc Epc].
    rewrite sum_upto_single with (c := inv (S (pos j))).
    + rewrite !get_tabulate by auto. rewrite Epc.
      destruct (Nat.eqb_spec (pos i) (S (pos j) + m)),
        (Nat.eqb_spec (S (pos j)) (pos j + 1)); lia.
    + exact Hc.
    + intros k Hk Hne. rewrite !get_tabulate by auto.
      destruct (Nat.eqb_spec (pos k) (pos j + 1)) as [Ek|Ek]; [|lia].
      exfalso. apply Hne. apply pos_injective; auto. lia.
  - apply sum_upto_zero. intros k Hk. rewrite !get_tabulate by auto.
    destruct (Nat.eqb_spec (pos i) (pos k + m)),
      (Nat.eqb_spec (pos k) (pos j + 1)); lia.
Qed.

Lemma sum_shift (m : nat) :
  (0 <? Np.sum (shift n pos m)) = (m <? n)%nat.
Proof.
  assert (H := @sum_positive n n (shift n pos m) (shape_shift m)).
  assert (Hnn : forall i j, (i < n)%nat -> (j < n)%nat ->
            0 <= get 0 (shift n pos m) i j).
  { intros i j Hi Hj. unfold shift. rewrite get_tabulate by auto.
    destruct (pos i =? pos j + m)%nat; lia. }
  specialize (H Hnn). destruct (Nat.ltb_spec m n) as [Hm|Hm].
  - apply H. destruct labelling as [_ Hinv].
    destruct (Hinv m Hm) as [Hi Ei], (Hinv 0%nat ltac:(lia)) as [Hj Ej].
    exists (inv m), (inv 0%nat). repeat split; auto.
    unfold shift. rewrite get_tabulate by auto. rewrite Ei, Ej. simpl.
    rewrite Nat.eqb_refl. lia.
  - destruct (0 <? Np.sum (shift n pos m)) eqn:E; auto.
    destruct H as [H _]. destruct (H eq_refl) as [i [j [Hi [Hj Hpos]]]].
    unfold shift in Hpos. rewrite get_tabulate in Hpos by auto.
    pose proof (pos_lt Hi).
    destruct (Nat.eqb_spec (pos i) (pos j + m)); lia.
Qed.

Lemma zeros_lengths_below : zeros n n = lengths_below n pos 1.
Proof.
  apply shape_ext with (d := 0) (n := n) (m := n); try apply shape_tabulate.
  intros i j Hi Hj. unfold zeros, lengths_below, path_length.
  rewrite !get_tabulate by auto.
  destruct (Nat.ltb_spec (pos j) (pos i)); simpl; auto.
  destruct (Z.ltb_spec (Z.of_nat (pos i - pos j)) 1); lia.
Qed.

(** Taking in the paths of [m] edges. *)
Lemma maximum_lengths_below (m : nat) :
  (1 <= m)%nat ->
  maximum (lengths_below n pos m) (scale (Z.of_nat m) (sign (shift n pos m)))
  = lengths_below n pos (S m).
Proof.
  intros Hm. unfold maximum, scale, sign.
  apply shape_ext with (d := 0) (n := n) (m := n).
  - apply shape_map2_matrix; [apply shape_tabulate|].
    apply shape_map_matrix, shape_map_matrix, shape_tabulate.
  - apply shape_tabulate.
  - intros i j Hi Hj.
    rewrite (get_map2_matrix Z.max 0 0 0 (n := n) (m := n));
      auto using shape_lengths_below, shape_map_matrix, shape_shift.
    rewrite (get_map_matrix (Z.mul (Z.of_nat m)) 0 0 (n := n) (m := n));
      auto using shape_map_matrix, shape_shift.
    rewrite (get_map_matrix Z.sgn 0 0 (n := n) (m := n));
      auto using shape_shift.
    unfold lengths_below, shift, path_length. rewrite !get_tabulate by auto.
    destruct (Nat.eqb_spec (pos i) (pos j + m)),
      (Nat.ltb_spec (pos j) (pos i)); simpl; split_ltb; lia.
Qed.

Lemma lengths_below_all (m : nat) :
  (n <= m)%nat -> lengths_below n pos m = lengths_below n pos n.
Proof.
  intros Hm.
  apply shape_ext with (d := 0) (n := n) (m := n); try apply shape_tabulate.
  intros i j Hi Hj. unfold lengths_below, path_length.
  rewrite !get_tabulate by auto. pose proof (pos_lt Hi).
  destruct (Nat.ltb_spec (pos j) (pos i)); simpl; split_ltb; lia.
Qed.

Lemma get_lengths_below_all (i j : nat) :
  (i < n)%nat -> (j < n)%nat ->
  get 0 (lengths_below n pos n) i j = path_length pos i j.
Proof.
  intros Hi Hj. unfold lengths_below. rewrite get_tabulate by auto.
  unfold path_length. pose proof (pos_lt Hi).
  destruct (Nat.ltb_spec (pos j) (pos i)); split_ltb; lia.
Qed.

(** The loop of matrix_utils from pass [m] on, cut at [k <= n]. *)
Lemma matrix_utils_loop_path (k : nat) (fuel m : nat) :
  (1 <= m)%nat -> (m < k)%nat -> (k <= n)%nat -> (k - m <= fuel)%nat ->
  MatrixUtils.longest_path_loop fuel (path_adj n pos) (Z.of_nat k)
    (lengths_below n pos m) (shift n pos m) (Z.of_nat m)
  = Some (lengths_below n pos k).
Proof.
  revert m. induction fuel as [|fuel IH]; intros m H1 Hmk Hkn Hfuel; [lia|].
  simpl. rewrite sum_shift. destruct (Nat.ltb_spec m n); [|lia].
  fold (maximum (lengths_below n pos m)
          (scale (Z.of_nat m) (sign (shift n pos m)))).
  rewrite maximum_lengths_below by auto. rewrite dot_shift.
  replace (Z.of_nat m + 1) with (Z.of_nat (S m)) by lia.
  destruct (Z.eqb_spec (Z.of_nat (S m)) (Z.of_nat k)) as [E|E].
  - apply Nat2Z.inj in E. now rewrite E.
  - apply IH; lia.
Qed.

(** The loop of dagsep from pass [m] on, cut at [k <= n]. *)
Lemma dagsep_loop_path (k : nat) (fuel m : nat) :
  (1 <= m)%nat -> (m < k)%nat -> (k <= n)%nat -> (k - m <= fuel)%nat ->
  Dagsep.longest_path_loop fuel (path_adj n pos) (Some (Z.of_nat k))
    (lengths_below n pos m) (shift n pos m) (Z.of_nat m)
  = Some (lengths_below n pos k).
Proof.
  revert m. induction fuel as [|fuel IH]; intros m H1 Hmk Hkn Hfuel; [lia|].
  simpl. rewrite sum_shift. destruct (Nat.ltb_spec m n); [|lia].
  fold (maximum (lengths_below n pos m)
          (scale (Z.of_nat m) (sign (shift n pos m)))).
  rewrite maximum_lengths_below by auto. rewrite dot_shift.
  replace (Z.of_nat m + 1) with (Z.of_nat (S m)) by lia.
  destruct (Z.eqb_spec (Z.of_nat k) 0); [lia|]. cbn [negb andb].
  destruct (Z.eqb_spec (Z.of_nat (S m)) (Z.of_nat k)) as [E|E].
  - apply Nat2Z.inj in E. now rewrite E.
  - apply IH; lia.
Qed.

(** The loop of dagsep without a cutoff. *)
Lemma dagsep_loop_path_uncut (fuel m : nat) :
  (1 <= m)%nat -> (n - m < fuel)%nat ->
  Dagsep.longest_path_loop fuel (path_adj n pos) None
    (lengths_below n pos m) (shift n pos m) (Z.of_nat m)
  = Some (lengths_below n pos n).
Proof.
  revert m. induction fuel as [|fuel IH]; intros m H1 Hfuel; [lia|].
  simpl. rewrite sum_shift. destruct (Nat.ltb_spec m n).
  - fold (maximum (lengths_below n pos m)
            (scale (Z.of_nat m) (sign (shift n pos m)))).
    rewrite maximum_lengths_below by auto. rewrite dot_shift.
    replace (Z.of_nat m + 1) with (Z.of_nat (S m)) by lia.
    apply IH; lia.
  - f_equal. now apply lengths_below_all.
Qed.
End PathGraph.

(** C2, refuted: on the path graph with 4 nodes (diameter 3) and
    [dmax = 2], the pair at distance 3 is reported as 0, not as 2. *)
Lemma cutoff_does_not_saturate :
  let A := path_adj 4 (fun i => i) in
  path_length (fun i => i) 3 0 = 3 /\
  Dagsep.longest_path_matrix 5 A None
    = Some [[0; 0; 0; 0]; [1; 0; 0; 0]; [2; 1; 0; 0]; [3; 2; 1; 0]] /\
  forall fuel LP,
    MatrixUtils.longest_path_matrix fuel A (Some 2) = Some LP \/
    Dagsep.longest_path_matrix fuel A (Some 2) = Some LP ->
    get 0 LP 3%nat 0%nat = 0 /\ get 0 LP 3%nat 0%nat <> 2.
Proof.
  intros A. split; [reflexivity|]. split; [reflexivity|].
  intros fuel LP [H|H]; (destruct fuel as [|fuel]; [discriminate|]);
    vm_compute in H; inversion H; subst LP; (split; [reflexivity|discriminate]).
Qed.

(** C2, amended: on a path graph with [n] nodes, labelled in any order,
    and a cutoff [2 <= k] below the diameter [n - 1], both
    [longest_path_matrix] return the matrix that keeps every true length
    below [k] and holds 0 wherever the true length exceeds [k].  The true
    lengths are what the call without a cutoff returns: the distance along
    the path. *)
Theorem cutoff_on_path_graph (n : nat) (pos inv : nat -> nat) (k : Z) (fuel : nat) :
  is_labelling n pos inv ->
  2 <= k -> k < Z.of_nat n - 1 -> (Z.to_nat k <= fuel)%nat ->
  exists LP_true LP_cut,
    Dagsep.longest_path_matrix (S n) (path_adj n pos) None = Some LP_true /\
    MatrixUtils.longest_path_matrix (S n) (path_adj n pos) None = Some LP_true /\
    (forall i j, (i < n)%nat -> (j < n)%nat ->
       get 0 LP_true i j = path_length pos i j) /\
    MatrixUtils.longest_path_matrix fuel (path_adj n pos) (Some k) = Some LP_cut /\
    Dagsep.longest_path_matrix fuel (path_adj n pos) (Some k) = Some LP_cut /\
    forall i j, (i < n)%nat -> (j < n)%nat ->
      (get 0 LP_true i j < k -> get 0 LP_cut i j = get 0 LP_true i j) /\
      (k < get 0 LP_true i j -> get 0 LP_cut i j = 0).
Proof.
  intros Hlab Hk2 Hkn Hfuel.
  remember (Z.to_nat k) as kn eqn:Ekn.
  assert (Ek : k = Z.of_nat kn) by lia. clear Ekn. subst k.
  exists (lengths_below n pos n), (lengths_below n pos kn).
  assert (Hrows : nrows (path_adj n pos) = n)
    by (apply (nrows_shape (shape_shift n pos 1))).
  unfold Dagsep.longest_path_matrix, MatrixUtils.longest_path_matrix.
  rewrite Hrows, (zeros_lengths_below n pos). unfold path_adj at 2 4 6 8.
  change 1 with (Z.of_nat 1).
  split; [apply (dagsep_loop_path_uncut Hlab); lia|].
  split; [apply (matrix_utils_loop_path Hlab); lia|].
  split; [apply (get_lengths_below_all Hlab)|].
  split; [apply (matrix_utils_loop_path Hlab); lia|].
  split; [apply (dagsep_loop_path Hlab); lia|].
  intros i j Hi Hj. rewrite (get_lengths_below_all Hlab Hi Hj).
  unfold lengths_below. rewrite get_tabulate by auto.
  destruct (Z.ltb_spec (path_length pos i j) (Z.of_nat kn)); split; auto; lia.
Qed.

(** The path [4 -> 3 -> 2 -> 1 -> 0], cut at 3. *)
Lemma cutoff_on_path_graph_witness :
  let pos := fun i => (4 - i)%nat in
  exists LP_true LP_cut,
    Dagsep.longest_path_matrix 6 (path_adj 5 pos) None = Some LP_true /\
    MatrixUtils.longest_path_matrix 6 (path_adj 5 pos) None = Some LP_true /\
    (forall i j, (i < 5)%nat -> (j < 5)%nat ->
       get 0 LP_true i j = path_length pos i j) /\
    MatrixUtils.longest_path_matrix 3 (path_adj 5 pos) (Some 3) = Some LP_cut /\
    Dagsep.longest_path_matrix 3 (path_adj 5 pos) (Some 3) = Some LP_cut /\
    forall i j, (i < 5)%nat -> (j < 5)%nat ->
      (get 0 LP_true i j < 3 -> get 0 LP_cut i j = get 0 LP_true i j) /\
      (3 < get 0 LP_true i j -> get 0 LP_cut i j = 0).
Proof.
  intros pos. apply (@cutoff_on_path_graph 5 pos pos 3 3); try (simpl; lia).
  split; intros i Hi; unfold pos; split; lia.
Defined.

(** * Further properties of causet_adj_matrix *)

Section ForEachOutcomes.
Variables S X : Type.

Lemma for_each_ok_each (body : S -> X -> result S) (l : list X) (s s' : S) :
  for_each l body s = Ok s' ->
  forall x, In x l -> exists s1 s2, body s1 x = Ok s2.
Proof.
  revert s. induction l as [|y l IH]; intros s Hrun x Hx; [contradiction|].
  simpl in Hrun. destruct (body s y) as [s1|e] eqn:E; simpl in Hrun;
    [|discriminate].
  destruct Hx as [->|Hx]; eauto.
Qed.

Lemma for_each_raise (body : S -> X -> result S) (l : list X) (s : S) (e : exn) :
  for_each l body s = Raise e ->
  exists x s1, In x l /\ body s1 x = Raise e.
Proof.
  revert s. induction l as [|y l IH]; intros s Hrun; [discriminate|].
  simpl in Hrun. destruct (body s y) as [s1|e'] eqn:E; simpl in Hrun.
  - destruct (IH _ Hrun) as [x [s2 [Hx Hb]]]. exists x, s2. split; auto.
    now right.
  - inversion Hrun; subst e'. exists y, s. split; auto. now left.
Qed.
End ForEachOutcomes.

Section CausetOutcome.
Import MatrixUtils.
Variables S R : matrix Q.

Lemma get_checked_raise (T : Type) (M : matrix T) (i j : nat) (e : exn) :
  get_checked M i j = Raise e -> e = IndexError.
Proof.
  unfold get_checked. destruct (nth_error M i) as [r|];
    [destruct (nth_error r j)|]; intros H; inversion H; auto.
Qed.

Lemma causet_only_index_error (e : exn) :
  causet_adj_matrix S R = Raise e -> e = IndexError.
Proof.
  unfold causet_adj_matrix. intros H.
  destruct (for_each_raise _ _ _ H) as [i [A1 [_ Hrow]]].
  destruct (for_each_raise _ _ _ Hrow) as [j [A2 [_ Hbody]]].
  destruct (get_checked R i 0) as [ri|e1] eqn:Ei; simpl in Hbody;
    [|inversion Hbody; subst; now apply get_checked_raise in Ei].
  destruct (get_checked R j 0) as [rj|e2] eqn:Ej; simpl in Hbody;
    [|inversion Hbody; subst; now apply get_checked_raise in Ej].
  destruct (Qltb rj ri); [|discriminate].
  destruct (get_checked S i j) as [sv|e3] eqn:Es; simpl in Hbody;
    [|inversion Hbody; subst; now apply get_checked_raise in Es].
  destruct (Qltb sv 0%Q); discriminate.
Qed.

Lemma causet_ok_reads (A : matrix Z) :
  causet_adj_matrix S R = Ok A -> reads_in_range S R.
Proof.
  unfold causet_adj_matrix. intros H.
  assert (Hbody : forall i j, (i < nrows S)%nat -> (j < nrows S)%nat ->
    exists ri rj, get_checked R i 0 = Ok ri /\ get_checked R j 0 = Ok rj /\
      (Qltb rj ri = true -> exists sv, get_checked S i j = Ok sv)).
  { intros i j Hi Hj.
    destruct (for_each_ok_each _ _ _ H i) as [A1 [A2 Hrow]];
      [apply in_seq; lia|].
    destruct (for_each_ok_each _ _ _ Hrow j) as [A3 [A4 Hb]];
      [apply in_seq; lia|].
    destruct (get_checked R i 0) as [ri|] eqn:Ei; simpl in Hb; [|discriminate].
    destruct (get_checked R j 0) as [rj|] eqn:Ej; simpl in Hb; [|discriminate].
    exists ri, rj. split; auto. split; auto. intros Hlt. rewrite Hlt in Hb.
    destruct (get_checked S i j) as [sv|]; simpl in Hb; [eauto|discriminate]. }
  split.
  - intros i Hi. destruct (Hbody i i Hi Hi) as [ri [_ [E _]]]. eauto.
  - intros i j Hi Hj Hlt. destruct (Hbody i j Hi Hj) as [ri [rj [Ei [Ej Hs]]]].
    apply Hs. apply get_checked_get with (d := 0%Q) in Ei, Ej.
    now rewrite <- Ei, <- Ej.
Qed.

Lemma causet_reads_ok :
  reads_in_range S R -> causet_adj_matrix S R = Ok (causet_closed_form S R).
Proof.
  intros [HR HS]. unfold causet_adj_matrix. set (N := nrows S) in *.
  set (c := fun i j =>
    Qltb (get 0%Q R j 0) (get 0%Q R i 0) && Qltb (get 0%Q S i j) 0%Q).
  rewrite for_each_total with
    (g := fun A i => fold_left (fun A j => if c i j then set A i j 1 else A)
                       (seq 0 N) A).
  - f_equal.
    destruct (@rows_of_writes N c (seq 0 N) (zeros N N)) as [Hsh Hget].
    + intros i Hi. apply in_seq in Hi. lia.
    + apply shape_tabulate.
    + apply shape_ext with (d := 0) (n := N) (m := N); auto.
      { apply shape_tabulate. }
      intros i j Hi Hj. rewrite (Hget i j Hi Hj).
      unfold causet_closed_form. fold N. rewrite get_tabulate by auto.
      rewrite existsb_eqb_seq. simpl.
      destruct (Nat.ltb_spec i N); [|lia]. simpl. fold (c i j).
      destruct (c i j); auto. unfold zeros. now rewrite get_tabulate.
  - intros A i Hi. apply in_seq in Hi. apply for_each_total.
    intros A' j Hj. apply in_seq in Hj.
    destruct (HR i ltac:(lia)) as [ri Ei], (HR j ltac:(lia)) as [rj Ej].
    rewrite Ei, Ej. simpl.
    apply get_checked_get with (d := 0%Q) in Ei, Ej. subst ri rj. unfold c.
    destruct (Qltb (get 0%Q R j 0) (get 0%Q R i 0)) eqn:Elt; simpl; auto.
    destruct (HS i j ltac:(lia) ltac:(lia) Elt) as [sv Es]. rewrite Es. simpl.
    apply get_checked_get with (d := 0%Q) in Es. subst sv.
    now destruct (Qltb (get 0%Q S i j) 0%Q).
Qed.
End CausetOutcome.

(** X1: [causet_adj_matrix] returns normally exactly when the entries it
    reads exist: every [R[i,0]] and the [S[i,j]] with [R[i,0] > R[j,0]]
    (the other entries of [S] are never read).  It then returns the matrix
    of the two comparisons; otherwise it raises [IndexError], the only
    exception it can raise. *)
Theorem causet_adj_matrix_outcome (S R : matrix Q) :
  (reads_in_range S R ->
   MatrixUtils.causet_adj_matrix S R = Ok (causet_closed_form S R)) /\
  (~ reads_in_range S R ->
   MatrixUtils.causet_adj_matrix S R = Raise IndexError) /\
  (forall A, MatrixUtils.causet_adj_matrix S R = Ok A -> reads_in_range S R).
Proof.
  split; [apply causet_reads_ok|]. split; [|apply causet_ok_reads].
  intros Hno. destruct (MatrixUtils.causet_adj_matrix S R) as [A|e] eqn:E.
  - exfalso. apply Hno. now apply causet_ok_reads with (A := A).
  - f_equal. now apply causet_only_index_error with (S := S) (R := R).
Qed.

(** One coordinate row for two nodes: the read of [R[1,0]] fails.  A
    ragged [S] whose missing entry lies where [R[i,0] <= R[j,0]] is
    accepted. *)
Lemma causet_adj_matrix_outcome_witness :
  MatrixUtils.causet_adj_matrix [[0; 0]; [0; 0]]%Q [[0]]%Q = Raise IndexError /\
  MatrixUtils.causet_adj_matrix [[0]; [-1; 0]]%Q [[0]; [1]]%Q
    = Ok [[0; 0]; [1; 0]].
Proof.
  split.
  - apply (@causet_adj_matrix_outcome [[0; 0]; [0; 0]]%Q [[0]]%Q).
    intros [HR _]. destruct (HR 1%nat) as [v Hv]; [simpl; lia|]. discriminate.
  - apply (@causet_adj_matrix_outcome [[0]; [-1; 0]]%Q [[0]; [1]]%Q).
    split.
    + intros i Hi. simpl in Hi.
      destruct i as [|[|i]]; try lia; eexists; reflexivity.
    + intros i j Hi Hj. simpl in Hi, Hj.
      destruct i as [|[|i]]; try lia; destruct j as [|[|j]]; try lia;
        intros H; try discriminate H; eexists; reflexivity.
Defined.

(** [causet_adj_matrix] orders its edges by time. *)
Lemma causet_reach_order (S R : matrix Q) (A : matrix Z) (a b : nat) :
  MatrixUtils.causet_adj_matrix S R = Ok A ->
  reach A (nrows S) a b ->
  MatrixUtils.Qltb (get 0%Q R b 0) (get 0%Q R a 0) = true.
Proof.
  intros Hrun. destruct (causet_inv_run _ _ Hrun) as [_ Hcells].
  induction 1 as [a b Ha Hb E | a k b Hak IH Hb E].
  - destruct (Hcells a b Ha Hb) as [H0|[_ H1]]; [lia | exact H1].
  - destruct (reach_bounds Hak) as [_ Hk].
    destruct (Hcells k b Hk Hb) as [H0|[_ H1]]; [lia|].
    apply Qltb_lt. apply Qltb_lt in IH, H1. eapply Qlt_trans; eauto.
Qed.

(** X2: the matrix [causet_adj_matrix] returns is always a DAG: a 0/1
    matrix without a directed cycle, whatever the separations say; so
    [transitive_completion] returns its closure without an error as soon
    as there is a node. *)
Theorem causet_adj_matrix_is_dag (S R : matrix Q) (A : matrix Z) :
  MatrixUtils.causet_adj_matrix S R = Ok A ->
  is_bits (nrows S) A /\ acyclic (nrows S) A /\
  ((1 <= nrows S)%nat ->
   exists T, MatrixUtils.transitive_completion (nrows S) A = Some (Ok T)).
Proof.
  intros Hrun. destruct (causet_inv_run _ _ Hrun) as [Hsh Hcells].
  assert (Hbits : is_bits (nrows S) A).
  { split; auto. intros i j Hi Hj. destruct (Hcells i j Hi Hj); tauto. }
  split; [exact Hbits|]. split.
  - intros i Hr. apply (@causet_reach_order S R A i i Hrun) in Hr.
    exact (Qltb_asym _ _ Hr Hr).
  - intros HN. apply (transitive_completion_total Hbits HN (le_n _)).
Qed.

Lemma causet_adj_matrix_is_dag_witness :
  let S := [[0; -1]; [-1; 0]]%Q in
  let R := [[0]; [1]]%Q in
  let A := [[0; 0]; [1; 0]] in
  is_bits 2 A /\ acyclic 2 A /\
  ((1 <= 2)%nat ->
   exists T, MatrixUtils.transitive_completion 2 A = Some (Ok T)).
Proof.
  intros S R A. apply (@causet_adj_matrix_is_dag S R A). reflexivity.
Defined.

(** * Walks and powers *)

Section Walks.
Variable A : matrix Z.
Variable N : nat.

Lemma walk_bounds (m i j : nat) :
  walk A N m i j -> (1 <= m)%nat /\ (i < N)%nat /\ (j < N)%nat.
Proof. induction 1; repeat split; tauto || lia. Qed.

Lemma walk_reach (m i j : nat) : walk A N m i j -> reach A N i j.
Proof.
  induction 1 as [i j Hi Hj E | m i k j Hw IH Hj E].
  - now apply reach_edge.
  - now apply reach_step with (k := k).
Qed.

Lemma reach_walk (i j : nat) : reach A N i j -> exists m, walk A N m i j.
Proof.
  induction 1 as [i j Hi Hj E | i k j Hr [m IH] Hj E].
  - exists 1%nat. now apply walk_edge.
  - exists (S m). now apply walk_step with (k := k).
Qed.

Lemma walk_one (i j : nat) : walk A N 1 i j -> get 0 A i j = 1.
Proof.
  intros H. inversion H as [? ? ? ? E | m ? k ? Hw ? E]; subst; auto.
  destruct (walk_bounds Hw). lia.
Qed.

Lemma walk_last (m i j : nat) :
  walk A N (S m) i j -> (1 <= m)%nat ->
  exists k, walk A N m i k /\ get 0 A k j = 1.
Proof.
  intros H Hm. inversion H as [? ? ? ? E | m' ? k ? Hw ? E]; subst; [lia|].
  eauto.
Qed.



End Walks.

Section Powers.
Variable A : matrix Z.
Variable N : nat.
Hypothesis A_bits : is_bits N A.

Lemma matrix_power_S (m : nat) :
  (1 <= m)%nat -> matrix_power A (S m) = dot (matrix_power A m) A.
Proof.
  intros Hm. unfold matrix_power.
  replace (S m - 1)%nat with (S (m - 1)) by lia. reflexivity.
Qed.

(** The entries of the [m]-th power count walks of [m] edges. *)
Lemma matrix_power_walk (m : nat) :
  (1 <= m)%nat ->
  shape N N (matrix_power A m) /\
  forall i j, (i < N)%nat -> (j < N)%nat ->
    0 <= get 0 (matrix_power A m) i j /\
    (0 < get 0 (matrix_power A m) i j <-> walk A N m i j).
Proof.
  destruct A_bits as [Hsh Hb].
  induction m as [|m IH]; intros Hm; [lia|].
  destruct (Nat.eq_dec m 0) as [->|Hne].
  - unfold matrix_power. simpl. split; auto.
    intros i j Hi Hj. destruct (Hb i j Hi Hj) as [E|E]; rewrite E.
    + split; [lia|]. split; [lia|]. intros Hw. apply walk_one in Hw. lia.
    + split; [lia|]. split; [|lia]. intros _. now apply walk_edge.
  - destruct (IH ltac:(lia)) as [HshP HP].
    rewrite matrix_power_S by lia.
    split; [now apply shape_dot|].
    intros i j Hi Hj. rewrite (get_dot HshP Hsh Hi Hj).
    assert (Hnn : forall k, (k < N)%nat ->
              0 <= get 0 (matrix_power A m) i k * get 0 A k j).
    { intros k Hk. destruct (HP i k Hi Hk) as [H0 _].
      destruct (Hb k j Hk Hj) as [->| ->]; lia. }
    split; [now apply sum_upto_nonneg|].
    rewrite (sum_upto_pos _ Hnn). split.
    + intros [k [Hk Hpos]]. destruct (HP i k Hi Hk) as [H0 Hw].
      destruct (Hb k j Hk Hj) as [E|E]; rewrite E in Hpos; [lia|].
      apply walk_step with (k := k); auto. apply Hw. lia.
    + intros Hw. destruct (walk_last Hw ltac:(lia)) as [k [Hwk E]].
      destruct (walk_bounds Hwk) as [_ [_ Hk]].
      exists k. split; auto. destruct (HP i k Hi Hk) as [_ Hiff].
      apply Hiff in Hwk. rewrite E. lia.
Qed.

(** [np.sum(B) > 0] in pass [m]: some walk of [m] edges exists. *)
Lemma sum_matrix_power (m : nat) :
  (1 <= m)%nat ->
  ((0 <? Np.sum (matrix_power A m)) = true <-> exists i j, walk A N m i j).
Proof.
  intros Hm. destruct (matrix_power_walk Hm) as [Hsh HP].
  rewrite (sum_positive Hsh (fun i j Hi Hj => proj1 (HP i j Hi Hj))).
  split.
  - intros [i [j [Hi [Hj Hpos]]]]. exists i, j. now apply HP.
  - intros [i [j Hw]]. destruct (walk_bounds Hw) as [_ [Hi Hj]].
    exists i, j. repeat split; auto. now apply HP.
Qed.
End Powers.

(** * The loop of longest_path_matrix *)

Section LongestPathLoop.
Variable A : matrix Z.
Variable N : nat.
Hypothesis A_bits : is_bits N A.

(** dagsep's test [dmax and (i == dmax)] is matrix_utils' test [i == dmax]
    with 0 for an absent cutoff: the counter is at least 2 when tested. *)
Lemma dagsep_loop_as_matrix_utils (fuel : nat) (dmax : option Z)
  (LP B : matrix Z) (i : Z) :
  1 <= i ->
  Dagsep.longest_path_loop fuel A dmax LP B i =
  MatrixUtils.longest_path_loop fuel A
    (match dmax with Some k => k | None => 0 end) LP B i.
Proof.
  revert LP B i. induction fuel as [|fuel IH]; intros LP B i Hi; auto.
  simpl. destruct (0 <? Np.sum B); auto.
  rewrite IH by lia. destruct dmax as [k|]; simpl.
  - destruct (Z.eqb_spec k 0) as [->|Hk]; simpl; auto.
    destruct (Z.eqb_spec (i + 1) 0); auto; lia.
  - destruct (Z.eqb_spec (i + 1) 0); auto; lia.
Qed.

Lemma longest_below_start : longest_below A N 1 (zeros N N).
Proof.
  split; [apply shape_tabulate|]. intros i j Hi Hj.
  unfold zeros. rewrite get_tabulate by auto. split; [now left|].
  intros t Ht Hw. destruct (walk_bounds Hw). lia.
Qed.

(** One pass takes in the walks of [m] edges. *)
Lemma longest_below_step (m : nat) (LP : matrix Z) :
  (1 <= m)%nat -> longest_below A N m LP ->
  longest_below A N (S m)
    (maximum LP (scale (Z.of_nat m) (sign (matrix_power A m)))).
Proof.
  intros Hm [Hsh HLP]. destruct (matrix_power_walk A_bits Hm) as [HshP HP].
  unfold maximum, scale, sign. split.
  - apply shape_map2_matrix; auto.
    now apply shape_map_matrix, shape_map_matrix.
  - intros i j Hi Hj.
    rewrite (get_map2_matrix Z.max 0 0 0 (n := N) (m := N));
      auto using shape_map_matrix.
    rewrite (get_map_matrix (Z.mul (Z.of_nat m)) 0 0 (n := N) (m := N));
      auto using shape_map_matrix.
    rewrite (get_map_matrix Z.sgn 0 0 (n := N) (m := N)); auto.
    destruct (HP i j Hi Hj) as [Hnn Hiff].
    destruct (HLP i j Hi Hj) as [Hval Hbound].
    destruct (Z.eq_dec (get 0 (matrix_power A m) i j) 0) as [E|E].
    + rewrite E. simpl. rewrite Z.mul_0_r.
      assert (Hno : ~ walk A N m i j) by (intros Hw; apply Hiff in Hw; lia).
      split.
      * destruct Hval as [H0|[t [Ht [Et Hw]]]].
        -- left. rewrite H0. reflexivity.
        -- right. exists t. split; [lia|]. split; auto. lia.
      * intros t Ht Hw. destruct (Nat.eq_dec t m) as [->|Hne];
          [contradiction|].
        specialize (Hbound t ltac:(lia) Hw). lia.
    + rewrite Z.sgn_pos by lia. rewrite Z.mul_1_r.
      assert (Hw : walk A N m i j) by (apply Hiff; lia).
      assert (Hmax : Z.max (get 0 LP i j) (Z.of_nat m) = Z.of_nat m).
      { destruct Hval as [H0|[t [Ht [Et _]]]]; lia. }
      rewrite Hmax. split.
      * right. exists m. split; [lia|]. auto.
      * intros t Ht _. lia.
Qed.

(** What a returning run of the loop leaves in [LP]. *)
Lemma longest_path_loop_sound (dmax : Z) (fuel m : nat) (LP LP' : matrix Z) :
  (1 <= m)%nat -> longest_below A N m LP ->
  MatrixUtils.longest_path_loop fuel A dmax LP (matrix_power A m) (Z.of_nat m)
    = Some LP' ->
  exists m', (m <= m')%nat /\ longest_below A N m' LP' /\
    ((forall i j, ~ walk A N m' i j) \/ ((m < m')%nat /\ Z.of_nat m' = dmax)) /\
    (Z.of_nat m < dmax -> Z.of_nat m' <= dmax).
Proof.
  revert m LP. induction fuel as [|fuel IH]; intros m LP Hm HLP Hrun;
    [discriminate|].
  simpl in Hrun.
  destruct (0 <? Np.sum (matrix_power A m)) eqn:Esum.
  - fold (maximum LP (scale (Z.of_nat m) (sign (matrix_power A m)))) in Hrun.
    rewrite <- (matrix_power_S A Hm) in Hrun.
    replace (Z.of_nat m + 1) with (Z.of_nat (S m)) in Hrun by lia.
    pose proof (longest_below_step Hm HLP) as Hnext.
    destruct (Z.eqb_spec (Z.of_nat (S m)) dmax) as [E|E].
    + inversion Hrun; subst LP'. exists (S m). split; [lia|]. split; auto.
      split; [right; split; [lia|auto] | lia].
    + destruct (IH (S m) _ ltac:(lia) Hnext Hrun) as [m' [Hle [Hb [Hend Hcut]]]].
      exists m'. split; [lia|]. split; auto. split.
      * destruct Hend as [Hno|[Hlt Ed]]; [now left | right; split; [lia|auto]].
      * intros Hlt. apply Hcut. lia.
  - inversion Hrun; subst LP'. exists m. split; [lia|]. split; auto.
    split; [|lia]. left. intros i j Hw.
    assert (H : (0 <? Np.sum (matrix_power A m)) = true)
      by (apply (sum_matrix_power A_bits Hm); eauto).
    congruence.
Qed.


End LongestPathLoop.

(** A cutoff ahead of the counter ends the loop, whatever the matrices. *)
Lemma longest_path_loop_cut (A : matrix Z) (dmax : Z) (fuel : nat)
  (LP B : matrix Z) (i : Z) :
  i < dmax -> (Z.to_nat (dmax - i) <= fuel)%nat ->
  exists LP', MatrixUtils.longest_path_loop fuel A dmax LP B i = Some LP'.
Proof.
  revert LP B i. induction fuel as [|fuel IH]; intros LP B i Hi Hfuel; [lia|].
  simpl. destruct (0 <? Np.sum B); [|eauto].
  destruct (Z.eqb_spec (i + 1) dmax); [eauto|]. apply IH; lia.
Qed.

Section AcyclicBound.
Variable A : matrix Z.
Variable N : nat.
Hypothesis A_bits : is_bits N A.
Hypothesis A_acyclic : acyclic N A.



End AcyclicBound.

Section LongestPathResults.
Variable A : matrix Z.
Variable N : nat.
Hypothesis A_bits : is_bits N A.

Lemma matrix_utils_longest_path_unfold (fuel : nat) (dmax : option Z) :
  MatrixUtils.longest_path_matrix fuel A dmax =
  MatrixUtils.longest_path_loop fuel A
    (match dmax with None => Z.of_nat N | Some v => v end)
    (zeros N N) (matrix_power A 1) (Z.of_nat 1).
Proof.
  unfold MatrixUtils.longest_path_matrix.
  now rewrite (nrows_shape (proj1 A_bits)).
Qed.

Lemma dagsep_longest_path_unfold (fuel : nat) (dmax : option Z) :
  Dagsep.longest_path_matrix fuel A dmax =
  MatrixUtils.longest_path_loop fuel A
    (match dmax with Some k => k | None => 0 end)
    (zeros N N) (matrix_power A 1) (Z.of_nat 1).
Proof.
  unfold Dagsep.longest_path_matrix.
  rewrite (nrows_shape (proj1 A_bits)).
  now rewrite dagsep_loop_as_matrix_utils by lia.
Qed.

Lemma longest_below_values (m : nat) (LP : matrix Z) :
  longest_below A N m LP ->
  shape N N LP /\
  forall i j, (i < N)%nat -> (j < N)%nat ->
    get 0 LP i j = 0 \/
    exists t, (1 <= t)%nat /\ get 0 LP i j = Z.of_nat t /\ walk A N t i j.
Proof.
  intros [Hsh H]. split; auto. intros i j Hi Hj.
  destruct (H i j Hi Hj) as [[E|[t [Ht [E Hw]]]] _]; [now left|].
  right. exists t. split; [lia|]. auto.
Qed.


End LongestPathResults.

Section LongestPathRuns.
Variable A : matrix Z.
Variable N : nat.
Hypothesis A_bits : is_bits N A.

Lemma matrix_utils_longest_path_run (fuel : nat) (dmax : option Z)
  (LP : matrix Z) :
  MatrixUtils.longest_path_matrix fuel A dmax = Some LP ->
  let c := match dmax with None => Z.of_nat N | Some v => v end in
  exists m, (1 <= m)%nat /\ longest_below A N m LP /\
    ((forall i j, ~ walk A N m i j) \/ Z.of_nat m = c) /\
    (1 < c -> Z.of_nat m <= c).
Proof.
  rewrite (matrix_utils_longest_path_unfold A_bits). intros Hrun c.
  destruct (longest_path_loop_sound A_bits _ _ (le_n 1)
              (longest_below_start A N) Hrun) as [m [Hm [Hb [Hend Hcut]]]].
  exists m. split; auto. split; auto. split; [tauto|].
  intros Hc. apply Hcut. simpl. exact Hc.
Qed.

Lemma dagsep_longest_path_run (fuel : nat) (dmax : option Z) (LP : matrix Z) :
  Dagsep.longest_path_matrix fuel A dmax = Some LP ->
  let c := match dmax with Some k => k | None => 0 end in
  exists m, (1 <= m)%nat /\ longest_below A N m LP /\
    ((forall i j, ~ walk A N m i j) \/ Z.of_nat m = c) /\
    (1 < c -> Z.of_nat m <= c).
Proof.
  rewrite (dagsep_longest_path_unfold A_bits). intros Hrun c.
  destruct (longest_path_loop_sound A_bits _ _ (le_n 1)
              (longest_below_start A N) Hrun) as [m [Hm [Hb [Hend Hcut]]]].
  exists m. split; auto. split; auto. split; [tauto|].
  intros Hc. apply Hcut. simpl. exact Hc.
Qed.

(** Either function, any cutoff: a returned entry is 0 or the length of a
    walk. *)
Lemma longest_path_values (fuel : nat) (dmax : option Z) (LP : matrix Z) :
  MatrixUtils.longest_path_matrix fuel A dmax = Some LP \/
  Dagsep.longest_path_matrix fuel A dmax = Some LP ->
  shape N N LP /\
  forall i j, (i < N)%nat -> (j < N)%nat ->
    get 0 LP i j = 0 \/
    exists t, (1 <= t)%nat /\ get 0 LP i j = Z.of_nat t /\ walk A N t i j.
Proof.
  intros [H|H].
  - destruct (matrix_utils_longest_path_run _ _ H) as [m [_ [Hb _]]].
    exact (longest_below_values Hb).
  - destruct (dagsep_longest_path_run _ _ H) as [m [_ [Hb _]]].
    exact (longest_below_values Hb).
Qed.
End LongestPathRuns.

(** X3: whatever the cutoff, an entry either [longest_path_matrix] returns
    for a 0/1 matrix is 0 or the number of edges of an existing walk
    between the pair: a cutoff can lose lengths, never invent one. *)
Theorem longest_path_matrix_lower_bound
  (A : matrix Z) (N fuel : nat) (dmax : option Z) (LP : matrix Z) :
  is_bits N A ->
  MatrixUtils.longest_path_matrix fuel A dmax = Some LP \/
  Dagsep.longest_path_matrix fuel A dmax = Some LP ->
  shape N N LP /\
  forall i j, (i < N)%nat -> (j < N)%nat ->
    get 0 LP i j = 0 \/
    exists t, (1 <= t)%nat /\ get 0 LP i j = Z.of_nat t /\ walk A N t i j.
Proof.
  intros HA H. exact (longest_path_values HA _ _ H).
Qed.

Lemma longest_path_matrix_lower_bound_witness :
  let A := [[0; 0; 0]; [1; 0; 0]; [1; 1; 0]] in
  let LP := [[0; 0; 0]; [1; 0; 0]; [1; 1; 0]] in
  shape 3 3 LP /\
  forall i j, (i < 3)%nat -> (j < 3)%nat ->
    get 0 LP i j = 0 \/
    exists t, (1 <= t)%nat /\ get 0 LP i j = Z.of_nat t /\ walk A 3 t i j.
Proof.
  intros A LP. apply (@longest_path_matrix_lower_bound A 3 2 (Some 2) LP).
  - split; [split; [reflexivity | repeat constructor]|].
    intros i j Hi Hj.
    destruct i as [|[|[|i]]]; try lia; destruct j as [|[|[|j]]]; try lia;
      simpl; auto.
  - left. reflexivity.
Defined.

(** X4: with a cutoff [dmax >= 2] no entry either [longest_path_matrix]
    returns reaches [dmax]: the lengths returned are at most [dmax - 1]. *)
Theorem longest_path_matrix_below_cutoff
  (A : matrix Z) (N fuel : nat) (k : Z) (LP : matrix Z) :
  is_bits N A -> 2 <= k ->
  MatrixUtils.longest_path_matrix fuel A (Some k) = Some LP \/
  Dagsep.longest_path_matrix fuel A (Some k) = Some LP ->
  forall i j, (i < N)%nat -> (j < N)%nat -> 0 <= get 0 LP i j < k.
Proof.
  intros HA Hk H i j Hi Hj.
  assert (Hrun : exists m, longest_below A N m LP /\ Z.of_nat m <= k).
  { destruct H as [H|H].
    - destruct (matrix_utils_longest_path_run HA _ _ H) as [m [_ [Hb [_ Hc]]]].
      exists m. split; auto. apply Hc. lia.
    - destruct (dagsep_longest_path_run HA _ _ H) as [m [_ [Hb [_ Hc]]]].
      exists m. split; auto. apply Hc. lia. }
  destruct Hrun as [m [[_ Hb] Hm]].
  destruct (Hb i j Hi Hj) as [[E|[t [Ht [E _]]]] _]; lia.
Qed.

Lemma longest_path_matrix_below_cutoff_witness :
  let A := [[0; 0; 0]; [1; 0; 0]; [1; 1; 0]] in
  let LP := [[0; 0; 0]; [1; 0; 0]; [1; 1; 0]] in
  MatrixUtils.longest_path_matrix 2 A (Some 2) = Some LP /\
  forall i j, (i < 3)%nat -> (j < 3)%nat -> 0 <= get 0 LP i j < 2.
Proof.
  intros A LP. split; [reflexivity|].
  apply (@longest_path_matrix_below_cutoff A 3 2 2 LP).
  - split; [split; [reflexivity | repeat constructor]|].
    intros i j Hi Hj.
    destruct i as [|[|[|i]]]; try lia; destruct j as [|[|[|j]]]; try lia;
      simpl; auto.
  - lia.
  - left. reflexivity.
Defined.



(** X6: for a DAG, whatever the cutoff, a matrix either
    [longest_path_matrix] returns has a zero diagonal and at most one of
    [LP[i,j]], [LP[j,i]] nonzero. *)
Theorem longest_path_matrix_antisymmetric
  (A : matrix Z) (N fuel : nat) (dmax : option Z) (LP : matrix Z) :
  is_bits N A -> acyclic N A ->
  MatrixUtils.longest_path_matrix fuel A dmax = Some LP \/
  Dagsep.longest_path_matrix fuel A dmax = Some LP ->
  shape N N LP /\
  (forall i, (i < N)%nat -> get 0 LP i i = 0) /\
  (forall i j, (i < N)%nat -> (j < N)%nat ->
     get 0 LP i j = 0 \/ get 0 LP j i = 0).
Proof.
  intros HA Hacyc H. destruct (longest_path_values HA _ _ H) as [Hsh Hval].
  split; auto. split.
  - intros i Hi. destruct (Hval i i Hi Hi) as [E|[t [_ [_ Hw]]]]; auto.
    exfalso. exact (Hacyc i (walk_reach Hw)).
  - intros i j Hi Hj.
    destruct (Hval i j Hi Hj) as [E|[t [_ [_ Hw]]]]; [now left|].
    destruct (Hval j i Hj Hi) as [E'|[t' [_ [_ Hw']]]]; [now right|].
    exfalso. apply (Hacyc i).
    exact (reach_trans (walk_reach Hw) (walk_reach Hw')).
Qed.

Lemma longest_path_matrix_antisymmetric_witness :
  let LP := [[0; 0]; [1; 0]] in
  shape 2 2 LP /\
  (forall i, (i < 2)%nat -> get 0 LP i i = 0) /\
  (forall i j, (i < 2)%nat -> (j < 2)%nat ->
     get 0 LP i j = 0 \/ get 0 LP j i = 0).
Proof.
  intros LP.
  apply (@longest_path_matrix_antisymmetric [[0; 0]; [1; 0]] 2 2 None LP).
  - split; [split; [reflexivity | repeat constructor]|].
    intros i j Hi Hj.
    destruct i as [|[|i]]; try lia; destruct j as [|[|j]]; try lia;
      simpl; auto.
  - assert (Hdown : forall i j, reach [[0; 0]; [1; 0]] 2 i j -> (j < i)%nat).
    { assert (Hedge : forall i j, (i < 2)%nat -> (j < 2)%nat ->
                get 0 [[0; 0]; [1; 0]] i j = 1 -> (j < i)%nat).
      { intros i j Hi Hj.
        destruct i as [|[|i]]; try lia; destruct j as [|[|j]]; try lia;
          simpl; intros E; try discriminate E; lia. }
      induction 1 as [i j Hi Hj E | i k j Hik IH Hj E].
      - now apply Hedge.
      - destruct (reach_bounds Hik) as [_ Hk].
        specialize (Hedge k j Hk Hj E). lia. }
    intros i H. specialize (Hdown i i H). lia.
  - left. reflexivity.
Defined.



(** X8: with a cutoff [dmax >= 2] both [longest_path_matrix] return after
    at most [dmax - 1] passes on every square matrix, cyclic or not; so
    matrix_utils', whose default is [dmax = N], always returns on two nodes
    or more. *)
Theorem longest_path_matrix_cut_returns
  (A : matrix Z) (N : nat) (k : Z) (fuel : nat) :
  shape N N A -> 2 <= k -> (Z.to_nat (k - 1) <= fuel)%nat ->
  (exists LP, MatrixUtils.longest_path_matrix fuel A (Some k) = Some LP) /\
  (exists LP, Dagsep.longest_path_matrix fuel A (Some k) = Some LP) /\
  (k = Z.of_nat N ->
   exists LP, MatrixUtils.longest_path_matrix fuel A None = Some LP).
Proof.
  intros Hsh Hk Hfuel. split; [|split].
  - unfold MatrixUtils.longest_path_matrix. apply longest_path_loop_cut; lia.
  - unfold Dagsep.longest_path_matrix.
    rewrite dagsep_loop_as_matrix_utils by lia.
    apply longest_path_loop_cut; lia.
  - intros ->. unfold MatrixUtils.longest_path_matrix.
    rewrite (nrows_shape Hsh). apply longest_path_loop_cut; lia.
Qed.

(** The two-node cycle under the default cutoff 2. *)
Lemma longest_path_matrix_cut_returns_witness :
  (exists LP, MatrixUtils.longest_path_matrix 1 [[0; 1]; [1; 0]] (Some 2) = Some LP) /\
  (exists LP, Dagsep.longest_path_matrix 1 [[0; 1]; [1; 0]] (Some 2) = Some LP) /\
  (2 = Z.of_nat 2 ->
   exists LP, MatrixUtils.longest_path_matrix 1 [[0; 1]; [1; 0]] None = Some LP).
Proof.
  apply (@longest_path_matrix_cut_returns [[0; 1]; [1; 0]] 2 2 1);
    try (simpl; lia).
  split; [reflexivity | repeat constructor].
Defined.

(** * Further properties of the closure and the reduction *)

Section ClosureFacts.
Variable A : matrix Z.
Variable N : nat.
Hypothesis A_bits : is_bits N A.

Lemma closed_completion_step :
  transitively_closed N A -> MatrixUtils.completion_step A A = A.
Proof.
  intros Hclosed. destruct (completion_step_bits A_bits A_bits) as [Hb Hget].
  apply (bits_ext Hb A_bits). intros i j Hi Hj. rewrite (Hget i j Hi Hj).
  split; [|tauto]. intros [H|[k [Hk [H1 H2]]]]; auto.
  now apply (Hclosed i k j).
Qed.

(** A relation that agrees with reachability in [A] reaches only what [A]
    reaches. *)
Lemma reach_of_closure (T : matrix Z) (i j : nat) :
  (forall a b, (a < N)%nat -> (b < N)%nat ->
     (get 0 T a b = 1 <-> reach A N a b)) ->
  reach T N i j -> reach A N i j.
Proof.
  intros HT. induction 1 as [i j Hi Hj E | i k j Hik IH Hj E].
  - now apply HT.
  - destruct (reach_bounds Hik) as [_ Hk].
    apply reach_trans with (k := k); auto. now apply HT.
Qed.

Lemma closure_closed (T : matrix Z) :
  (forall a b, (a < N)%nat -> (b < N)%nat ->
     (get 0 T a b = 1 <-> reach A N a b)) ->
  transitively_closed N T.
Proof.
  intros HT i k j Hi Hk Hj E1 E2. apply HT; auto.
  apply reach_trans with (k := k); now apply HT.
Qed.

(** The last edge of a path. *)
Lemma reach_last (i j : nat) :
  reach A N i j ->
  get 0 A i j = 1 \/
  exists k, (k < N)%nat /\ reach A N i k /\ get 0 A k j = 1.
Proof.
  intros H. inversion H as [? ? Hi Hj E | ? k ? Hik Hj E]; subst; auto.
  right. exists k. destruct (reach_bounds Hik). auto.
Qed.
End ClosureFacts.

(** X9: the closure tells whether the input was a DAG, which
    [transitive_completion] itself never reports: the input is acyclic
    exactly when the returned matrix has a zero diagonal. *)
Theorem closure_diagonal_detects_cycles
  (A : matrix Z) (N fuel : nat) (T : matrix Z) :
  is_bits N A ->
  MatrixUtils.transitive_completion fuel A = Some (Ok T) ->
  (acyclic N A <-> forall i, (i < N)%nat -> get 0 T i i = 0).
Proof.
  intros HA HT.
  destruct (@transitive_completion_sound N A HA fuel T HT)
    as [_ [[_ Hb] [_ Hreach]]].
  split.
  - intros Hacyc i Hi. destruct (Hb i i Hi Hi) as [E|E]; auto.
    exfalso. apply (Hacyc i). now apply Hreach.
  - intros Hdiag i Hr. destruct (reach_bounds Hr) as [Hi _].
    apply Hreach in Hr; auto. rewrite (Hdiag i Hi) in Hr. discriminate.
Qed.

Lemma closure_diagonal_detects_cycles_witness :
  acyclic 2 [[0; 1]; [1; 0]] <->
  forall i, (i < 2)%nat -> get 0 [[1; 1]; [1; 1]] i i = 0.
Proof.
  apply (@closure_diagonal_detects_cycles [[0; 1]; [1; 0]] 2 2 [[1; 1]; [1; 1]]).
  - split; [split; [reflexivity | repeat constructor]|].
    intros i j Hi Hj.
    destruct i as [|[|i]]; try lia; destruct j as [|[|j]]; try lia;
      simpl; auto.
  - reflexivity.
Defined.

(** X10: the matrix [transitive_completion] returns is the least
    transitively closed relation that contains the input. *)
Theorem transitive_completion_least
  (A : matrix Z) (N fuel : nat) (T : matrix Z) :
  is_bits N A ->
  MatrixUtils.transitive_completion fuel A = Some (Ok T) ->
  (forall i j, (i < N)%nat -> (j < N)%nat -> get 0 A i j = 1 -> get 0 T i j = 1) /\
  transitively_closed N T /\
  (forall B, is_bits N B -> transitively_closed N B ->
     (forall i j, (i < N)%nat -> (j < N)%nat ->
        get 0 A i j = 1 -> get 0 B i j = 1) ->
     forall i j, (i < N)%nat -> (j < N)%nat ->
       get 0 T i j = 1 -> get 0 B i j = 1).
Proof.
  intros HA HT.
  destruct (@transitive_completion_sound N A HA fuel T HT)
    as [_ [_ [_ Hreach]]].
  split; [|split].
  - intros i j Hi Hj E. apply Hreach; auto. now apply reach_edge.
  - now apply (closure_closed (A := A)).
  - intros B HB Hclosed Hsub i j Hi Hj E. apply Hreach in E; auto.
    clear Hi Hj. induction E as [i j Hi Hj E | i k j Hik IH Hj E].
    + now apply Hsub.
    + destruct (reach_bounds Hik) as [Hi Hk].
      apply (Hclosed i k j); auto.
Qed.

Lemma transitive_completion_least_witness :
  let A := [[0; 0; 0]; [1; 0; 0]; [0; 1; 0]] in
  let T := [[0; 0; 0]; [1; 0; 0]; [1; 1; 0]] in
  (forall i j, (i < 3)%nat -> (j < 3)%nat -> get 0 A i j = 1 -> get 0 T i j = 1) /\
  transitively_closed 3 T /\
  (forall B, is_bits 3 B -> transitively_closed 3 B ->
     (forall i j, (i < 3)%nat -> (j < 3)%nat ->
        get 0 A i j = 1 -> get 0 B i j = 1) ->
     forall i j, (i < 3)%nat -> (j < 3)%nat ->
       get 0 T i j = 1 -> get 0 B i j = 1).
Proof.
  intros A T. apply (@transitive_completion_least A 3 3 T).
  - split; [split; [reflexivity | repeat constructor]|].
    intros i j Hi Hj.
    destruct i as [|[|[|i]]]; try lia; destruct j as [|[|[|j]]]; try lia;
      simpl; auto.
  - reflexivity.
Defined.

(** X11: on a transitively closed 0/1 matrix with at least one node
    [transitive_completion] returns the matrix itself after a single
    pass. *)
Theorem transitive_completion_of_closed (A : matrix Z) (N fuel : nat) :
  is_bits N A -> transitively_closed N A ->
  (1 <= N)%nat -> (1 <= fuel)%nat ->
  MatrixUtils.transitive_completion fuel A = Some (Ok A).
Proof.
  intros HA Hclosed HN Hfuel. destruct fuel as [|fuel]; [lia|].
  unfold MatrixUtils.transitive_completion. rewrite (nrows_shape (proj1 HA)).
  simpl. destruct (Nat.ltb_spec 0 N); [|lia].
  rewrite (closed_completion_step HA Hclosed).
  assert (E : array_equal A A = true) by now apply array_equal_eq.
  now rewrite E.
Qed.

Lemma transitive_completion_of_closed_witness :
  let A := [[0; 0; 0]; [1; 0; 0]; [1; 1; 0]] in
  MatrixUtils.transitive_completion 1 A = Some (Ok A).
Proof.
  intros A. apply (@transitive_completion_of_closed A 3 1); try lia.
  - split; [split; [reflexivity | repeat constructor]|].
    intros i j Hi Hj.
    destruct i as [|[|[|i]]]; try lia; destruct j as [|[|[|j]]]; try lia;
      simpl; auto.
  - intros i k j Hi Hk Hj.
    destruct i as [|[|[|i]]]; try lia; destruct k as [|[|[|k]]]; try lia;
      destruct j as [|[|[|j]]]; try lia; simpl; auto.
Defined.

Section ReductionFacts.
Variable A : matrix Z.
Variable N : nat.
Hypothesis A_bits : is_bits N A.
Hypothesis A_closed : transitively_closed N A.
Hypothesis A_acyclic : acyclic N A.

Lemma shape_zero_nil (M : matrix Z) : shape 0 0 M -> M = [].
Proof. intros [Hl _]. now destruct M. Qed.

Lemma reduction_iter_nil (t : nat) :
  Nat.iter t (MatrixUtils.reduction_step []) [] = [].
Proof. induction t as [|t IH]; simpl; auto. Qed.

(** Any number of passes from 1 on gives what [N] passes give. *)
Lemma reduction_iter_any (t : nat) :
  (1 <= t)%nat ->
  Nat.iter t (MatrixUtils.reduction_step A) A
  = MatrixUtils.transitive_reduction A None.
Proof.
  intros Ht. unfold MatrixUtils.transitive_reduction. simpl.
  rewrite (nrows_shape (proj1 A_bits)), Nat2Z.id.
  destruct N as [|n] eqn:EN.
  - rewrite (shape_zero_nil (proj1 A_bits)). apply reduction_iter_nil.
  - destruct (reduction_iter_cover A_bits A_closed A_acyclic Ht) as [Hb1 H1].
    destruct (@reduction_iter_cover (S n) A A_bits A_closed A_acyclic (S n))
      as [Hb2 H2]; [lia|].
    apply (bits_ext Hb1 Hb2). intros i j Hi Hj.
    now rewrite (H1 i j Hi Hj), (H2 i j Hi Hj).
Qed.

Lemma reduction_bits_cover :
  is_bits N (MatrixUtils.transitive_reduction A None) /\
  forall i j, (i < N)%nat -> (j < N)%nat ->
    (get 0 (MatrixUtils.transitive_reduction A None) i j = 1 <-> cover A N i j).
Proof.
  destruct N as [|n] eqn:EN.
  - split; [|intros i j Hi; lia].
    unfold MatrixUtils.transitive_reduction. simpl.
    rewrite (nrows_shape (proj1 A_bits)). exact A_bits.
  - apply (transitive_reduction_cover A_bits A_closed A_acyclic). lia.
Qed.

(** A covering edge belongs to every relation that generates [A]. *)
Lemma cover_in_generators (R : matrix Z) (i j : nat) :
  (forall a b, (a < N)%nat -> (b < N)%nat ->
     (reach R N a b <-> get 0 A a b = 1)) ->
  (i < N)%nat -> (j < N)%nat -> cover A N i j -> get 0 R i j = 1.
Proof.
  intros HR Hi Hj [E Hno]. apply HR in E; auto.
  destruct (reach_last E) as [H|[k [Hk [Hik Hkj]]]]; auto.
  exfalso. apply Hno. exists k. split; auto. split.
  - now apply HR.
  - apply HR; auto. now apply reach_edge.
Qed.

(** The reduction is a fixed point of its own pass. *)
Lemma reduction_step_reduced :
  let H := MatrixUtils.transitive_reduction A None in
  MatrixUtils.reduction_step H H = H.
Proof.
  intros H. destruct reduction_bits_cover as [Hb Hcov]. fold H in Hb, Hcov.
  destruct (reduction_step_bits Hb Hb) as [Hb' Hget].
  apply (bits_ext Hb' Hb). intros i j Hi Hj. rewrite (Hget i j Hi Hj).
  split; [tauto|]. intros E. split; auto.
  intros [k [Hk [H1 H2]]].
  apply Hcov in E, H1, H2; auto. destruct E as [_ Hno]. apply Hno.
  exists k. split; auto. split; [apply H1 | apply H2].
Qed.
End ReductionFacts.

(** X12: for a transitively closed DAG [transitive_reduction] returns its
    covering relation, the edges no two-step walk implies, and that is the
    least relation generating the input: every 0/1 relation whose
    reachability is the input contains it. *)
Theorem transitive_reduction_is_covering (A : matrix Z) (N : nat) :
  is_bits N A -> transitively_closed N A -> acyclic N A ->
  let H := MatrixUtils.transitive_reduction A None in
  is_bits N H /\
  (forall i j, (i < N)%nat -> (j < N)%nat ->
     (get 0 H i j = 1 <-> cover A N i j)) /\
  (forall R,
     (forall a b, (a < N)%nat -> (b < N)%nat ->
        (reach R N a b <-> get 0 A a b = 1)) ->
     forall i j, (i < N)%nat -> (j < N)%nat ->
       get 0 H i j = 1 -> get 0 R i j = 1).
Proof.
  intros HA Hclosed Hacyc H.
  destruct (reduction_bits_cover HA Hclosed Hacyc) as [Hb Hcov].
  split; auto. split; auto.
  intros R HR i j Hi Hj E. apply (cover_in_generators (A := A) (N := N)); auto.
  now apply Hcov.
Qed.

Lemma transitive_reduction_is_covering_witness :
  let A := [[0; 0; 0]; [1; 0; 0]; [1; 1; 0]] in
  let H := MatrixUtils.transitive_reduction A None in
  is_bits 3 H /\
  (forall i j, (i < 3)%nat -> (j < 3)%nat ->
     (get 0 H i j = 1 <-> cover A 3 i j)) /\
  (forall R,
     (forall a b, (a < 3)%nat -> (b < 3)%nat ->
        (reach R 3 a b <-> get 0 A a b = 1)) ->
     forall i j, (i < 3)%nat -> (j < 3)%nat ->
       get 0 H i j = 1 -> get 0 R i j = 1).
Proof.
  intros A.
  assert (Hedge : forall i j, (i < 3)%nat -> (j < 3)%nat ->
            get 0 A i j = 1 -> (j < i)%nat).
  { intros i j Hi Hj.
    destruct i as [|[|[|i]]]; try lia; destruct j as [|[|[|j]]]; try lia;
      simpl; intros E; try discriminate E; lia. }
  apply (@transitive_reduction_is_covering A 3).
  - split; [split; [reflexivity | repeat constructor]|].
    intros i j Hi Hj.
    destruct i as [|[|[|i]]]; try lia; destruct j as [|[|[|j]]]; try lia;
      simpl; auto.
  - intros i k j Hi Hk Hj.
    destruct i as [|[|[|i]]]; try lia; destruct k as [|[|[|k]]]; try lia;
      destruct j as [|[|[|j]]]; try lia; simpl; auto.
  - assert (Hdown : forall i j, reach A 3 i j -> (j < i)%nat).
    { induction 1 as [i j Hi Hj E | i k j Hik IH Hj E].
      - now apply Hedge.
      - destruct (reach_bounds Hik) as [_ Hk].
        specialize (Hedge k j Hk Hj E). lia. }
    intros i H. specialize (Hdown i i H). lia.
Defined.

(** X13: for a transitively closed DAG the optional path-length argument
    changes nothing: with any [LP >= 1], [transitive_reduction(A, LP)]
    returns what [transitive_reduction(A)] returns, one pass being
    enough. *)
Theorem transitive_reduction_max_path (A : matrix Z) (N : nat) (v : Z) :
  is_bits N A -> transitively_closed N A -> acyclic N A -> 1 <= v ->
  MatrixUtils.transitive_reduction A (Some v)
  = MatrixUtils.transitive_reduction A None.
Proof.
  intros HA Hclosed Hacyc Hv.
  rewrite <- (reduction_iter_any HA Hclosed Hacyc (t := Z.to_nat v)) by lia.
  unfold MatrixUtils.transitive_reduction, truthy.
  destruct (Z.eqb_spec v 0); [lia|]. reflexivity.
Qed.

Lemma transitive_reduction_max_path_witness :
  let A := [[0; 0; 0]; [1; 0; 0]; [1; 1; 0]] in
  MatrixUtils.transitive_reduction A (Some 1)
  = MatrixUtils.transitive_reduction A None.
Proof.
  intros A.
  assert (Hedge : forall i j, (i < 3)%nat -> (j < 3)%nat ->
            get 0 A i j = 1 -> (j < i)%nat).
  { intros i j Hi Hj.
    destruct i as [|[|[|i]]]; try lia; destruct j as [|[|[|j]]]; try lia;
      simpl; intros E; try discriminate E; lia. }
  apply (@transitive_reduction_max_path A 3 1); try lia.
  - split; [split; [reflexivity | repeat constructor]|].
    intros i j Hi Hj.
    destruct i as [|[|[|i]]]; try lia; destruct j as [|[|[|j]]]; try lia;
      simpl; auto.
  - intros i k j Hi Hk Hj.
    destruct i as [|[|[|i]]]; try lia; destruct k as [|[|[|k]]]; try lia;
      destruct j as [|[|[|j]]]; try lia; simpl; auto.
  - assert (Hdown : forall i j, reach A 3 i j -> (j < i)%nat).
    { induction 1 as [i j Hi Hj E | i k j Hik IH Hj E].
      - now apply Hedge.
      - destruct (reach_bounds Hik) as [_ Hk].
        specialize (Hedge k j Hk Hj E). lia. }
    intros i H. specialize (Hdown i i H). lia.
Defined.

(** X14: on transitively closed DAGs [transitive_reduction] is idempotent:
    reducing the reduction returns it unchanged. *)
Theorem transitive_reduction_idempotent (A : matrix Z) (N : nat) :
  is_bits N A -> transitively_closed N A -> acyclic N A ->
  MatrixUtils.transitive_reduction
    (MatrixUtils.transitive_reduction A None) None
  = MatrixUtils.transitive_reduction A None.
Proof.
  intros HA Hclosed Hacyc.
  pose proof (reduction_step_reduced HA Hclosed Hacyc) as Hfix. cbv zeta in Hfix.
  set (H := MatrixUtils.transitive_reduction A None) in *.
  unfold MatrixUtils.transitive_reduction at 1. simpl.
  generalize (Z.to_nat (Z.of_nat (nrows H))). intros t.
  induction t as [|t IH]; simpl; auto. now rewrite IH.
Qed.

Lemma transitive_reduction_idempotent_witness :
  let A := [[0; 0; 0]; [1; 0; 0]; [1; 1; 0]] in
  MatrixUtils.transitive_reduction
    (MatrixUtils.transitive_reduction A None) None
  = MatrixUtils.transitive_reduction A None.
Proof.
  intros A.
  assert (Hedge : forall i j, (i < 3)%nat -> (j < 3)%nat ->
            get 0 A i j = 1 -> (j < i)%nat).
  { intros i j Hi Hj.
    destruct i as [|[|[|i]]]; try lia; destruct j as [|[|[|j]]]; try lia;
      simpl; intros E; try discriminate E; lia. }
  apply (@transitive_reduction_idempotent A 3).
  - split; [split; [reflexivity | repeat constructor]|].
    intros i j Hi Hj.
    destruct i as [|[|[|i]]]; try lia; destruct j as [|[|[|j]]]; try lia;
      simpl; auto.
  - intros i k j Hi Hk Hj.
    destruct i as [|[|[|i]]]; try lia; destruct k as [|[|[|k]]]; try lia;
      destruct j as [|[|[|j]]]; try lia; simpl; auto.
  - assert (Hdown : forall i j, reach A 3 i j -> (j < i)%nat).
    { induction 1 as [i j Hi Hj E | i k j Hik IH Hj E].
      - now apply Hedge.
      - destruct (reach_bounds Hik) as [_ Hk].
        specialize (Hedge k j Hk Hj E). lia. }
    intros i H. specialize (Hdown i i H). lia.
Defined.

(** X15: for a DAG [A] with closure [T], the reduction of [T] keeps only
    edges of [A], and completing it returns [T] again: closure, reduction
    and closure compose to the closure. *)
Theorem reduction_of_completion (A : matrix Z) (N fuel : nat) (T : matrix Z) :
  is_bits N A -> acyclic N A ->
  MatrixUtils.transitive_completion fuel A = Some (Ok T) ->
  (forall i j, (i < N)%nat -> (j < N)%nat ->
     get 0 (MatrixUtils.transitive_reduction T None) i j = 1 ->
     get 0 A i j = 1) /\
  ((N <= fuel)%nat ->
   MatrixUtils.transitive_completion fuel (MatrixUtils.transitive_reduction T None)
   = Some (Ok T)).
Proof.
  intros HA Hacyc HT.
  destruct (@transitive_completion_sound N A HA fuel T HT)
    as [HN [HbT [_ Hreach]]].
  assert (HclosedT : transitively_closed N T)
    by (now apply (closure_closed (A := A))).
  assert (HacycT : acyclic N T).
  { intros i Hr. apply (Hacyc i). now apply (reach_of_closure (T := T)). }
  destruct (reduction_bits_cover HbT HclosedT HacycT) as [HbH Hcov].
  split.
  - intros i j Hi Hj E. apply Hcov in E; auto. destruct E as [E Hno].
    apply Hreach in E; auto.
    destruct (reach_last E) as [H|[k [Hk [Hik Hkj]]]]; auto.
    exfalso. apply Hno. exists k. split; auto. split.
    + now apply Hreach.
    + apply Hreach; auto. now apply reach_edge.
  - intros Hfuel.
    destruct (transitive_completion_total HbH HN Hfuel) as [T' HT'].
    rewrite HT'. f_equal. f_equal.
    destruct (@transitive_completion_sound N _ HbH fuel T' HT')
      as [_ [Hb' [_ Hreach']]].
    apply (bits_ext Hb' HbT). intros i j Hi Hj.
    rewrite (Hreach' i j Hi Hj).
    now apply (cover_generates HbT HclosedT HacycT _ Hcov).
Qed.

Lemma reduction_of_completion_witness :
  let A := [[0; 0; 0]; [1; 0; 0]; [0; 1; 0]] in
  let T := [[0; 0; 0]; [1; 0; 0]; [1; 1; 0]] in
  (forall i j, (i < 3)%nat -> (j < 3)%nat ->
     get 0 (MatrixUtils.transitive_reduction T None) i j = 1 ->
     get 0 A i j = 1) /\
  ((3 <= 3)%nat ->
   MatrixUtils.transitive_completion 3 (MatrixUtils.transitive_reduction T None)
   = Some (Ok T)).
Proof.
  intros A T.
  assert (Hedge : forall i j, (i < 3)%nat -> (j < 3)%nat ->
            get 0 A i j = 1 -> (j < i)%nat).
  { intros i j Hi Hj.
    destruct i as [|[|[|i]]]; try lia; destruct j as [|[|[|j]]]; try lia;
      simpl; intros E; try discriminate E; lia. }
  apply (@reduction_of_completion A 3 3 T).
  - split; [split; [reflexivity | repeat constructor]|].
    intros i j Hi Hj.
    destruct i as [|[|[|i]]]; try lia; destruct j as [|[|[|j]]]; try lia;
      simpl; auto.
  - assert (Hdown : forall i j, reach A 3 i j -> (j < i)%nat).
    { induction 1 as [i j Hi Hj E | i k j Hik IH Hj E].
      - now apply Hedge.
      - destruct (reach_bounds Hik) as [_ Hk].
        specialize (Hedge k j Hk Hj E). lia. }
    intros i H. specialize (Hdown i i H). lia.
  - reflexivity.
Defined.

(** * Further properties of the separation estimators *)

Section PairLoopUntouched.
Variable T : Type.
Variable d : T.
Variable test : T -> bool.
Variable v : nat -> nat -> T.
Variable N : nat.
Variable bound : nat -> nat.
Hypothesis bound_le : forall i, (bound i <= i)%nat.

(** A cell whose pair fails the test keeps its value. *)
Lemma pair_loop_untested (s : matrix T) (a b : nat) :
  shape N N s -> (a < N)%nat -> (b < N)%nat ->
  test (get d s a b) = false -> test (get d s b a) = false ->
  get d (pair_loop d test v bound N s) a b = get d s a b.
Proof.
  intros Hsh Ha Hb H1 H2.
  destruct (@pair_rows T d test v N bound s N bound_le Hsh (le_n N))
    as [_ Hget].
  rewrite Hget by auto. unfold lower_cell, upper_cell. rewrite H1, H2.
  split_tests.
Qed.

(** A cell whose pair is not visited keeps its value. *)
Lemma pair_loop_unvisited (s : matrix T) (a b : nat) :
  shape N N s -> (a < N)%nat -> (b < N)%nat ->
  (bound (Nat.max a b) <= Nat.min a b)%nat ->
  get d (pair_loop d test v bound N s) a b = get d s a b.
Proof.
  intros Hsh Ha Hb Hvis.
  destruct (@pair_rows T d test v N bound s N bound_le Hsh (le_n N))
    as [_ Hget].
  rewrite Hget by auto. pose proof (bound_le a). pose proof (bound_le b).
  destruct (Nat.lt_ge_cases b a).
  - rewrite Nat.max_l, Nat.min_r in Hvis by lia. split_tests.
  - rewrite Nat.max_r, Nat.min_l in Hvis by lia. split_tests.
Qed.
End PairLoopUntouched.

Lemma is_zeroQ_inject (z : Z) : is_zeroQ (inject_Z z) = (z =? 0).
Proof.
  unfold is_zeroQ. destruct (Z.eqb_spec z 0) as [->|Hz]; [reflexivity|].
  destruct (Qeq_bool (inject_Z z) 0%Q) eqn:E; auto.
  apply Qeq_bool_iff in E. unfold Qeq in E. simpl in E. lia.
Qed.

(** Cells of a causally related pair are never rewritten. *)
Lemma timelike_cells_kept
  (LP : matrix Z) (N : nat) (dmax k : option Z) (i j : nat) :
  shape N N LP -> (i < N)%nat -> (j < N)%nat ->
  get 0 LP i j + get 0 LP j i <> 0 ->
  let ds := get 0 LP i j + get 0 LP j i in
  (forall DS2, Dagsep.naive_spacelike_matrix LP dmax = Ok DS2 ->
     get 0 DS2 i j = - (ds * ds)) /\
  (forall DS2, MatrixUtils.naive_spacelike_matrix LP dmax k = Ok DS2 ->
     get 0 DS2 i j = - (ds * ds)) /\
  (forall DS2, Dagsep.twolink_spacelike_matrix LP dmax = Ok DS2 ->
     get 0%Q DS2 i j = inject_Z (- (ds * ds))).
Proof.
  intros Hsh Hi Hj Hne ds.
  assert (Hinit : forall a b, (a = i /\ b = j) \/ (a = j /\ b = i) ->
            get 0 (initial_ds2 LP) a b = - (ds * ds)).
  { intros a b [[-> ->]|[-> ->]]; rewrite (get_initial_ds2 Hsh) by auto;
      unfold ds; ring. }
  assert (Hnz : - (ds * ds) <> 0) by (unfold ds; nia).
  assert (Htest : forall a b, (a = i /\ b = j) \/ (a = j /\ b = i) ->
            is_zero (get 0 (initial_ds2 LP) a b) = false).
  { intros a b Hab. rewrite (Hinit a b Hab). unfold is_zero.
    now apply Z.eqb_neq. }
  assert (HinitQ : forall a b, (a = i /\ b = j) \/ (a = j /\ b = i) ->
            get 0%Q (map_matrix inject_Z (initial_ds2 LP)) a b
            = inject_Z (- (ds * ds))).
  { intros a b Hab.
    assert (Hab' : (a < N)%nat /\ (b < N)%nat)
      by (destruct Hab as [[-> ->]|[-> ->]]; auto).
    rewrite (get_map_matrix inject_Z 0 0%Q (n := N) (m := N))
      by (try apply shape_initial_ds2; tauto).
    now rewrite Hinit. }
  rewrite (dagsep_naive_unfold Hsh), (matrix_utils_naive_unfold Hsh),
    (dagsep_twolink_unfold Hsh).
  split; [|split]; intros DS2 H;
    (destruct (effective_dmax LP dmax) as [dv|]; [|discriminate]);
    inversion H; subst DS2.
  - rewrite pair_loop_untested; auto using shape_initial_ds2.
  - rewrite pair_loop_untested;
      auto using shape_initial_ds2, landmark_bound_le.
  - rewrite pair_loop_untested;
      auto using shape_map_matrix, shape_initial_ds2.
    + rewrite HinitQ by auto. rewrite is_zeroQ_inject. now apply Z.eqb_neq.
    + rewrite HinitQ by auto. rewrite is_zeroQ_inject. now apply Z.eqb_neq.
Qed.

(** X16: a causally related pair keeps its entry: where
    [LP[i,j] + LP[j,i]] is not 0, all three estimators return
    [-(LP[i,j] + LP[j,i])^2] at [DS2[i,j]], whatever [dmax] and the
    landmark count are. *)
Theorem timelike_entries_kept
  (LP : matrix Z) (N : nat) (dmax k : option Z) (i j : nat) :
  shape N N LP -> (i < N)%nat -> (j < N)%nat ->
  get 0 LP i j + get 0 LP j i <> 0 ->
  let ds := get 0 LP i j + get 0 LP j i in
  (forall DS2, Dagsep.naive_spacelike_matrix LP dmax = Ok DS2 ->
     get 0 DS2 i j = - (ds * ds)) /\
  (forall DS2, MatrixUtils.naive_spacelike_matrix LP dmax k = Ok DS2 ->
     get 0 DS2 i j = - (ds * ds)) /\
  (forall DS2, Dagsep.twolink_spacelike_matrix LP dmax = Ok DS2 ->
     get 0%Q DS2 i j = inject_Z (- (ds * ds))).
Proof.
  intros Hsh Hi Hj Hne. exact (timelike_cells_kept dmax k Hsh Hi Hj Hne).
Qed.

Lemma timelike_entries_kept_witness :
  let ds := get 0 diamond_LP 3 0 + get 0 diamond_LP 0 3 in
  (forall DS2, Dagsep.naive_spacelike_matrix diamond_LP None = Ok DS2 ->
     get 0 DS2 3%nat 0%nat = - (ds * ds)) /\
  (forall DS2, MatrixUtils.naive_spacelike_matrix diamond_LP None (Some 1) = Ok DS2 ->
     get 0 DS2 3%nat 0%nat = - (ds * ds)) /\
  (forall DS2, Dagsep.twolink_spacelike_matrix diamond_LP None = Ok DS2 ->
     get 0%Q DS2 3%nat 0%nat = inject_Z (- (ds * ds))).
Proof.
  apply (@timelike_entries_kept diamond_LP 4 None (Some 1) 3 0).
  - split; [reflexivity | repeat constructor].
  - lia.
  - lia.
  - discriminate.
Defined.

(** X17: under a landmark count [k] (not 0) the pairs whose two indices
    are both at least [k] are not visited: a pair without a path either
    way keeps the entry 0 in both cells, so an entry 0 off the diagonal
    means the separation was not computed. *)
Theorem landmark_unvisited_left_zero
  (LP : matrix Z) (N : nat) (dmax : option Z) (k : Z) (i j : nat) (DS2 : matrix Z) :
  shape N N LP -> (i < N)%nat -> (j < N)%nat ->
  get 0 LP i j = 0 -> get 0 LP j i = 0 ->
  k <> 0 -> k <= Z.of_nat (Nat.min i j) ->
  MatrixUtils.naive_spacelike_matrix LP dmax (Some k) = Ok DS2 ->
  get 0 DS2 i j = 0 /\ get 0 DS2 j i = 0.
Proof.
  intros Hsh Hi Hj E1 E2 Hk Hmin. rewrite (matrix_utils_naive_unfold Hsh).
  destruct (effective_dmax LP dmax) as [dv|]; [|discriminate].
  intros H. inversion H; subst DS2.
  assert (Hb : forall x, (landmark_bound (Some k) x <= Z.to_nat k)%nat).
  { intros x. unfold landmark_bound, truthy.
    destruct (Z.eqb_spec k 0); [contradiction|]. simpl. lia. }
  split.
  - rewrite pair_loop_unvisited;
      auto using shape_initial_ds2, landmark_bound_le.
    + rewrite (get_initial_ds2 Hsh) by auto. rewrite E1, E2. reflexivity.
    + specialize (Hb (Nat.max i j)). lia.
  - rewrite pair_loop_unvisited;
      auto using shape_initial_ds2, landmark_bound_le.
    + rewrite (get_initial_ds2 Hsh) by auto. rewrite E1, E2. reflexivity.
    + specialize (Hb (Nat.max j i)). lia.
Qed.

(** Four isolated nodes, one landmark, [dmax = 5]: the pair (2,3) keeps 0
    while the pairs with node 0 get 25. *)
Lemma landmark_unvisited_left_zero_witness :
  let LP := zeros 4 4 in
  let DS2 := [[0; 25; 25; 25]; [25; 0; 0; 0]; [25; 0; 0; 0]; [25; 0; 0; 0]] in
  get 0 DS2 2%nat 3%nat = 0 /\ get 0 DS2 3%nat 2%nat = 0.
Proof.
  intros LP DS2.
  apply (@landmark_unvisited_left_zero LP 4 (Some 5) 1 2 3 DS2);
    try reflexivity; try (simpl; lia).
  split; [reflexivity | repeat constructor].
Defined.

Section IndexLists.
Lemma In_flatnonzero (v : list Z) (x : nat) :
  In x (flatnonzero v) <-> (x < length v)%nat /\ nth x v 0 <> 0.
Proof.
  unfold flatnonzero. rewrite filter_In, in_seq, negb_true_iff, Z.eqb_neq.
  split; intros [H1 H2]; split; auto; lia.
Qed.

Lemma In_intersect1d (a b : list nat) (x : nat) :
  In x (intersect1d a b) <-> In x a /\ In x b.
Proof.
  unfold intersect1d. rewrite filter_In, existsb_exists. split.
  - intros [Ha [y [Hy E]]]. apply Nat.eqb_eq in E. subst y. auto.
  - intros [Ha Hb]. split; auto. exists x. split; auto. apply Nat.eqb_refl.
Qed.

Lemma nth_col (LP : matrix Z) (i w : nat) :
  (w < length LP)%nat -> nth w (col 0 LP i) 0 = get 0 LP w i.
Proof.
  intros Hw. unfold col, get.
  rewrite nth_indep with (d' := nth i [] 0) by (rewrite length_map; lia).
  exact (map_nth (fun r => nth i r 0) LP [] w).
Qed.

Lemma length_col (LP : matrix Z) (i : nat) : length (col 0 LP i) = length LP.
Proof. unfold col. apply length_map. Qed.

(** Membership in the two lists of the naive estimator. *)
Lemma In_lists_bridge (LP : matrix Z) (N : nat) (i j w z : nat) :
  shape N N LP -> (i < N)%nat -> (j < N)%nat ->
  (In w (intersect1d (flatnonzero (col 0 LP i)) (flatnonzero (col 0 LP j))) /\
   In z (intersect1d (flatnonzero (row LP i)) (flatnonzero (row LP j)))
   <-> bridge LP N i j w z).
Proof.
  intros Hsh Hi Hj. rewrite !In_intersect1d, !In_flatnonzero, !length_col.
  unfold row. rewrite (shape_nth Hsh Hi), (shape_nth Hsh Hj).
  destruct Hsh as [Hl _]. rewrite Hl. unfold bridge. split.
  - intros [[[Hw E1] [_ E2]] [[Hz E3] [_ E4]]].
    rewrite !nth_col in * by lia. unfold get. tauto.
  - intros [Hw [Hz [E1 [E2 [E3 E4]]]]].
    rewrite !nth_col by lia. unfold get in *. tauto.
Qed.
End IndexLists.

Section FoldMin.
Lemma fold_min_row (g : nat -> Z) (zs : list nat) (sp : Z) :
  let r := fold_left (fun sp z => if 0 <? g z then Z.min sp (g z) else sp) zs sp in
  r <= sp /\
  (forall z, In z zs -> 0 < g z -> r <= g z) /\
  (r = sp \/ exists z, In z zs /\ 0 < g z /\ r = g z).
Proof.
  revert sp. induction zs as [|y zs IH]; intros sp; simpl.
  - split; [lia|]. split; [contradiction | now left].
  - destruct (IH (if 0 <? g y then Z.min sp (g y) else sp)) as [H1 [H2 H3]].
    destruct (Z.ltb_spec 0 (g y)) as [Hy|Hy].
    + split; [lia|]. split.
      * intros z [->|Hz] Hpos; [lia | now apply H2].
      * destruct H3 as [E|[z [Hz [Hpos E]]]].
        -- destruct (Z.min_spec sp (g y)) as [[_ Em]|[_ Em]].
           ++ left. lia.
           ++ right. exists y. split; [now left|]. split; auto. lia.
        -- right. exists z. split; [now right|]. auto.
    + split; [lia|]. split.
      * intros z [->|Hz] Hpos; [lia | now apply H2].
      * destruct H3 as [E|[z [Hz [Hpos E]]]]; [now left|].
        right. exists z. split; [now right|]. auto.
Qed.

Lemma fold_min_rows (g : nat -> nat -> Z) (ws zs : list nat) (d : Z) :
  let r :=
    fold_left (fun sp w =>
      fold_left (fun sp z => if 0 <? g w z then Z.min sp (g w z) else sp) zs sp)
      ws d in
  r <= d /\
  (forall w z, In w ws -> In z zs -> 0 < g w z -> r <= g w z) /\
  (r = d \/ exists w z, In w ws /\ In z zs /\ 0 < g w z /\ r = g w z).
Proof.
  revert d. induction ws as [|x ws IH]; intros d; simpl.
  - split; [lia|]. split; [contradiction | now left].
  - destruct (fold_min_row (g x) zs d) as [R1 [R2 R3]].
    destruct (IH (fold_left
                (fun sp z => if 0 <? g x z then Z.min sp (g x z) else sp) zs d))
      as [H1 [H2 H3]].
    split; [lia|]. split.
    + intros w z [->|Hw] Hz Hpos.
      * specialize (R2 z Hz Hpos). lia.
      * now apply H2.
    + destruct H3 as [E|[w [z [Hw [Hz [Hpos E]]]]]].
      * destruct R3 as [E'|[z [Hz [Hpos E']]]].
        -- left. lia.
        -- right. exists x, z. split; [now left|]. split; auto. split; auto. lia.
      * right. exists w, z. split; [now right|]. auto.
Qed.
End FoldMin.

Lemma bridge_sym (LP : matrix Z) (N : nat) (i j w z : nat) :
  bridge LP N i j w z -> bridge LP N j i w z.
Proof. unfold bridge. tauto. Qed.

Lemma least_bridge_sym (LP : matrix Z) (N : nat) (dmax : Z) (i j : nat) (s : Z) :
  least_bridge LP N dmax i j s -> least_bridge LP N dmax j i s.
Proof.
  intros [H1 [H2 H3]]. split; auto. split.
  - intros w z Hb. apply H2. now apply bridge_sym.
  - destruct H3 as [E|[w [z [Hb H]]]]; [now left|].
    right. exists w, z. split; auto. now apply bridge_sym.
Qed.

(** The distance the naive estimator computes for a pair. *)
Lemma naive_sp_dist_least_bridge (LP : matrix Z) (N : nat) (dmax : Z) (i j : nat) :
  shape N N LP -> (i < N)%nat -> (j < N)%nat ->
  least_bridge LP N dmax i j (MatrixUtils.naive_sp_dist LP dmax i j).
Proof.
  intros Hsh Hi Hj. unfold MatrixUtils.naive_sp_dist.
  set (ws := intersect1d (flatnonzero (col 0 LP i)) (flatnonzero (col 0 LP j))).
  set (zs := intersect1d (flatnonzero (row LP i)) (flatnonzero (row LP j))).
  assert (Hin : forall w z, In w ws /\ In z zs <-> bridge LP N i j w z)
    by (intros w z; now apply In_lists_bridge).
  destruct ((0 <? length zs)%nat && (0 <? length ws)%nat) eqn:E.
  - destruct (fold_min_rows (get 0 LP) ws zs dmax) as [H1 [H2 H3]].
    split; auto. split.
    + intros w z Hb. apply Hin in Hb. now apply H2.
    + destruct H3 as [E3|[w [z [Hw [Hz H]]]]]; [now left|].
      right. exists w, z. split; [now apply Hin | auto].
  - split; [lia|]. split; [|now left].
    intros w z Hb _. apply Hin in Hb. destruct Hb as [Hw Hz].
    destruct ws, zs; simpl in *; try contradiction; discriminate.
Qed.

(** X18: for a visited pair without a path either way the naive estimators
    store [s*s] in both cells, where [s] is [dmax] (the argument or
    [np.max(LP)]) cut down to the least positive [LP[w,z]] over the nodes
    [w] with [LP[w,i]] and [LP[w,j]] nonzero and the nodes [z] with
    [LP[i,z]] and [LP[j,z]] nonzero. *)
Theorem naive_separation_least_bridge
  (LP : matrix Z) (N : nat) (dmax : option Z) (dv : Z) (i j : nat) :
  shape N N LP -> (i < N)%nat -> (j < N)%nat -> i <> j ->
  get 0 LP i j = 0 -> get 0 LP j i = 0 ->
  effective_dmax LP dmax = Ok dv ->
  exists s, least_bridge LP N dv i j s /\
    (exists DS2, Dagsep.naive_spacelike_matrix LP dmax = Ok DS2 /\
       get 0 DS2 i j = s * s /\ get 0 DS2 j i = s * s) /\
    (forall k, visited k i j ->
       exists DS2, MatrixUtils.naive_spacelike_matrix LP dmax k = Ok DS2 /\
         get 0 DS2 i j = s * s /\ get 0 DS2 j i = s * s).
Proof.
  intros Hsh Hi Hj Hij E1 E2 Hd.
  rewrite (dagsep_naive_unfold Hsh), Hd. simpl.
  assert (Hzero : forall a b, (a = i /\ b = j) \/ (a = j /\ b = i) ->
            is_zero (get 0 (initial_ds2 LP) a b) = true).
  { intros a b [[-> ->]|[-> ->]]; rewrite (get_initial_ds2 Hsh) by auto;
      rewrite E1, E2; reflexivity. }
  set (a := Nat.max i j). set (b := Nat.min i j).
  assert (Hab : (a < N)%nat /\ (b < N)%nat /\ (b < a)%nat) by (unfold a, b; lia).
  assert (Hcase : (a = i /\ b = j) \/ (a = j /\ b = i)) by (unfold a, b; lia).
  exists (MatrixUtils.naive_sp_dist LP dv a b).
  assert (Hcells : forall bound, (forall x, (bound x <= x)%nat) ->
    (b < bound a)%nat ->
    get 0 (pair_loop 0 is_zero (naive_value LP dv) bound N (initial_ds2 LP)) i j
      = naive_value LP dv a b /\
    get 0 (pair_loop 0 is_zero (naive_value LP dv) bound N (initial_ds2 LP)) j i
      = naive_value LP dv a b).
  { intros bound Hb Hvis.
    destruct (@pair_loop_written Z 0 is_zero (naive_value LP dv) N bound Hb
                (initial_ds2 LP) a b) as [H1 H2];
      auto using shape_initial_ds2; try tauto.
    destruct Hcase as [[Ea Eb]|[Ea Eb]]; rewrite Ea, Eb in *; auto. }
  split; [|split].
  - assert (L := naive_sp_dist_least_bridge dv Hsh (proj1 Hab) (proj1 (proj2 Hab))).
    destruct Hcase as [[Ea Eb]|[Ea Eb]]; rewrite Ea, Eb in *; auto.
    now apply least_bridge_sym.
  - eexists. split; [reflexivity|]. apply Hcells; [lia | tauto].
  - intros k Hvis. rewrite (matrix_utils_naive_unfold Hsh), Hd. simpl.
    eexists. split; [reflexivity|].
    apply Hcells; [apply landmark_bound_le | exact Hvis].
Qed.

(** The two middle nodes of the diamond: the only bridge runs from node 3
    to node 0 and has length 2. *)
Lemma naive_separation_least_bridge_witness :
  exists s, least_bridge diamond_LP 4 2 1 2 s /\
    (exists DS2, Dagsep.naive_spacelike_matrix diamond_LP None = Ok DS2 /\
       get 0 DS2 1%nat 2%nat = s * s /\ get 0 DS2 2%nat 1%nat = s * s) /\
    (forall k, visited k 1 2 ->
       exists DS2, MatrixUtils.naive_spacelike_matrix diamond_LP None k = Ok DS2 /\
         get 0 DS2 1%nat 2%nat = s * s /\ get 0 DS2 2%nat 1%nat = s * s).
Proof.
  apply (@naive_separation_least_bridge diamond_LP 4 None 2 1 2);
    try reflexivity; try lia.
  split; [reflexivity | repeat constructor].
Defined.

(** The longest-path matrix of a DAG has the shape the estimators expect. *)
Lemma dag_longest_path_shape
  (A : matrix Z) (N fuel : nat) (cut : option Z) (LP : matrix Z) :
  is_bits N A -> acyclic N A ->
  MatrixUtils.longest_path_matrix fuel A cut = Some LP \/
  Dagsep.longest_path_matrix fuel A cut = Some LP ->
  shape N N LP /\
  (forall i, (i < N)%nat -> get 0 LP i i = 0) /\
  (forall i j, (i < N)%nat -> (j < N)%nat -> 0 < get 0 LP i j ->
     get 0 LP j i = 0).
Proof.
  intros HA Hacyc H. destruct (longest_path_values HA _ _ H) as [Hsh Hval].
  split; auto. split.
  - intros i Hi. destruct (Hval i i Hi Hi) as [E|[t [_ [_ Hw]]]]; auto.
    exfalso. exact (Hacyc i (walk_reach Hw)).
  - intros i j Hi Hj Hpos.
    destruct (Hval i j Hi Hj) as [E|[t [_ [_ Hw]]]]; [lia|].
    destruct (Hval j i Hj Hi) as [E'|[t' [_ [_ Hw']]]]; auto.
    exfalso. apply (Hacyc i).
    exact (reach_trans (walk_reach Hw) (walk_reach Hw')).
Qed.

(** X19: the whole pipeline on a DAG: whatever matrix an estimator
    returns for a longest-path matrix computed from a DAG (with any
    cutoff) is symmetric with a zero diagonal, and holds [-(LP[i,j])^2] in
    both cells of every pair with [LP[i,j] > 0]. *)
Theorem dag_separation_pipeline
  (A : matrix Z) (N fuel : nat) (cut dmax k : option Z) (LP : matrix Z) :
  is_bits N A -> acyclic N A ->
  MatrixUtils.longest_path_matrix fuel A cut = Some LP \/
  Dagsep.longest_path_matrix fuel A cut = Some LP ->
  (forall DS2,
     Dagsep.naive_spacelike_matrix LP dmax = Ok DS2 \/
     MatrixUtils.naive_spacelike_matrix LP dmax k = Ok DS2 ->
     symmetric_zero_diagonal 0 0 N DS2 /\
     forall i j, (i < N)%nat -> (j < N)%nat -> 0 < get 0 LP i j ->
       get 0 DS2 i j = - (get 0 LP i j * get 0 LP i j) /\
       get 0 DS2 j i = - (get 0 LP i j * get 0 LP i j)) /\
  (forall DS2,
     Dagsep.twolink_spacelike_matrix LP dmax = Ok DS2 ->
     symmetric_zero_diagonal 0%Q 0%Q N DS2 /\
     forall i j, (i < N)%nat -> (j < N)%nat -> 0 < get 0 LP i j ->
       get 0%Q DS2 i j = inject_Z (- (get 0 LP i j * get 0 LP i j)) /\
       get 0%Q DS2 j i = inject_Z (- (get 0 LP i j * get 0 LP i j))).
Proof.
  intros HA Hacyc HLP.
  destruct (@dag_longest_path_shape A N fuel cut LP HA Hacyc HLP)
    as [Hsh [Hdiag Hanti]].
  assert (Hsum : forall i j, (i < N)%nat -> (j < N)%nat -> 0 < get 0 LP i j ->
    get 0 LP i j + get 0 LP j i = get 0 LP i j /\
    get 0 LP j i + get 0 LP i j = get 0 LP i j /\
    get 0 LP i j + get 0 LP j i <> 0 /\ get 0 LP j i + get 0 LP i j <> 0).
  { intros i j Hi Hj Hpos. rewrite (Hanti i j Hi Hj Hpos). lia. }
  split.
  - intros DS2 Hrun. split.
    + destruct Hrun as [Hrun|Hrun];
        [rewrite (dagsep_naive_unfold Hsh) in Hrun
        |rewrite (matrix_utils_naive_unfold Hsh) in Hrun];
        (destruct (effective_dmax LP dmax); [|discriminate]);
        inversion Hrun; subst DS2;
        (apply pair_loop_symmetric;
         [lia || apply landmark_bound_le | now apply initial_ds2_symmetric]).
    + intros i j Hi Hj Hpos.
      destruct (Hsum i j Hi Hj Hpos) as [S1 [S2 [N1 N2]]].
      destruct (timelike_cells_kept dmax k Hsh Hi Hj N1) as [T1 [T2 _]].
      destruct (timelike_cells_kept dmax k Hsh Hj Hi N2) as [T3 [T4 _]].
      cbv zeta in T1, T2, T3, T4. rewrite S1 in T1, T2. rewrite S2 in T3, T4.
      destruct Hrun as [Hrun|Hrun]; auto.
  - intros DS2 Hrun. split.
    + rewrite (dagsep_twolink_unfold Hsh) in Hrun.
      destruct (effective_dmax LP dmax); [|discriminate].
      inversion Hrun; subst DS2.
      apply pair_loop_symmetric; [lia | now apply initial_ds2_symmetricQ].
    + intros i j Hi Hj Hpos.
      destruct (Hsum i j Hi Hj Hpos) as [S1 [S2 [N1 N2]]].
      destruct (timelike_cells_kept dmax k Hsh Hi Hj N1) as [_ [_ T1]].
      destruct (timelike_cells_kept dmax k Hsh Hj Hi N2) as [_ [_ T2]].
      cbv zeta in T1, T2. rewrite S1 in T1. rewrite S2 in T2. auto.
Qed.

Lemma dag_separation_pipeline_witness :
  let A := [[0; 0; 0]; [1; 0; 0]; [0; 1; 0]] in
  let LP := [[0; 0; 0]; [1; 0; 0]; [2; 1; 0]] in
  (forall DS2,
     Dagsep.naive_spacelike_matrix LP None = Ok DS2 \/
     MatrixUtils.naive_spacelike_matrix LP None None = Ok DS2 ->
     symmetric_zero_diagonal 0 0 3 DS2 /\
     forall i j, (i < 3)%nat -> (j < 3)%nat -> 0 < get 0 LP i j ->
       get 0 DS2 i j = - (get 0 LP i j * get 0 LP i j) /\
       get 0 DS2 j i = - (get 0 LP i j * get 0 LP i j)) /\
  (forall DS2,
     Dagsep.twolink_spacelike_matrix LP None = Ok DS2 ->
     symmetric_zero_diagonal 0%Q 0%Q 3 DS2 /\
     forall i j, (i < 3)%nat -> (j < 3)%nat -> 0 < get 0 LP i j ->
       get 0%Q DS2 i j = inject_Z (- (get 0 LP i j * get 0 LP i j)) /\
       get 0%Q DS2 j i = inject_Z (- (get 0 LP i j * get 0 LP i j))).
Proof.
  intros A LP.
  assert (Hedge : forall i j, (i < 3)%nat -> (j < 3)%nat ->
            get 0 A i j = 1 -> (j < i)%nat).
  { intros i j Hi Hj.
    destruct i as [|[|[|i]]]; try lia; destruct j as [|[|[|j]]]; try lia;
      simpl; intros E; try discriminate E; lia. }
  apply (@dag_separation_pipeline A 3 3 None None None LP).
  - split; [split; [reflexivity | repeat constructor]|].
    intros i j Hi Hj.
    destruct i as [|[|[|i]]]; try lia; destruct j as [|[|[|j]]]; try lia;
      simpl; auto.
  - assert (Hdown : forall i j, reach A 3 i j -> (j < i)%nat).
    { induction 1 as [i j Hi Hj E | i k j Hik IH Hj E].
      - now apply Hedge.
      - destruct (reach_bounds Hik) as [_ Hk].
        specialize (Hedge k j Hk Hj E). lia. }
    intros i H. specialize (Hdown i i H). lia.
  - right. reflexivity.
Defined.

Section PairLoopWrittenPair.
Variable T : Type.
Variable d : T.
Variable test : T -> bool.
Variable v : nat -> nat -> T.
Variable N : nat.
Variable bound : nat -> nat.
Hypothesis bound_le : forall i, (bound i <= i)%nat.

(** Both cells of a visited pair that passes the test hold the value
    computed for the larger index first. *)
Lemma pair_loop_written_pair (s : matrix T) (i j : nat) :
  shape N N s -> (i < N)%nat -> (j < N)%nat -> i <> j ->
  (Nat.min i j < bound (Nat.max i j))%nat ->
  test (get d s (Nat.max i j) (Nat.min i j)) = true ->
  get d (pair_loop d test v bound N s) i j = v (Nat.max i j) (Nat.min i j) /\
  get d (pair_loop d test v bound N s) j i = v (Nat.max i j) (Nat.min i j).
Proof.
  intros Hsh Hi Hj Hij Hvis Htest.
  destruct (@pair_loop_written T d test v N bound bound_le s
              (Nat.max i j) (Nat.min i j)) as [H1 H2]; auto; try lia.
  destruct (Nat.lt_ge_cases j i).
  - rewrite Nat.max_l, Nat.min_r in * by lia. auto.
  - rewrite Nat.max_r, Nat.min_l in * by lia. auto.
Qed.
End PairLoopWrittenPair.

Section TwoLinkBounds.
Lemma fold_sum_bounds (F : nat -> Z) (l : list nat) (c0 lo hi : Z) :
  (forall w, lo <= F w <= hi) ->
  c0 + lo * Z.of_nat (length l) <= fold_left (fun c w => c + F w) l c0
  <= c0 + hi * Z.of_nat (length l).
Proof.
  intros HF. revert c0. induction l as [|x l IH]; intros c0.
  - simpl. lia.
  - cbn [fold_left length]. specialize (IH (c0 + F x)). specialize (HF x).
    rewrite Nat2Z.inj_succ. lia.
Qed.

Lemma fold_min_row_positive (g : nat -> Z) (zs : list nat) (dmax : Z) :
  0 < dmax ->
  1 <= fold_left (fun sp z => if 0 <? g z then Z.min sp (g z) else sp) zs dmax
  <= dmax.
Proof.
  intros Hd. destruct (fold_min_row g zs dmax) as [H1 [_ H3]].
  destruct H3 as [E|[z [_ [Hpos E]]]]; lia.
Qed.

(** The two-link distance lies in [(0, dmax]]. *)
Lemma twolink_av_sp_dist_bounds (LP : matrix Z) (dmax : Z) (i j : nat) :
  0 < dmax ->
  (0 < Dagsep.twolink_av_sp_dist LP dmax i j /\
   Dagsep.twolink_av_sp_dist LP dmax i j <= inject_Z dmax)%Q.
Proof.
  intros Hd. unfold Dagsep.twolink_av_sp_dist.
  set (tl := intersect1d (where_eq (col 0 LP i) 1) (where_eq (col 0 LP j) 1)).
  set (past := intersect1d (flatnonzero (col 0 LP i)) (flatnonzero (col 0 LP j))).
  destruct (Nat.ltb_spec 0 (length tl)) as [Hlen|Hlen].
  - set (F := fun w : nat =>
        fold_left (fun sp z =>
          if 0 <? get 0 LP w z then Z.min sp (get 0 LP w z) else sp) past dmax).
    change (0 < inject_Z (fold_left (fun c w => (c + F w)%Z) tl 0%Z)
                / inject_Z (Z.of_nat (length tl)) /\
            inject_Z (fold_left (fun c w => (c + F w)%Z) tl 0%Z)
                / inject_Z (Z.of_nat (length tl)) <= inject_Z dmax)%Q.
    assert (HF : forall w, 1 <= F w <= dmax)
      by (intros w; unfold F; now apply fold_min_row_positive).
    pose proof (fold_sum_bounds F tl 0 HF) as Hc.
    set (c := fold_left (fun c w => c + F w) tl 0) in *.
    assert (HlenQ : (0 < inject_Z (Z.of_nat (length tl)))%Q).
    { change 0%Q with (inject_Z 0). rewrite <- Zlt_Qlt. lia. }
    split.
    + apply Qlt_shift_div_l; auto. rewrite Qmult_0_l.
      change 0%Q with (inject_Z 0). rewrite <- Zlt_Qlt. lia.
    + apply Qle_shift_div_r; auto.
      rewrite <- inject_Z_mult, <- Zle_Qle. lia.
  - split.
    + change 0%Q with (inject_Z 0). rewrite <- Zlt_Qlt. exact Hd.
    + apply Qle_refl.
Qed.

Lemma Qsquare_bounds (q u : Q) :
  (0 < q)%Q -> (q <= u)%Q -> (0 < q ^ 2 /\ q ^ 2 <= u * u)%Q.
Proof.
  intros H0 Hu. change (q ^ 2)%Q with (q * q)%Q. split.
  - now apply Qmult_lt_0_compat.
  - apply Qmult_le_compat_nonneg; split; auto using Qlt_le_weak.
Qed.
End TwoLinkBounds.

(** X20: with a positive [dmax] (the argument or [np.max(LP)]) a pair
    without a path either way gets a positive entry that is at most
    [dmax] squared, from the naive estimators (where visited) and from the
    two-link estimator; together with the negative entries of the related
    pairs, the sign of an entry tells the two kinds of pair apart. *)
Theorem spacelike_entries_positive
  (LP : matrix Z) (N : nat) (dmax : option Z) (dv : Z) (i j : nat) :
  shape N N LP -> (i < N)%nat -> (j < N)%nat -> i <> j ->
  get 0 LP i j = 0 -> get 0 LP j i = 0 ->
  effective_dmax LP dmax = Ok dv -> 0 < dv ->
  (exists DS2, Dagsep.naive_spacelike_matrix LP dmax = Ok DS2 /\
     0 < get 0 DS2 i j <= dv * dv) /\
  (forall k, visited k i j ->
     exists DS2, MatrixUtils.naive_spacelike_matrix LP dmax k = Ok DS2 /\
       0 < get 0 DS2 i j <= dv * dv) /\
  (exists DS2, Dagsep.twolink_spacelike_matrix LP dmax = Ok DS2 /\
     (0 < get 0%Q DS2 i j /\ get 0%Q DS2 i j <= inject_Z dv * inject_Z dv)%Q).
Proof.
  intros Hsh Hi Hj Hij E1 E2 Hd Hpos.
  set (a := Nat.max i j). set (b := Nat.min i j).
  assert (Hab : (a < N)%nat /\ (b < N)%nat) by (unfold a, b; lia).
  assert (Hinit : get 0 (initial_ds2 LP) a b = 0).
  { rewrite (get_initial_ds2 Hsh) by tauto.
    assert (Hcase : (a = i /\ b = j) \/ (a = j /\ b = i)) by (unfold a, b; lia).
    destruct Hcase as [[-> ->]|[-> ->]]; rewrite E1, E2; reflexivity. }
  assert (Hnaive : 0 < naive_value LP dv a b <= dv * dv).
  { unfold naive_value.
    destruct (naive_sp_dist_least_bridge dv Hsh (proj1 Hab) (proj2 Hab))
      as [H1 [_ H3]].
    destruct H3 as [E|[w [z [_ [Hp E]]]]]; nia. }
  assert (Hcells : forall bound, (forall x, (bound x <= x)%nat) ->
    (b < bound a)%nat ->
    0 < get 0 (pair_loop 0 is_zero (naive_value LP dv) bound N (initial_ds2 LP)) i j
      <= dv * dv).
  { intros bound Hb Hvis.
    destruct (@pair_loop_written_pair Z 0 is_zero (naive_value LP dv) N bound Hb
                (initial_ds2 LP) i j) as [H1 _];
      auto using shape_initial_ds2.
    - fold a b. unfold is_zero. now rewrite Hinit.
    - fold a b in H1. now rewrite H1. }
  rewrite (dagsep_naive_unfold Hsh), (dagsep_twolink_unfold Hsh), Hd. simpl.
  split; [|split].
  - eexists. split; [reflexivity|]. apply Hcells; [lia | unfold a, b; lia].
  - intros k Hvis. rewrite (matrix_utils_naive_unfold Hsh), Hd. simpl.
    eexists. split; [reflexivity|].
    apply Hcells; [apply landmark_bound_le | exact Hvis].
  - eexists. split; [reflexivity|].
    destruct (@pair_loop_written_pair Q 0%Q is_zeroQ (twolink_value LP dv) N
                (fun x => x) (fun x => le_n x)
                (map_matrix inject_Z (initial_ds2 LP)) i j) as [H1 _];
      auto using shape_map_matrix, shape_initial_ds2.
    + fold a b. lia.
    + fold a b.
      rewrite (get_map_matrix inject_Z 0 0%Q (n := N) (m := N))
        by (try apply shape_initial_ds2; tauto).
      now rewrite Hinit.
    + fold a b in H1. rewrite H1. unfold twolink_value.
      destruct (twolink_av_sp_dist_bounds LP a b Hpos) as [B1 B2].
      now apply Qsquare_bounds.
Qed.

Lemma spacelike_entries_positive_witness :
  (exists DS2, Dagsep.naive_spacelike_matrix diamond_LP None = Ok DS2 /\
     0 < get 0 DS2 1%nat 2%nat <= 2 * 2) /\
  (forall k, visited k 1 2 ->
     exists DS2, MatrixUtils.naive_spacelike_matrix diamond_LP None k = Ok DS2 /\
       0 < get 0 DS2 1%nat 2%nat <= 2 * 2) /\
  (exists DS2, Dagsep.twolink_spacelike_matrix diamond_LP None = Ok DS2 /\
     (0 < get 0%Q DS2 1%nat 2%nat /\
      get 0%Q DS2 1%nat 2%nat <= inject_Z 2 * inject_Z 2)%Q).
Proof.
  apply (@spacelike_entries_positive diamond_LP 4 None 2 1 2);
    try reflexivity; try lia.
  split; [reflexivity | repeat constructor].
Defined.
